(** * fileshaker: exact-duplicate, cross-tree and near-duplicate tools

    A shallow embedding of
    - [cli/v2/dedupe/script.py]  (hash cache, byte comparison, [find_duplicates]),
    - [cli/v2/diff/script.py]    ([compare_files], [find_unique_files]),
    - [cli/copy_and_filter.py]   ([group_similar_images], the largest-file choice
      of [copy_files]),
    followed by the properties of these functions.

    Conventions.  A path is a string; a directory tree is given by the list of
    paths its traversal yields, in traversal order, together with a file system
    that maps a path to its [stat] data and contents.  The file system does not
    change during a run.  Logging and progress bars are not modelled. *)

From Stdlib.Strings Require Import Byte Ascii.
From Equations Require Import Equations.
From stdpp Require Import gmap strings list fin_maps pretty.
From stdpp Require Import sorting.

Set Warnings "-abstract-large-number".

#[global] Instance byte_eq_dec : EqDecision byte := Byte.byte_eq_dec.

(** ** The platform: digest function and rendering of modification times *)

(** [hashlib.sha256(..).hexdigest()] and the float type of [st_mtime] with its
    rendering inside an f-string are parameters of the development.  Nothing is
    assumed of the digest: it may collide. *)
Class Platform := {
  mtime : Type;
  mtime_str : mtime → string;
  sha256_hex : list byte → string;
}.

(** ** Files and file systems *)

Definition path := string.

(** [contents = None]: opening or reading the file raises. *)
Record file `{Platform} := File {
  st_size : N;
  st_mtime : mtime;
  contents : option (list byte);
}.
Arguments File {_} _ _ _.

(** A path that is absent is not a regular file, or its [stat] raises. *)
Abbreviation filesystem := (gmap path file).

Section Definitions.
Context `{Platform}.

Definition read_bytes (fs : filesystem) (p : path) : option (list byte) :=
  f ← fs !! p; contents f.

(** Python truthiness of a value that is a string or [None]. *)
Definition truthy (r : option string) : bool :=
  match r with
  | Some s => negb (bool_decide (s = ""))
  | None => false
  end.

(** [d.setdefault(k, []).append(v)] on a dictionary kept in insertion order. *)
Fixpoint setdefault_append {K V} `{EqDecision K}
    (k : K) (v : V) (d : list (K * list V)) : list (K * list V) :=
  match d with
  | [] => [(k, [v])]
  | (k', l) :: d' =>
      if decide (k = k') then (k', l ++ [v]) :: d'
      else (k', l) :: setdefault_append k v d'
  end.

(** [l.remove(x)]: removes the first occurrence. *)
Fixpoint list_remove_first {A} `{EqDecision A} (x : A) (l : list A) : list A :=
  match l with
  | [] => []
  | y :: l' => if decide (x = y) then l' else y :: list_remove_first x l'
  end.

(** [l.pop()]: the last element and the list without it. *)
Definition list_pop {A} (l : list A) : option (A * list A) :=
  match last l with
  | Some x => Some (x, removelast l)
  | None => None
  end.

(** *** cli/v2/dedupe/script.py *)

(** The hash cache ([load_cache] yields a dictionary from key strings to hex
    digests) together with a ghost record of every call of [compute_file_hash]
    and its result. *)
Record hstate := HState {
  cache : gmap string string;
  computed : list (path * option string);
}.

(** [compute_file_hash]: the digest of the whole contents, [None] when the file
    cannot be opened or read.  The digest of the concatenated chunks is the
    digest of the contents. *)
Definition compute_file_hash (fs : filesystem) (p : path) : option string :=
  sha256_hex <$> read_bytes fs p.

(** [f"{file_path}:{stat.st_size}:{stat.st_mtime}"] *)
Definition cache_key (p : path) (size : N) (mt : mtime) : string :=
  p +:+ ":" +:+ pretty size +:+ ":" +:+ mtime_str mt.

(** The two cache accesses of [get_file_hash]. *)
Definition cache_lookup (c : gmap string string) (p : path) (size : N) (mt : mtime)
    : option string :=
  c !! cache_key p size mt.

Definition cache_store (c : gmap string string) (p : path) (size : N) (mt : mtime)
    (h : string) : gmap string string :=
  <[cache_key p size mt := h]> c.

Definition get_file_hash (fs : filesystem) (p : path) (st : hstate)
    : option string * hstate :=
  match fs !! p with
  | None => (None, st)
  | Some f =>
      match cache_lookup (cache st) p (st_size f) (st_mtime f) with
      | Some h => (Some h, st)
      | None =>
          let filehash := compute_file_hash fs p in
          let computed' := computed st ++ [(p, filehash)] in
          match filehash with
          | Some h =>
              if truthy filehash
              then (filehash,
                    HState (cache_store (cache st) p (st_size f) (st_mtime f) h)
                           computed')
              else (filehash, HState (cache st) computed')
          | None => (None, HState (cache st) computed')
          end
      end
  end.

(** The loop of [files_are_identical] on the unread parts of both files;
    [f.read(n)] takes the next [n] bytes. *)
Equations? identical_loop (n : nat) (r1 r2 : list byte) : bool
    by wf (length r1) lt :=
  identical_loop n r1 r2 :=
    if bool_decide (take n r1 = take n r2) then
      match take n r1 as b1 return (take n r1 = b1 → bool) with
      | [] => λ _, true
      | _ :: _ => λ _, identical_loop n (drop n r1) (drop n r2)
      end eq_refl
    else false.
Proof.
  destruct n; [discriminate|]. destruct r1; [discriminate|].
  rewrite length_drop. simpl. lia.
Qed.

Definition files_are_identical (fs : filesystem) (file1 file2 : path) : bool :=
  match read_bytes fs file1, read_bytes fs file2 with
  | Some d1, Some d2 => identical_loop 8192 d1 d2
  | _, _ => false
  end.

(** An element of a reported group: [{'path': .., 'size': ..}]. *)
Record entry := Entry { e_path : path; e_size : N }.

#[global] Instance entry_eq_dec : EqDecision entry.
Proof. solve_decision. Defined.

(** First loop of [find_duplicates]: [file_sizes] and [files_by_size]. *)
Definition scan_step (fs : filesystem)
    (acc : gmap path N * list (N * list path)) (p : path)
    : gmap path N * list (N * list path) :=
  match fs !! p with
  | Some f => (<[p := st_size f]> acc.1, setdefault_append (st_size f) p acc.2)
  | None => acc
  end.

Definition scan_files (fs : filesystem) (scan : list path)
    : gmap path N * list (N * list path) :=
  foldl (scan_step fs) (∅, []) scan.

Definition potential_dups (files_by_size : list (N * list path)) : list (list path) :=
  filter (λ files, 1 < length files) (files_by_size.*2).

Definition files_to_check (files_by_size : list (N * list path)) : list path :=
  concat (potential_dups files_by_size).

(** Second loop: hashing through the cache, filling [hash_to_files]. *)
Definition hash_step (fs : filesystem)
    (acc : hstate * list (string * list path)) (p : path)
    : hstate * list (string * list path) :=
  let r := get_file_hash fs p acc.1 in
  match r.1 with
  | Some h => if truthy r.1 then (r.2, setdefault_append h p acc.2) else (r.2, acc.2)
  | None => (r.2, acc.2)
  end.

Definition hash_files (fs : filesystem) (st : hstate) (to_check : list path)
    : hstate * list (string * list path) :=
  foldl (hash_step fs) (st, []) to_check.

(** [file_sizes[str(p)]]; the key is present for every scanned path. *)
Definition mk_entry (file_sizes : gmap path N) (p : path) : entry :=
  Entry p (file_sizes !!! p).

(** The [for other_file in file_list[:]] loop: the iteration runs over a copy
    while the matches are removed from [file_list] itself. *)
Definition compare_step (fs : filesystem) (file_sizes : gmap path N)
    (reference : path) (acc : list entry * list path) (other_file : path)
    : list entry * list path :=
  if files_are_identical fs reference other_file
  then (acc.1 ++ [mk_entry file_sizes other_file], list_remove_first other_file acc.2)
  else acc.

Definition compare_all (fs : filesystem) (file_sizes : gmap path N)
    (reference : path) (file_list : list path) : list entry * list path :=
  foldl (compare_step fs file_sizes reference)
        ([mk_entry file_sizes reference], file_list) file_list.

(** The end of one round of the [while] loop: a group of two or more is a
    duplicate group, a group of one is a unique file. *)
Definition classify (group : list entry) (out : list (list entry) * list entry)
    : list (list entry) * list entry :=
  if bool_decide (1 < length group) then (out.1 ++ [group], out.2)
  else (out.1, out.2 ++ take 1 group).

Lemma compare_step_length fs sizes r acc p :
  length (compare_step fs sizes r acc p).2 ≤ length acc.2.
Proof.
  unfold compare_step. destruct (files_are_identical _ _ _); simpl; [|lia].
  induction acc.2 as [|y l IH]; simpl; [lia|].
  destruct (decide (p = y)); simpl; lia.
Qed.

Lemma compare_all_length fs sizes r l :
  length (compare_all fs sizes r l).2 ≤ length l.
Proof.
  unfold compare_all.
  cut (∀ it acc, length (foldl (compare_step fs sizes r) acc it).2 ≤ length acc.2).
  { intros Hc. apply (Hc l (_, l)). }
  induction it as [|p it IH]; intros acc; simpl; [lia|].
  etrans; [apply IH|]. apply compare_step_length.
Qed.

(** Matching on a value while keeping the equation, for the termination
    proof below. *)
Definition inspect {A} (x : A) : {y : A | x = y} := exist _ x eq_refl.

(** The [while file_list:] loop. *)
Equations? resolve (fs : filesystem) (file_sizes : gmap path N)
    (file_list : list path) (out : list (list entry) * list entry)
    : list (list entry) * list entry by wf (length file_list) lt :=
  resolve fs file_sizes file_list out with inspect (list_pop file_list) := {
    | exist _ None _ => out
    | exist _ (Some popped) Hpop =>
        let reference := popped.1 in
        let round := compare_all fs file_sizes reference popped.2 in
        resolve fs file_sizes round.2 (classify round.1 out) }.
Proof.
  unfold list_pop in Hpop. destruct (last file_list) as [x|] eqn:Hl; [|done].
  apply last_Some in Hl as [l' Hl]. simplify_eq.
  subst round reference. simpl. rewrite removelast_last, length_app. simpl.
  pose proof (compare_all_length fs file_sizes x l'). lia.
Qed.

(** The body of [for file_list in hash_to_files.values()]. *)
Definition resolve_list (fs : filesystem) (file_sizes : gmap path N)
    (out : list (list entry) * list entry) (file_list : list path)
    : list (list entry) * list entry :=
  if bool_decide (1 < length file_list) then resolve fs file_sizes file_list out
  else (out.1, out.2 ++ (mk_entry file_sizes <$> take 1 file_list)).

(** [find_duplicates] on the traversal [scan] of the source directory: the pair
    [(duplicates, unique_files)], and the cache after the run with the record
    of the digests computed in it. *)
Definition find_duplicates (fs : filesystem) (scan : list path)
    (cache0 : gmap string string)
    : (list (list entry) * list entry) * hstate :=
  let sc := scan_files fs scan in
  let hs := hash_files fs (HState cache0 []) (files_to_check sc.2) in
  (foldl (resolve_list fs sc.1) ([], []) (hs.2.*2), hs.1).

(** [main] copies every unique file and [group[0]] of every duplicate group. *)
Definition canonical (group : list entry) : option entry := head group.

Definition files_copied (r : list (list entry) * list entry) : list path :=
  (e_path <$> r.2) ++ (e_path <$> omap canonical r.1).

(** *** cli/v2/diff/script.py *)

(** [get_files_with_size]: a [defaultdict(list)] from sizes to the paths of the
    walk, files whose [getsize] raises being skipped. *)
Definition index_step (fs : filesystem) (m : gmap N (list path)) (p : path)
    : gmap N (list path) :=
  match fs !! p with
  | Some f => <[st_size f := m !!! st_size f ++ [p]]> m
  | None => m
  end.

Definition get_files_with_size (fs : filesystem) (walk : list path)
    : gmap N (list path) :=
  foldl (index_step fs) ∅ walk.

Definition compute_hash (fs : filesystem) (p : path) : option string :=
  sha256_hex <$> read_bytes fs p.

(** [iter(lambda: f.read(n), b'')]: the blocks up to the first empty read. *)
Equations? blocks (n : nat) (r : list byte) : list (list byte)
    by wf (length r) lt :=
  blocks n r :=
    match take n r as b return (take n r = b → list (list byte)) with
    | [] => λ _, []
    | _ :: _ => λ _, take n r :: blocks n (drop n r)
    end eq_refl.
Proof.
  destruct n; [discriminate|]. destruct r; [discriminate|].
  rewrite length_drop. simpl. lia.
Qed.

(** [compare_files]: the blocks are paired by [zip], which stops with the
    shorter sequence. *)
Definition compare_files (fs : filesystem) (file1 file2 : path) : bool :=
  match read_bytes fs file1, read_bytes fs file2 with
  | Some d1, Some d2 =>
      forallb (λ bb : list byte * list byte, bool_decide (bb.1 = bb.2))
              (zip (blocks 65536 d1) (blocks 65536 d2))
  | _, _ => false
  end.

(** The dictionaries [hashes_a] and [hashes_b] of one size. *)
Definition hash_index_step (fs : filesystem) (m : gmap string (list path))
    (p : path) : gmap string (list path) :=
  match compute_hash fs p with
  | Some h => if truthy (Some h) then <[h := m !!! h ++ [p]]> m else m
  | None => m
  end.

Definition hash_index (fs : filesystem) (files : list path)
    : gmap string (list path) :=
  foldl (hash_index_step fs) ∅ files.

(** The four sets of [find_unique_files]. *)
Record diff_state := DiffState {
  unique_to_a : gset path;
  unique_to_b : gset path;
  matched_files_a : gset path;
  matched_files_b : gset path;
}.

(** One [file_a] against the files of B with its hash: the inner loop stops at
    the first match. *)
Definition match_file_a (fs : filesystem) (files_with_hash_b : list path)
    (s : diff_state) (file_a : path) : diff_state :=
  match list_find (λ file_b, compare_files fs file_a file_b = true)
                  files_with_hash_b with
  | Some (_, file_b) =>
      DiffState (unique_to_a s) (unique_to_b s)
                ({[file_a]} ∪ matched_files_a s) ({[file_b]} ∪ matched_files_b s)
  | None =>
      DiffState ({[file_a]} ∪ unique_to_a s) (unique_to_b s)
                (matched_files_a s) (matched_files_b s)
  end.

Definition check_file_b (s : diff_state) (file_b : path) : diff_state :=
  if decide (file_b ∈ matched_files_b s) then s
  else DiffState (unique_to_a s) ({[file_b]} ∪ unique_to_b s)
                 (matched_files_a s) (matched_files_b s).

Definition process_common_hash (hashes_a hashes_b : gmap string (list path))
    (fs : filesystem) (s : diff_state) (file_hash : string) : diff_state :=
  let files_with_hash_a := hashes_a !!! file_hash in
  let files_with_hash_b := hashes_b !!! file_hash in
  foldl check_file_b
        (foldl (match_file_a fs files_with_hash_b) s files_with_hash_a)
        files_with_hash_b.

Definition update_unique_a (s : diff_state) (files : list path) : diff_state :=
  DiffState (list_to_set files ∪ unique_to_a s) (unique_to_b s)
            (matched_files_a s) (matched_files_b s).

Definition update_unique_b (s : diff_state) (files : list path) : diff_state :=
  DiffState (unique_to_a s) (list_to_set files ∪ unique_to_b s)
            (matched_files_a s) (matched_files_b s).

(** The body of [for size in common_sizes].  Python sets are iterated in an
    unspecified order; here in the order of [elements]. *)
Definition process_common_size (fs : filesystem)
    (files_a files_b : gmap N (list path)) (s : diff_state) (size : N)
    : diff_state :=
  let hashes_a := hash_index fs (files_a !!! size) in
  let hashes_b := hash_index fs (files_b !!! size) in
  let common_hashes : gset string := dom hashes_a ∩ dom hashes_b in
  let s1 := foldl (process_common_hash hashes_a hashes_b fs) s
                  (elements common_hashes) in
  let s2 := foldl (λ s h, update_unique_a s (hashes_a !!! h)) s1
                  (elements (dom hashes_a ∖ common_hashes)) in
  foldl (λ s h, update_unique_b s (hashes_b !!! h)) s2
        (elements (dom hashes_b ∖ common_hashes)).

Definition diff_trees (fs : filesystem) (walk_a walk_b : list path) : diff_state :=
  let files_a := get_files_with_size fs walk_a in
  let files_b := get_files_with_size fs walk_b in
  let common_sizes : gset N := dom files_a ∩ dom files_b in
  let s1 := foldl (process_common_size fs files_a files_b)
                  (DiffState ∅ ∅ ∅ ∅) (elements common_sizes) in
  let s2 := foldl (λ s size, update_unique_a s (files_a !!! size)) s1
                  (elements (dom files_a ∖ common_sizes)) in
  foldl (λ s size, update_unique_b s (files_b !!! size)) s2
        (elements (dom files_b ∖ common_sizes)).

(** [find_unique_files] returns the two sets of unique files. *)
Definition find_unique_files (fs : filesystem) (walk_a walk_b : list path)
    : gset path * gset path :=
  let s := diff_trees fs walk_a walk_b in (unique_to_a s, unique_to_b s).

(** *** cli/copy_and_filter.py *)

(** A perceptual hash enters [group_similar_images] as the integer read from
    its hexadecimal rendering, [int(str(h), 16)]. *)
Definition hashed_image : Type := Z * path.

Fixpoint pos_count_ones (p : positive) : nat :=
  match p with
  | xH => 1
  | xO q => pos_count_ones q
  | xI q => S (pos_count_ones q)
  end.

(** [bin(z).count('1')]; the binary rendering of a negative number is that of
    its absolute value after a sign. *)
Definition count_ones (z : Z) : nat :=
  match z with
  | Z0 => 0
  | Zpos p => pos_count_ones p
  | Zneg p => pos_count_ones p
  end.

Definition hamming_distance (a b : Z) : nat := count_ones (Z.lxor a b).

(** [hashes_int.sort(key=lambda x: x[0])], a stable sort. *)
Fixpoint insert_by_hash (x : hashed_image) (l : list hashed_image)
    : list hashed_image :=
  match l with
  | [] => [x]
  | y :: l' =>
      if bool_decide (x.1 < y.1)%Z then x :: y :: l' else y :: insert_by_hash x l'
  end.

Definition sort_by_hash (l : list hashed_image) : list hashed_image :=
  foldl (λ sorted x, insert_by_hash x sorted) [] l.

Definition within (hash_threshold : Z) (a b : Z) : Prop :=
  (Z.of_nat (hamming_distance a b) ≤ hash_threshold)%Z.

#[global] Instance within_dec t a b : Decision (within t a b).
Proof. unfold within. apply _. Defined.

(** The body of [for i in range(n)]; the state is [(groups, current_group)]. *)
Definition group_step (hash_threshold : Z)
    (acc : list (list hashed_image) * list hashed_image) (x : hashed_image)
    : list (list hashed_image) * list hashed_image :=
  match last acc.2 with
  | None => (acc.1, acc.2 ++ [x])
  | Some prev =>
      if bool_decide (within hash_threshold x.1 prev.1)
      then (acc.1, acc.2 ++ [x])
      else (acc.1 ++ [acc.2], [x])
  end.

Definition scan_groups (hash_threshold : Z) (sorted : list hashed_image)
    : list (list hashed_image) * list hashed_image :=
  foldl (group_step hash_threshold) ([], []) sorted.

Definition group_similar_images (hashes : list hashed_image) (hash_threshold : Z)
    : list (list hashed_image) :=
  let r := scan_groups hash_threshold (sort_by_hash hashes) in
  match r.2 with
  | [] => r.1
  | _ :: _ => r.1 ++ [r.2]
  end.

(** [max(xs, key=..)] on the list of computed keys: the first element whose key
    is maximal; [None] for the empty list, where Python raises. *)
Definition max_by_key {A} (keyed : list (A * N)) : option A :=
  match keyed with
  | [] => None
  | x :: rest =>
      Some (foldl (λ best y : A * N, if bool_decide (best.2 < y.2)%N then y else best)
                  x rest).1
  end.

(** [max(files, key=lambda f: f.stat().st_size)]; [None] when a [stat] raises. *)
Definition largest_file (fs : filesystem) (files : list path) : option path :=
  keyed ← mapM (λ p, f ← fs !! p; Some (p, st_size f)) files;
  max_by_key keyed.

(** One round of the image loop of [copy_files]: the file that is copied and
    the entry added to [similar_images_data], if any. *)
Definition copy_group (fs : filesystem) (group : list hashed_image)
    : option (path * option (path * list path)) :=
  let files := group.*2 in
  largest ← largest_file fs files;
  let similar_files := filter (λ f, f ≠ largest) files in
  Some (largest,
        match similar_files with
        | [] => None
        | _ :: _ => Some (largest, similar_files)
        end).

(** *** The summary of [main] in cli/v2/dedupe/script.py *)

(** [sum(xs)] on Python integers. *)
Definition py_sum (xs : list Z) : Z := foldl Z.add 0%Z xs.

Definition entry_size (e : entry) : Z := Z.of_N (e_size e).

(** The six numbers under ['summary'] in the JSON report. *)
Record summary := Summary {
  total_duplicate_groups : Z;
  total_duplicate_files : Z;
  total_redundant_files : Z;
  total_redundant_size_bytes : Z;
  total_files_to_copy : Z;
  total_size_to_copy_bytes : Z;
}.

(** The statistics of [main]; [None] when [group[0]] raises on an empty
    group. *)
Definition summarize (duplicates : list (list entry)) (unique_files : list entry)
    : option summary :=
  firsts ← mapM head duplicates;
  Some (Summary
    (Z.of_nat (length duplicates))
    (py_sum ((λ group, Z.of_nat (length group)) <$> duplicates))
    (py_sum ((λ group, Z.of_nat (length group) - 1)%Z <$> duplicates))
    (py_sum ((λ group, py_sum (entry_size <$> drop 1 group)) <$> duplicates))
    (Z.of_nat (length unique_files) + Z.of_nat (length duplicates))%Z
    (py_sum (entry_size <$> unique_files) + py_sum (entry_size <$> firsts))%Z).

End Definitions.

(** * Properties *)

(** ** Vocabulary of the statements *)

Section Vocabulary.
Context `{Platform}.

(** The stat sizes of the readable files are the lengths of their contents. *)
Definition size_matches (f : file) : Prop :=
  match contents f with
  | Some d => st_size f = N.of_nat (length d)
  | None => True
  end.

#[global] Instance size_matches_dec f : Decision (size_matches f).
Proof. unfold size_matches. destruct (contents f); apply _. Defined.

Definition sizes_agree (fs : filesystem) : Prop :=
  map_Forall (λ _ f, size_matches f) fs.

(** [a] is met before [b] in the traversal [scan]. *)
Definition scanned_before (scan : list path) (a b : path) : Prop :=
  [a; b] `sublist_of` scan.

(** The paths named by the two lists that [find_duplicates] returns. *)
Definition group_paths (duplicates : list (list entry)) : list path :=
  concat ((λ group : list entry, e_path <$> group) <$> duplicates).

Definition reported_paths (r : list (list entry) * list entry) : list path :=
  group_paths r.1 ++ (e_path <$> r.2).

(** The file at [p] can be stat'ed and has size [s]. *)
Definition size_is (fs : filesystem) (s : N) (p : path) : Prop :=
  st_size <$> fs !! p = Some s.

#[global] Instance size_is_dec fs s p : Decision (size_is fs s p).
Proof. unfold size_is. apply _. Defined.

(** [files_by_size] after the traversal of [scan]: one bucket for each size
    met, holding the files of that size in traversal order. *)
Definition buckets_of (fs : filesystem) (scan : list path)
    (d : list (N * list path)) : Prop :=
  NoDup d.*1 ∧
  Forall (λ kl, kl.2 = filter (size_is fs kl.1) scan) d ∧
  ∀ q s, q ∈ scan → size_is fs s q → s ∈ d.*1.

(** A group made of a reference file and the files found identical to it, all
    taken from the list [fl], the reference coming after the others. *)
Definition resolved_group (fs : filesystem) (sizes : gmap path N)
    (fl : list path) (g : list entry) : Prop :=
  ∃ r l, g = (mk_entry sizes <$> r :: l) ∧ l ≠ [] ∧
         (l ++ [r]) `sublist_of` fl ∧
         Forall (λ q, files_are_identical fs r q = true) l.

(** The files of [files_to_check] for which [get_file_hash] gave a usable
    digest, the cache being threaded as in the hashing loop. *)
Fixpoint hashed_candidates (fs : filesystem) (st : hstate) (l : list path)
    : list path :=
  match l with
  | [] => []
  | p :: l' =>
      let r := get_file_hash fs p st in
      (if truthy r.1 then [p] else []) ++ hashed_candidates fs r.2 l'
  end.

(** Every two neighbours of the list are within the threshold. *)
Fixpoint chained (t : Z) (l : list hashed_image) : Prop :=
  match l with
  | [] => True
  | x :: l' =>
      match l' with
      | [] => True
      | y :: _ => within t x.1 y.1 ∧ chained t l'
      end
  end.

(** [xs] is a path from [a] to [b] inside [group] whose consecutive members are
    within the threshold. *)
Definition similarity_path (t : Z) (group : list hashed_image)
    (a b : hashed_image) (xs : list hashed_image) : Prop :=
  head xs = Some a ∧ last xs = Some b ∧ xs ⊆ group ∧ chained t xs.

(** No colon occurs in the string. *)
Fixpoint colon_free (s : string) : Prop :=
  match s with
  | EmptyString => True
  | String a s' => a ≠ ":"%char ∧ colon_free s'
  end.

(** The rendering of a modification time holds no colon and distinguishes
    modification times, as the rendering of a Python float does. *)
Definition mtime_rendering_plain : Prop :=
  (∀ mt, colon_free (mtime_str mt)) ∧ Inj (=) (=) mtime_str.

(** The value is [None] or the empty string. *)
Definition falsy (r : option string) : Prop := truthy r = false.

(** Every entry that the cache holds for a file of the tree is the digest of
    the current contents of the file. *)
Definition cache_sound (fs : filesystem) (c : gmap string string) : Prop :=
  ∀ p f h, fs !! p = Some f →
    c !! cache_key p (st_size f) (st_mtime f) = Some h →
    compute_file_hash fs p = Some h.

(** No digest is the empty string, as for a hexadecimal digest. *)
Definition digest_never_empty : Prop := ∀ d, sha256_hex d ≠ "".

(** [d.get(k)] on a dictionary kept in insertion order. *)
Fixpoint alist_get {K V} `{EqDecision K} (k : K) (d : list (K * V)) : option V :=
  match d with
  | [] => None
  | (k', v) :: d' => if decide (k = k') then Some v else alist_get k d'
  end.

(** The order of the sort of [group_similar_images]. *)
Definition by_hash (a b : hashed_image) : Prop := (a.1 ≤ b.1)%Z.

(** Between the last member of a group and the first member of the next group
    the distance exceeds the threshold. *)
Definition apart (t : Z) (g1 g2 : list hashed_image) : Prop :=
  ∀ a b, last g1 = Some a → head g2 = Some b → ¬ within t b.1 a.1.

Fixpoint separated (t : Z) (gs : list (list hashed_image)) : Prop :=
  match gs with
  | [] => True
  | g1 :: rest =>
      match rest with
      | [] => True
      | g2 :: _ => apart t g1 g2 ∧ separated t rest
      end
  end.

(** The value that a [defaultdict(list)] holds for a key under which the
    list [l] was appended, one item at a time: nothing for the empty list. *)
Definition bucket {A} (l : list A) : option (list A) :=
  match l with
  | [] => None
  | _ :: _ => Some l
  end.

(** [compute_hash] succeeds on the file with the non-empty digest [h]. *)
Definition digest_is (fs : filesystem) (h : string) (p : path) : Prop :=
  compute_hash fs p = Some h ∧ h ≠ "".

#[global] Instance digest_is_dec fs h p : Decision (digest_is fs h p).
Proof. unfold digest_is. apply _. Defined.

(** The two files have the same size and the same non-empty digest. *)
Definition counterpart (fs : filesystem) (a b : path) : Prop :=
  ∃ s h, size_is fs s a ∧ size_is fs s b ∧ digest_is fs h a ∧ digest_is fs h b.

(** The file [a] of tree A has a file in the walk of tree B with its size and
    digest that [compare_files] finds equal to it; and the same for a file
    [b] of tree B, the file of tree A being the first argument of
    [compare_files] as in the loop. *)
Definition matches_in_b (fs : filesystem) (walk_b : list path) (a : path)
    : Prop :=
  ∃ b, b ∈ walk_b ∧ counterpart fs a b ∧ compare_files fs a b = true.

Definition matches_in_a (fs : filesystem) (walk_a : list path) (b : path)
    : Prop :=
  ∃ a, a ∈ walk_a ∧ counterpart fs a b ∧ compare_files fs a b = true.

(** The file was hashed, or no file of the other tree has its size. *)
Definition hashed_or_alone (fs : filesystem) (others : list path) (x : path)
    : Prop :=
  (∃ h, digest_is fs h x) ∨
  (∃ s, size_is fs s x ∧ ∀ y, y ∈ others → ¬ size_is fs s y).

(** What the four sets of [find_unique_files] hold at every point of the
    loops. *)
Definition diff_inv (fs : filesystem) (walk_a walk_b : list path)
    (s : diff_state) : Prop :=
  (∀ a, a ∈ unique_to_a s →
     a ∈ walk_a ∧ ¬ matches_in_b fs walk_b a ∧ hashed_or_alone fs walk_b a) ∧
  (∀ b, b ∈ unique_to_b s → b ∈ walk_b ∧ hashed_or_alone fs walk_a b) ∧
  (∀ a, a ∈ matched_files_a s → a ∈ walk_a ∧ matches_in_b fs walk_b a) ∧
  (∀ b, b ∈ matched_files_b s → b ∈ walk_b ∧ matches_in_a fs walk_a b).

(** The four sets only grow. *)
Definition diff_le (s s' : diff_state) : Prop :=
  unique_to_a s ⊆ unique_to_a s' ∧ unique_to_b s ⊆ unique_to_b s' ∧
  matched_files_a s ⊆ matched_files_a s' ∧
  matched_files_b s ⊆ matched_files_b s'.

End Vocabulary.

(** A modification time of whole seconds as the f-string of the cache key
    renders such a float: [1700000000.0]. *)
Definition render_seconds (z : Z) : string := pretty z +:+ ".0".

(** Two platforms for the concrete runs below: one whose digest is injective,
    and one whose digest sends every file to the same value, the extreme case
    of a crafted collision.  Modification times are whole seconds. *)
Definition plain_platform : Platform :=
  {| mtime := Z; mtime_str := render_seconds;
     sha256_hex := λ d, "#" +:+ String.string_of_list_byte d |}.

Definition colliding_platform : Platform :=
  {| mtime := Z; mtime_str := render_seconds; sha256_hex := λ _, "c0ffee" |}.

(** ** Concrete inputs of the runs below *)

Definition plain_file (size : N) (seconds : Z) (c : option (list byte))
    : @file plain_platform :=
  @File plain_platform size seconds c.

(** A small tree used by the concrete runs: three copies of one picture, a
    fourth file of the same size with other bytes, a file whose size nobody
    shares, and a file that cannot be read. *)
Definition demo_scan : list path :=
  ["src/a.jpg"; "src/b.jpg"; "src/c.jpg"; "src/d.jpg"; "src/e.txt"; "src/u.bin"].

Definition demo_fs `{Platform} (mt : mtime) : filesystem :=
  {[ "src/a.jpg" := File 3 mt (Some [x61; x62; x63]);
     "src/b.jpg" := File 3 mt (Some [x61; x62; x63]);
     "src/c.jpg" := File 3 mt (Some [x61; x62; x63]);
     "src/d.jpg" := File 3 mt (Some [x78; x79; x7a]);
     "src/e.txt" := File 5 mt (Some [x68; x65; x6c; x6c; x6f]);
     "src/u.bin" := File 3 mt None ]}.

(** The tree under the colliding digest and under the injective one. *)
Definition collide_fs : gmap path (@file colliding_platform) :=
  demo_fs (H:=colliding_platform) 1700000000%Z.

Definition plain_fs : gmap path (@file plain_platform) :=
  demo_fs (H:=plain_platform) 1700000000%Z.

(** The group that the three copies form. *)
Definition demo_group : list entry :=
  [Entry "src/c.jpg" 3; Entry "src/a.jpg" 3; Entry "src/b.jpg" 3].

(** Tree A holds one picture, tree B holds two copies of it. *)
Definition diff_fs : gmap path (@file plain_platform) :=
  {[ "A/photo.jpg" := plain_file 3 1700000000 (Some [x61; x62; x63]);
     "B/copy1.jpg" := plain_file 3 1700000001 (Some [x61; x62; x63]);
     "B/copy2.jpg" := plain_file 3 1700000002 (Some [x61; x62; x63]) ]}.

Definition diff_walk_a : list path := ["A/photo.jpg"].
Definition diff_walk_b : list path := ["B/copy1.jpg"; "B/copy2.jpg"].

(** A chain of three fingerprints: neighbours differ in one bit, the two ends
    in two. *)
Definition demo_hashes : list hashed_image :=
  [(8%Z, "img/x.png"); (3%Z, "img/c.png"); (0%Z, "img/a.png"); (1%Z, "img/b.png")].

Definition demo_chain : list hashed_image :=
  [(0%Z, "img/a.png"); (1%Z, "img/b.png"); (3%Z, "img/c.png")].

(** Three pictures whose fingerprints form the chain above. *)
Definition demo_image_fs : gmap path (@file plain_platform) :=
  {[ "img/a.png" := plain_file 10 1700000000 (Some [x01]);
     "img/b.png" := plain_file 30 1700000000 (Some [x02]);
     "img/c.png" := plain_file 20 1700000000 (Some [x03]) ]}.

(** Two trees: [A/one.txt] has a copy in B, [A/two.txt] has none; B also
    holds a file of the same size that cannot be read, and a longer file. *)
Definition mixed_fs : gmap path (@file plain_platform) :=
  {[ "A/one.txt" := plain_file 3 1700000000 (Some [x61; x62; x63]);
     "A/two.txt" := plain_file 3 1700000001 (Some [x78; x79; x7a]);
     "B/one.txt" := plain_file 3 1700000002 (Some [x61; x62; x63]);
     "B/locked.txt" := plain_file 3 1700000003 None;
     "B/long.txt" := plain_file 4 1700000004 (Some [x61; x62; x63; x64]) ]}.

(** The picture [src/a.jpg] of the tree above after it was rewritten with
    other bytes of the same length: once with its modification time put back,
    once with a new modification time. *)
Definition rewritten_fs : gmap path (@file plain_platform) :=
  <["src/a.jpg" := plain_file 3 1700000000 (Some [x78; x79; x7a])]> plain_fs.

Definition touched_fs : gmap path (@file plain_platform) :=
  <["src/a.jpg" := plain_file 3 1700000001 (Some [x78; x79; x7a])]> plain_fs.

Definition mixed_walk_a : list path := ["A/one.txt"; "A/two.txt"].
Definition mixed_walk_b : list path :=
  ["B/one.txt"; "B/locked.txt"; "B/long.txt"].

(** ** The byte comparison of the resolver *)

Section ByteComparison.
Context `{Platform}.

Lemma identical_loop_step n r1 r2 :
  identical_loop n r1 r2 =
    if bool_decide (take n r1 = take n r2)
    then (if bool_decide (take n r1 = []) then true
          else identical_loop n (drop n r1) (drop n r2))
    else false.
Proof.
  rewrite identical_loop_equation_1 at 1.
  destruct (bool_decide (take n r1 = take n r2)); [|done].
  destruct (take n r1); done.
Qed.

Lemma identical_loop_spec n r1 r2 :
  0 < n → identical_loop n r1 r2 = true ↔ r1 = r2.
Proof.
  intros Hn. remember (length r1) as k eqn:Hk.
  revert r1 r2 Hk. induction (lt_wf k) as [k _ IH]. intros r1 r2 ->.
  rewrite identical_loop_step. case_bool_decide as Ht.
  - case_bool_decide as He.
    + assert (r1 = []) as ->.
      { destruct r1, n; simpl in *; done || lia. }
      rewrite take_nil in Ht. destruct r2; [done|].
      destruct n; [lia|]. done.
    + rewrite (IH (length (drop n r1))); [| |done].
      * split.
        -- intros Hd. by rewrite <-(take_drop n r1), <-(take_drop n r2), Ht, Hd.
        -- by intros ->.
      * rewrite length_drop. destruct r1; [by rewrite take_nil in He|].
        simpl. lia.
  - split; [done|]. by intros ->.
Qed.

Lemma files_are_identical_true fs a b :
  files_are_identical fs a b = true ↔
  ∃ d, read_bytes fs a = Some d ∧ read_bytes fs b = Some d.
Proof.
  unfold files_are_identical.
  destruct (read_bytes fs a) as [d1|], (read_bytes fs b) as [d2|];
    try (split; [done|by intros (? & ? & ?)]).
  rewrite identical_loop_spec by (by apply Nat.ltb_lt). split.
  - intros ->. eauto.
  - by intros (? & [= ->] & [= ->]).
Qed.

(** C10.  When both files can be read, [files_are_identical] answers [True]
    exactly when their contents are equal; when the contents of one file are a
    strict prefix of the contents of the other, it answers [False]. *)
Theorem files_are_identical_iff_same_bytes fs file1 file2 d1 d2 :
  read_bytes fs file1 = Some d1 →
  read_bytes fs file2 = Some d2 →
  (files_are_identical fs file1 file2 = true ↔ d1 = d2) ∧
  (∀ rest, rest ≠ [] → d2 = d1 ++ rest ∨ d1 = d2 ++ rest →
     files_are_identical fs file1 file2 = false).
Proof.
  intros H1 H2.
  assert (files_are_identical fs file1 file2 = true ↔ d1 = d2) as Hiff.
  { rewrite files_are_identical_true, H1, H2. split.
    - by intros (? & [= ->] & [= ->]).
    - intros ->. eauto. }
  split; [done|]. intros rest Hrest Hpre.
  apply not_true_is_false. rewrite Hiff. intros ->.
  destruct Hpre as [Hp|Hp]; apply (f_equal length) in Hp;
    rewrite length_app in Hp; destruct rest; simpl in *; done || lia.
Qed.

End ByteComparison.

Lemma files_are_identical_iff_same_bytes_witness :
  (files_are_identical collide_fs "src/a.jpg" "src/d.jpg" = true ↔
     [x61; x62; x63] = [x78; x79; x7a]) ∧
  (∀ rest, rest ≠ [] →
     [x78; x79; x7a] = [x61; x62; x63] ++ rest ∨
     [x61; x62; x63] = [x78; x79; x7a] ++ rest →
     files_are_identical collide_fs "src/a.jpg" "src/d.jpg" = false).
Proof.
  apply (files_are_identical_iff_same_bytes collide_fs "src/a.jpg" "src/d.jpg");
    reflexivity.
Defined.

(** ** The hash cache *)

Section HashCache.
Context `{Platform}.

Lemma colon_free_split a a' b b' :
  colon_free a → colon_free a' →
  a +:+ ":" +:+ b = a' +:+ ":" +:+ b' → a = a' ∧ b = b'.
Proof.
  revert a'. induction a as [|x a IH]; intros [|x' a'] Ha Ha' E; simpl in *.
  - by simplify_eq.
  - simplify_eq. by destruct Ha'.
  - simplify_eq. by destruct Ha.
  - injection E as -> E. destruct Ha, Ha'. destruct (IH a') as [-> ->]; done.
Qed.

Lemma pretty_N_go_colon_free x s : colon_free s → colon_free (pretty_N_go x s).
Proof.
  revert s. induction (N.lt_wf_0 x) as [x _ IH]; intros s Hs.
  assert (x = 0 ∨ 0 < x)%N as [->|Hx] by lia.
  - by rewrite pretty_N_go_0.
  - rewrite pretty_N_go_step by done. apply IH.
    + by apply N.div_lt.
    + simpl. split; [|done]. unfold pretty_N_char. by repeat case_match.
Qed.

Lemma pretty_N_colon_free (n : N) : colon_free (pretty n).
Proof.
  unfold pretty, pretty_N. case_decide; [by simpl|].
  by apply pretty_N_go_colon_free.
Qed.

(** The key of a path determines the size and the rendered modification time. *)
Lemma cache_key_same_path p size size' mt mt' :
  cache_key p size mt = cache_key p size' mt' →
  size = size' ∧ mtime_str mt = mtime_str mt'.
Proof.
  unfold cache_key. intros E. apply (inj (String.app p)) in E.
  apply (inj (String.app ":")) in E.
  apply colon_free_split in E as [E1 E2]; auto using pretty_N_colon_free.
  split; [|done]. by apply (inj pretty).
Qed.

(** [get_file_hash] answers from the cache when the key is present, without
    reading the file; otherwise it computes the digest and stores it under the
    key of the current size and modification time. *)
Lemma get_file_hash_hit fs p f st h :
  fs !! p = Some f →
  cache_lookup (cache st) p (st_size f) (st_mtime f) = Some h →
  get_file_hash fs p st = (Some h, st).
Proof. intros Hf Hc. unfold get_file_hash. by rewrite Hf, Hc. Qed.

Lemma get_file_hash_miss fs p f st h :
  fs !! p = Some f →
  cache_lookup (cache st) p (st_size f) (st_mtime f) = None →
  compute_file_hash fs p = Some h → h ≠ "" →
  get_file_hash fs p st
  = (Some h, HState (cache_store (cache st) p (st_size f) (st_mtime f) h)
                    (computed st ++ [(p, Some h)])).
Proof.
  intros Hf Hc Hh Hne. unfold get_file_hash. rewrite Hf, Hc, Hh. simpl.
  by rewrite bool_decide_eq_false_2.
Qed.

(** The two accesses on the dictionary: a store is seen under the same path,
    size and modification time and under no other size or modification time of
    that path. *)
Lemma cache_store_lookup (c : gmap string string) p size mt h :
  Inj (=) (=) mtime_str →
  cache_lookup (cache_store c p size mt h) p size mt = Some h ∧
  ∀ size' mt', size' ≠ size ∨ mt' ≠ mt →
    cache_lookup (cache_store c p size mt h) p size' mt' = cache_lookup c p size' mt'.
Proof.
  intros Hinj. unfold cache_lookup, cache_store. split.
  - by rewrite lookup_insert_eq.
  - intros size' mt' Hchanged.
    assert (cache_key p size mt ≠ cache_key p size' mt') as Hne.
    { intros [-> E]%cache_key_same_path. apply Hinj in E as ->.
      by destruct Hchanged. }
    by rewrite lookup_insert_ne.
Qed.

(** C5.  A call of [get_file_hash] that finds no entry for the file and
    computes the usable digest [h] stores it.  From then on a call for that
    path with the same size and modification time is answered [h] from the
    cache, whatever the file holds by then, without a read and without a
    change of the cache.  A call after the size or the modification time has
    changed does not see the stored digest: its answer is the one it would
    get from the cache before the store, and when that cache held nothing for
    the changed file the digest is computed anew from the file. *)
Theorem hash_cache_round_trip (fs : filesystem) p f st h :
  Inj (=) (=) mtime_str →
  fs !! p = Some f →
  cache_lookup (cache st) p (st_size f) (st_mtime f) = None →
  compute_file_hash fs p = Some h → h ≠ "" →
  let st1 := (get_file_hash fs p st).2 in
  (get_file_hash fs p st).1 = Some h ∧
  cache_lookup (cache st1) p (st_size f) (st_mtime f) = Some h ∧
  (∀ (fs' : filesystem) f', fs' !! p = Some f' →
     st_size f' = st_size f → st_mtime f' = st_mtime f →
     get_file_hash fs' p st1 = (Some h, st1)) ∧
  (∀ (fs' : filesystem) f', fs' !! p = Some f' →
     st_size f' ≠ st_size f ∨ st_mtime f' ≠ st_mtime f →
     (get_file_hash fs' p st1).1 = (get_file_hash fs' p st).1 ∧
     (cache_lookup (cache st) p (st_size f') (st_mtime f') = None →
        (get_file_hash fs' p st1).1 = compute_file_hash fs' p ∧
        computed (get_file_hash fs' p st1).2
          = computed st1 ++ [(p, compute_file_hash fs' p)])).
Proof.
  intros Hinj Hf Hmiss Hh Hne st1. subst st1.
  rewrite (get_file_hash_miss fs p f st h) by done. simpl.
  destruct (cache_store_lookup (cache st) p (st_size f) (st_mtime f) h Hinj)
    as [Hsame Hother].
  split_and!; [done|done|..].
  - intros fs' f' Hf' Hsize Hmt. apply get_file_hash_hit with f'; [done|].
    simpl. by rewrite Hsize, Hmt.
  - intros fs' f' Hf' Hchanged. unfold get_file_hash. rewrite Hf'. simpl.
    rewrite (Hother _ _ Hchanged).
    destruct (cache_lookup (cache st) p (st_size f') (st_mtime f')) as [h'|].
    + split; [done|]. by intros ?.
    + split; [|intros _];
        destruct (compute_file_hash fs' p) as [h'|]; simpl; try done;
        by destruct (bool_decide (h' = "")).
Qed.

End HashCache.

Lemma render_seconds_inj : Inj (=) (=) render_seconds.
Proof.
  assert (∀ a b : string, String.length (a +:+ b)
                          = String.length a + String.length b) as Hlen.
  { intros a b. induction a as [|x a IH]; [done|].
    change (S (String.length (a +:+ b)) = S (String.length a + String.length b)).
    by rewrite IH. }
  assert (∀ a b s : string, a +:+ s = b +:+ s → a = b) as Hcancel.
  { intros a. induction a as [|x a IH]; intros [|y b] s E.
    - done.
    - apply (f_equal String.length) in E.
      change (String.length s = S (String.length (b +:+ s))) in E.
      rewrite Hlen in E. lia.
    - apply (f_equal String.length) in E.
      change (S (String.length (a +:+ s)) = String.length s) in E.
      rewrite Hlen in E. lia.
    - change (String x (a +:+ s) = String y (b +:+ s)) in E.
      injection E as -> E. f_equal. by apply (IH b s). }
  intros z z' E. unfold render_seconds in E.
  by apply Hcancel, (inj pretty) in E.
Qed.

(** A first call stores the digest of [abc].  After the file was rewritten
    with its size and modification time kept, the stored digest is still the
    answer; with a new modification time the digest of the new bytes is. *)
Lemma hash_cache_round_trip_witness :
  let st1 := (get_file_hash plain_fs "src/a.jpg" (HState ∅ [])).2 in
  (get_file_hash plain_fs "src/a.jpg" (HState ∅ [])).1 = Some "#abc" ∧
  get_file_hash rewritten_fs "src/a.jpg" st1 = (Some "#abc", st1) ∧
  (get_file_hash touched_fs "src/a.jpg" st1).1 = Some "#xyz".
Proof.
  intros st1.
  destruct (hash_cache_round_trip plain_fs "src/a.jpg"
              (plain_file 3 1700000000 (Some [x61; x62; x63]))
              (HState ∅ []) "#abc")
    as (Hfirst & _ & Hsame & Hchanged);
    [exact render_seconds_inj|reflexivity|reflexivity|reflexivity|done|].
  split_and!.
  - exact Hfirst.
  - apply (Hsame rewritten_fs (plain_file 3 1700000000 (Some [x78; x79; x7a])));
      reflexivity.
  - destruct (Hchanged touched_fs
                (plain_file 3 1700000001 (Some [x78; x79; x7a])))
      as [_ Hnew]; [reflexivity|right; discriminate|].
    exact (proj1 (Hnew eq_refl)).
Defined.

(** ** Grouping of similar images *)

Section SimilarImages.

Lemma within_sym t a b : within t a b → within t b a.
Proof. unfold within, hamming_distance. by rewrite Z.lxor_comm. Qed.

Lemma chained_cons t x l :
  chained t (x :: l) ↔
  chained t l ∧ ∀ y, head l = Some y → within t x.1 y.1.
Proof.
  destruct l as [|y l]; simpl.
  - split; [|done]. intros _. split; [done|]. by intros ? [=].
  - split.
    + intros [Hw Hc]. split; [done|]. by intros ? [= <-].
    + intros [Hc Hw]. split; [|done]. by apply Hw.
Qed.

Lemma chained_app t l1 l2 :
  chained t (l1 ++ l2) ↔
  chained t l1 ∧ chained t l2 ∧
  ∀ x y, last l1 = Some x → head l2 = Some y → within t x.1 y.1.
Proof.
  induction l1 as [|x l1 IH].
  - simpl. split; [|tauto]. intros ?. split_and!; [done..|]. by intros ?? [=].
  - rewrite <-app_comm_cons, !chained_cons, IH. destruct l1 as [|z l1].
    + simpl. split.
      * intros ((_ & ? & _) & Hh). split_and!; try done.
        intros ?? [= <-] ?. by apply Hh.
      * intros (_ & ? & Hl). split_and!; try done. intros ??. by apply Hl.
    + simpl. tauto.
Qed.

Lemma chained_reverse t l : chained t l → chained t (reverse l).
Proof.
  induction l as [|x l IH]; [done|].
  rewrite chained_cons, reverse_cons, chained_app. intros [Hc Hh].
  split_and!; [by apply IH|done|].
  intros z y Hz [= <-]. apply within_sym, Hh.
  rewrite last_reverse in Hz. done.
Qed.

(** The scan keeps every finished group and the current group chained, and no
    finished group is empty. *)
Lemma scan_groups_chained t sorted :
  Forall (λ g, chained t g ∧ g ≠ []) (scan_groups t sorted).1 ∧
  chained t (scan_groups t sorted).2.
Proof.
  unfold scan_groups. induction sorted as [|x sorted IH] using rev_ind.
  - simpl. split; [constructor|done].
  - rewrite foldl_snoc. destruct IH as [IH1 IH2].
    destruct (foldl _ _ sorted) as [groups current]; simpl in *.
    unfold group_step; simpl. destruct (last current) as [prev|] eqn:Hlast.
    + case_bool_decide as Hw; simpl.
      * split; [done|]. apply chained_app. split_and!; [done..|].
        intros ?? Hl [= <-]. rewrite Hlast in Hl. injection Hl as <-.
        by apply within_sym.
      * split; [|done]. apply Forall_app. split; [done|].
        apply Forall_singleton. split; [done|]. by intros ->.
    + apply last_None in Hlast as ->. done.
Qed.

Lemma group_similar_images_chained hashes t g :
  g ∈ group_similar_images hashes t → chained t g ∧ g ≠ [].
Proof.
  unfold group_similar_images.
  destruct (scan_groups_chained t (sort_by_hash hashes)) as [H1 H2].
  rewrite Forall_forall in H1.
  destruct (scan_groups t (sort_by_hash hashes)).2 as [|y l] eqn:E.
  - apply H1.
  - rewrite elem_of_app, list_elem_of_singleton. intros [?| ->]; [by apply H1|].
    done.
Qed.

Lemma chained_forward_path t g a b l1 l2 l3 :
  chained t g → g = l1 ++ a :: l2 ++ b :: l3 →
  similarity_path t g a b (a :: l2 ++ [b]).
Proof.
  intros Hc ->. unfold similarity_path. split_and!.
  - done.
  - by rewrite app_comm_cons, last_snoc.
  - intros x. rewrite !elem_of_app, !elem_of_cons, !elem_of_app, !elem_of_cons.
    rewrite elem_of_nil. tauto.
  - apply chained_app in Hc as (_ & Hc & _).
    change (a :: l2 ++ b :: l3) with ((a :: l2) ++ [b] ++ l3) in Hc.
    rewrite app_assoc in Hc. by apply chained_app in Hc as (Hc & _).
Qed.

Lemma similarity_path_reverse t g a b xs :
  similarity_path t g a b xs → similarity_path t g b a (reverse xs).
Proof.
  intros (Hh & Hl & Hs & Hc). unfold similarity_path. split_and!.
  - by rewrite head_reverse.
  - by rewrite last_reverse.
  - intros x. rewrite elem_of_reverse. apply Hs.
  - by apply chained_reverse.
Qed.

(** C6.  Any two members of a group of [group_similar_images] are joined by a
    path of members of the group in which consecutive members lie within the
    threshold of each other. *)
Theorem similar_group_members_are_chained hashes t g a b :
  g ∈ group_similar_images hashes t → a ∈ g → b ∈ g →
  ∃ xs, similarity_path t g a b xs.
Proof.
  intros Hg Ha Hb. apply group_similar_images_chained in Hg as [Hc _].
  apply list_elem_of_split in Ha as (l1 & l2 & ->).
  apply elem_of_app in Hb as [Hb|Hb].
  - apply list_elem_of_split in Hb as (m1 & m2 & ->).
    exists (reverse (b :: m2 ++ [a])). apply similarity_path_reverse.
    apply (chained_forward_path t _ b a m1 m2 l2); [done|].
    by rewrite <-app_assoc.
  - apply elem_of_cons in Hb as [->|Hb].
    + exists [a]. unfold similarity_path. split_and!; try done.
      intros x. rewrite list_elem_of_singleton. intros ->.
      rewrite elem_of_app, elem_of_cons. tauto.
    + apply list_elem_of_split in Hb as (m1 & m2 & ->).
      exists (a :: m1 ++ [b]). by apply (chained_forward_path t _ a b l1 m1 m2).
Qed.

End SimilarImages.

Example demo_groups :
  group_similar_images demo_hashes 1 = [demo_chain; [(8%Z, "img/x.png")]].
Proof. reflexivity. Qed.

Example demo_chain_ends_apart : ¬ within 1 0 3.
Proof. unfold within. vm_compute. by intros []. Qed.

Lemma similar_group_members_are_chained_witness :
  ∃ xs, similarity_path 1 demo_chain (0%Z, "img/a.png") (3%Z, "img/c.png") xs.
Proof.
  apply (similar_group_members_are_chained demo_hashes 1 demo_chain);
    compute_done.
Defined.

(** ** The file kept from a group of similar images *)

Section LargestFile.
Context `{Platform}.

Lemma max_fold_spec {A} (rest : list (A * N)) (x : A * N) :
  let best := foldl (λ best y : A * N,
                       if bool_decide (best.2 < y.2)%N then y else best) x rest in
  best ∈ x :: rest ∧ ∀ y, y ∈ x :: rest → (y.2 ≤ best.2)%N.
Proof.
  revert x. induction rest as [|z rest IH]; intros x; simpl.
  - split; [by left|]. intros y ->%list_elem_of_singleton. done.
  - case_bool_decide as Hlt.
    + destruct (IH z) as [Hin Hmax]. split; [by right|].
      intros y [->|Hy]%elem_of_cons; [|by apply Hmax].
      specialize (Hmax z ltac:(by left)). lia.
    + destruct (IH x) as [Hin Hmax]. split.
      * apply elem_of_cons in Hin as [->|Hin]; [by left|by do 2 right].
      * intros y [->|[->|Hy]%elem_of_cons]%elem_of_cons.
        -- apply Hmax. by left.
        -- specialize (Hmax x ltac:(by left)). lia.
        -- apply Hmax. by right.
Qed.

Lemma max_by_key_spec {A} (keyed : list (A * N)) :
  keyed ≠ [] →
  ∃ best, max_by_key keyed = Some best.1 ∧ best ∈ keyed ∧
          ∀ y, y ∈ keyed → (y.2 ≤ best.2)%N.
Proof.
  destruct keyed as [|x rest]; [done|]. intros _.
  destruct (max_fold_spec rest x) as [Hin Hmax]. simpl. eauto.
Qed.

Lemma largest_file_spec fs files :
  files ≠ [] → (∀ m, m ∈ files → is_Some (fs !! m)) →
  ∃ c fc, largest_file fs files = Some c ∧ c ∈ files ∧ fs !! c = Some fc ∧
    ∀ m, m ∈ files → ∃ fm, fs !! m = Some fm ∧ (st_size fm ≤ st_size fc)%N.
Proof.
  intros Hne Hstat. unfold largest_file.
  assert (∃ keyed, mapM (λ p, f ← fs !! p; Some (p, st_size f)) files = Some keyed)
    as [keyed Hk].
  { apply mapM_is_Some, Forall_forall. intros m Hm.
    destruct (Hstat m Hm) as [f Hf]. simpl. rewrite Hf. by eexists. }
  rewrite Hk. simpl. apply mapM_Some in Hk.
  destruct (max_by_key_spec keyed) as (best & -> & Hin & Hmax).
  { intros ->. apply Forall2_nil_inv_r in Hk. done. }
  assert (∀ pk, pk ∈ keyed →
            pk.1 ∈ files ∧ ∃ f, fs !! pk.1 = Some f ∧ pk.2 = st_size f) as Hkeyed.
  { intros pk Hpk. apply list_elem_of_lookup in Hpk as [i Hi].
    destruct (Forall2_lookup_r _ _ _ _ _ Hk Hi) as (p & Hp & Hf).
    destruct (fs !! p) as [f|] eqn:Hfs; [|done]. simpl in Hf. simplify_eq.
    simpl. split; [by eapply list_elem_of_lookup_2|]. eauto. }
  destruct (Hkeyed best Hin) as (Hc & fc & Hfc & Hsz).
  exists best.1, fc. split_and!; try done.
  intros m Hm. apply list_elem_of_lookup in Hm as [i Hi].
  destruct (Forall2_lookup_l _ _ _ _ _ Hk Hi) as (pk & Hpk & Hf).
  destruct (fs !! m) as [fm|] eqn:Hfs; [|done]. simpl in Hf. simplify_eq.
  exists fm. split; [done|]. rewrite <-Hsz.
  apply (Hmax (m, st_size fm)). by eapply list_elem_of_lookup_2.
Qed.

(** C8.  For every group of similar images whose files can all be stat'ed,
    [copy_files] keeps a member of the group whose size is at least the size of
    every member of the group. *)
Theorem largest_image_is_kept fs hashes t g :
  g ∈ group_similar_images hashes t →
  (∀ m, m ∈ g.*2 → is_Some (fs !! m)) →
  ∃ c similar fc, copy_group fs g = Some (c, similar) ∧ c ∈ g.*2 ∧
    fs !! c = Some fc ∧
    ∀ m, m ∈ g.*2 → ∃ fm, fs !! m = Some fm ∧ (st_size fm ≤ st_size fc)%N.
Proof.
  intros Hg Hstat. apply group_similar_images_chained in Hg as [_ Hne].
  destruct (largest_file_spec fs g.*2) as (c & fc & Hl & Hc & Hfc & Hmax);
    [by destruct g|done|].
  unfold copy_group. rewrite Hl. simpl. eauto 10.
Qed.

End LargestFile.

Lemma largest_image_is_kept_witness :
  ∃ c similar fc, copy_group demo_image_fs demo_chain = Some (c, similar) ∧
    c ∈ demo_chain.*2 ∧ demo_image_fs !! c = Some fc ∧
    ∀ m, m ∈ demo_chain.*2 →
      ∃ fm, demo_image_fs !! m = Some fm ∧ (st_size fm ≤ st_size fc)%N.
Proof.
  apply (largest_image_is_kept demo_image_fs demo_hashes 1 demo_chain).
  - compute_done.
  - apply (Forall_forall (λ m, is_Some (demo_image_fs !! m))). compute_done.
Defined.

Example demo_copy_group :
  copy_group demo_image_fs demo_chain
  = Some ("img/b.png", Some ("img/b.png", ["img/a.png"; "img/c.png"])).
Proof. reflexivity. Qed.

(** ** The exact-duplicate resolver *)

Section Resolver.
Context `{Platform}.
Implicit Types (fs : filesystem) (sizes : gmap path N) (l : list path).

(** *** One round of comparisons *)

Lemma list_remove_first_middle (x : path) pre l :
  x ∉ pre → list_remove_first x (pre ++ x :: l) = pre ++ l.
Proof.
  induction pre as [|y pre IH]; simpl; intros Hx.
  - by rewrite decide_True.
  - apply not_elem_of_cons in Hx as [Hxy Hx].
    rewrite decide_False by done. by rewrite IH.
Qed.

Lemma compare_fold fs sizes r it : ∀ pre g,
  Forall (λ q, files_are_identical fs r q ≠ true) pre →
  foldl (compare_step fs sizes r) (g, pre ++ it) it
  = (g ++ (mk_entry sizes <$> filter (λ q, files_are_identical fs r q = true) it),
     pre ++ filter (λ q, files_are_identical fs r q ≠ true) it).
Proof.
  induction it as [|p it IH]; intros pre g Hpre; simpl.
  - by rewrite !app_nil_r.
  - unfold compare_step at 2. simpl.
    destruct (files_are_identical fs r p) eqn:Hp.
    + rewrite list_remove_first_middle.
      2:{ intros Hin. rewrite Forall_forall in Hpre. by destruct (Hpre p Hin). }
      rewrite IH by done. rewrite filter_cons_True by done.
      rewrite filter_cons_False by (by intros []).
      rewrite fmap_cons. by rewrite <-app_assoc.
    + rewrite (cons_middle p pre it), app_assoc, IH.
      2:{ apply Forall_app. split; [done|]. apply Forall_singleton. congruence. }
      rewrite filter_cons_False by congruence.
      rewrite filter_cons_True by congruence.
      by rewrite <-app_assoc.
Qed.

(** A round keeps the reference with the files identical to it, in the order
    of the list, and leaves the others in the list. *)
Lemma compare_all_spec fs sizes r l :
  compare_all fs sizes r l
  = (mk_entry sizes <$> r :: filter (λ q, files_are_identical fs r q = true) l,
     filter (λ q, files_are_identical fs r q ≠ true) l).
Proof.
  unfold compare_all. by rewrite (compare_fold fs sizes r l [] _ (Forall_nil_2 _)).
Qed.

(** *** The loop over one list of files with the same digest *)

Lemma list_pop_snoc {A} (l : list A) x : list_pop (l ++ [x]) = Some (x, l).
Proof. unfold list_pop. by rewrite last_snoc, removelast_last. Qed.

Lemma resolve_clause_eq fs sizes fl out o (e : list_pop fl = o) :
  resolve_unfold_clause_1 fs sizes fl (exist _ o e) out
  = match o with
    | Some popped =>
        resolve fs sizes (compare_all fs sizes popped.1 popped.2).2
          (classify (compare_all fs sizes popped.1 popped.2).1 out)
    | None => out
    end.
Proof. by destruct o. Qed.

Lemma resolve_nil fs sizes out : resolve fs sizes [] out = out.
Proof. by rewrite resolve_equation_1. Qed.

Lemma resolve_snoc fs sizes l x out :
  resolve fs sizes (l ++ [x]) out
  = resolve fs sizes (compare_all fs sizes x l).2
      (classify (compare_all fs sizes x l).1 out).
Proof.
  rewrite resolve_equation_1 at 1. unfold inspect.
  rewrite resolve_clause_eq, list_pop_snoc. done.
Qed.

Lemma e_path_mk_entry sizes l : e_path <$> (mk_entry sizes <$> l) = l.
Proof. rewrite <-list_fmap_compose. by rewrite <-(list_fmap_id l) at 2. Qed.

Lemma group_paths_cons (g : list entry) gs :
  group_paths (g :: gs) = (e_path <$> g) ++ group_paths gs.
Proof. done. Qed.

Lemma group_paths_app gs1 gs2 :
  group_paths (gs1 ++ gs2) = group_paths gs1 ++ group_paths gs2.
Proof. unfold group_paths. by rewrite fmap_app, concat_app. Qed.

Lemma resolved_group_weaken fs sizes fl fl' g :
  fl `sublist_of` fl' → resolved_group fs sizes fl g → resolved_group fs sizes fl' g.
Proof.
  intros Hsub (r & l & -> & Hne & Hl & Hid). exists r, l.
  split_and!; try done. by etrans.
Qed.

(** What the [while] loop adds to the two result lists: groups of files
    identical to their first member, and single files; together they are the
    files of the list, each once. *)
Lemma resolve_spec fs sizes fl : ∀ out,
  ∃ gs us,
    resolve fs sizes fl out = (out.1 ++ gs, out.2 ++ (mk_entry sizes <$> us)) ∧
    Forall (resolved_group fs sizes fl) gs ∧
    group_paths gs ++ us ≡ₚ fl.
Proof.
  remember (length fl) as k eqn:Hk. revert fl Hk.
  induction (lt_wf k) as [k _ IH]. intros fl -> out.
  destruct fl as [|x l _] using rev_ind.
  { exists [], []. rewrite resolve_nil, !app_nil_r. by destruct out. }
  rewrite resolve_snoc, compare_all_spec. simpl.
  set (same := filter (λ q, files_are_identical fs x q = true) l).
  set (rest := filter (λ q, files_are_identical fs x q ≠ true) l).
  assert (rest `sublist_of` l) as Hrest by apply sublist_filter.
  assert (group_paths [] ++ x :: same ++ rest ≡ₚ l ++ [x]) as Hperm.
  { simpl. rewrite <-Permutation_cons_append. f_equiv.
    apply filter_app_complement. }
  edestruct (IH (length rest)) as (gs & us & -> & Hgs & Hp); [|done|].
  { rewrite length_app. simpl. apply sublist_length in Hrest. lia. }
  assert (Forall (resolved_group fs sizes (l ++ [x])) gs) as Hgs'.
  { eapply Forall_impl; [done|]. intros g. apply resolved_group_weaken.
    by apply sublist_inserts_r. }
  unfold classify. simpl. rewrite length_fmap. case_bool_decide as Hlen; simpl.
  - exists ((mk_entry sizes <$> x :: same) :: gs), us. split_and!.
    + by rewrite <-app_assoc.
    + constructor; [|done]. exists x, same. split_and!; try done.
      * intros E. rewrite E in Hlen. simpl in Hlen. lia.
      * apply sublist_app; [apply sublist_filter|done].
      * apply Forall_forall. intros q. unfold same.
        rewrite list_elem_of_filter. tauto.
    + rewrite group_paths_cons, e_path_mk_entry. simpl in *.
      rewrite <-Hperm, <-Hp. by rewrite <-app_assoc.
  - assert (same = []) as Hsame by (destruct same; simpl in *; done || lia).
    rewrite Hsame in *. simpl in *.
    exists gs, (x :: us). split_and!; try done.
    + by rewrite <-app_assoc.
    + rewrite <-Hperm, <-Hp. by rewrite Permutation_middle.
Qed.

(** The same for one round of the loop over [hash_to_files]. *)
Lemma resolve_list_spec fs sizes fl out :
  ∃ gs us,
    resolve_list fs sizes out fl = (out.1 ++ gs, out.2 ++ (mk_entry sizes <$> us)) ∧
    Forall (resolved_group fs sizes fl) gs ∧
    group_paths gs ++ us ≡ₚ fl.
Proof.
  unfold resolve_list. case_bool_decide as Hlen; [apply resolve_spec|].
  exists [], fl. rewrite app_nil_r. split_and!; try done.
  destruct fl as [|p [|q fl]]; simpl in *; done || lia.
Qed.

Lemma resolve_lists_spec fs sizes lists : ∀ out,
  ∃ gs us,
    foldl (resolve_list fs sizes) out lists
      = (out.1 ++ gs, out.2 ++ (mk_entry sizes <$> us)) ∧
    Forall (λ g, ∃ fl, fl ∈ lists ∧ resolved_group fs sizes fl g) gs ∧
    group_paths gs ++ us ≡ₚ concat lists.
Proof.
  induction lists as [|fl lists IH]; intros out; simpl.
  { exists [], []. rewrite !app_nil_r. by destruct out. }
  destruct (resolve_list_spec fs sizes fl out) as (gs1 & us1 & -> & Hg1 & Hp1).
  destruct (IH (out.1 ++ gs1, out.2 ++ (mk_entry sizes <$> us1)))
    as (gs2 & us2 & -> & Hg2 & Hp2). simpl.
  exists (gs1 ++ gs2), (us1 ++ us2). split_and!.
  - by rewrite fmap_app, !app_assoc.
  - apply Forall_app. split.
    + eapply Forall_impl; [done|]. intros g Hg. exists fl. split; [by left|done].
    + eapply Forall_impl; [done|]. intros g (fl' & Hfl' & Hg).
      exists fl'. split; [by right|done].
  - rewrite group_paths_app, <-Hp1, <-Hp2.
    rewrite <-!app_assoc. f_equiv. rewrite !app_assoc. f_equiv.
    apply Permutation_app_comm.
Qed.

(** *** The hashing loop *)

Lemma setdefault_append_concat {K} `{EqDecision K} (k : K) (v : path)
    (d : list (K * list path)) :
  concat (setdefault_append k v d).*2 ≡ₚ concat d.*2 ++ [v].
Proof.
  induction d as [|[k' fl] d IH]; simpl; [done|].
  case_decide; simpl.
  - rewrite <-!app_assoc. f_equiv. apply Permutation_app_comm.
  - by rewrite IH, app_assoc.
Qed.

Lemma setdefault_append_values {K} `{EqDecision K} (k : K) (v : path)
    (d : list (K * list path)) fl :
  fl ∈ (setdefault_append k v d).*2 →
  fl ∈ d.*2 ∨ ∃ fl0, (fl0 ∈ d.*2 ∨ fl0 = []) ∧ fl = fl0 ++ [v].
Proof.
  induction d as [|[k' fl'] d IH]; simpl.
  - intros ->%list_elem_of_singleton. right. exists []. eauto.
  - case_decide; simpl; rewrite !elem_of_cons.
    + intros [->|?]; [|by eauto]. right. exists fl'.
      rewrite elem_of_cons. eauto.
    + intros [->|Hin]; [by eauto|]. destruct (IH Hin) as [?|(fl0 & [?|?] & ?)].
      * eauto.
      * right. exists fl0. rewrite elem_of_cons. eauto.
      * right. exists fl0. eauto.
Qed.

Lemma hash_step_cases fs acc p :
  (truthy (get_file_hash fs p acc.1).1 = true ∧
   ∃ h, hash_step fs acc p = ((get_file_hash fs p acc.1).2, setdefault_append h p acc.2))
  ∨ (truthy (get_file_hash fs p acc.1).1 = false ∧
     hash_step fs acc p = ((get_file_hash fs p acc.1).2, acc.2)).
Proof.
  unfold hash_step. destruct (get_file_hash fs p acc.1).1 as [h|] eqn:E.
  - destruct (truthy (Some h)) eqn:Ht; [left|right]; eauto.
  - right. done.
Qed.

(** The lists of [hash_to_files] hold the files that were given a digest. *)
Lemma hash_fold_concat fs l : ∀ st d,
  concat (foldl (hash_step fs) (st, d) l).2.*2
  ≡ₚ concat d.*2 ++ hashed_candidates fs st l.
Proof.
  induction l as [|p l IH]; intros st d; simpl.
  - by rewrite app_nil_r.
  - destruct (hash_step_cases fs (st, d) p) as [[Ht (h & ->)]|[Ht ->]];
      simpl in *; rewrite Ht, IH.
    + by rewrite setdefault_append_concat, <-app_assoc.
    + done.
Qed.

(** Each list of [hash_to_files] keeps the order of [files_to_check]. *)
Lemma hash_fold_sublist fs l : ∀ st d pre,
  Forall (λ fl, fl `sublist_of` pre) d.*2 →
  Forall (λ fl, fl `sublist_of` pre ++ l) (foldl (hash_step fs) (st, d) l).2.*2.
Proof.
  induction l as [|p l IH]; intros st d pre Hd; simpl.
  - by rewrite app_nil_r.
  - rewrite (cons_middle p pre l), app_assoc.
    destruct (hash_step_cases fs (st, d) p) as [[Ht (h & ->)]|[Ht ->]];
      simpl in *; apply IH.
    + apply Forall_forall. intros fl Hfl. rewrite Forall_forall in Hd.
      apply setdefault_append_values in Hfl as [Hfl|(fl0 & [Hfl| ->] & ->)].
      * by apply sublist_inserts_r, Hd.
      * apply sublist_app; [by apply Hd|done].
      * by apply sublist_inserts_l.
    + eapply Forall_impl; [done|]. intros fl. apply sublist_inserts_r.
Qed.

Lemma hash_files_sublist fs st l fl :
  fl ∈ (hash_files fs st l).2.*2 → fl `sublist_of` l.
Proof.
  intros Hfl. pose proof (hash_fold_sublist fs l st [] [] (Forall_nil_2 _)) as Hs.
  rewrite Forall_forall in Hs. by apply Hs.
Qed.

Lemma hashed_candidates_sublist fs l : ∀ st,
  hashed_candidates fs st l `sublist_of` l.
Proof.
  induction l as [|p l IH]; intros st; simpl; [done|].
  destruct (truthy _); simpl; [by constructor|]. by constructor.
Qed.

(** The record of computed digests only grows, by entries for the files that
    are visited. *)
Lemma get_file_hash_computed fs p st :
  computed (get_file_hash fs p st).2 = computed st ∨
  computed (get_file_hash fs p st).2
    = computed st ++ [(p, (get_file_hash fs p st).1)].
Proof.
  unfold get_file_hash. destruct (fs !! p) as [f|]; [|by left].
  destruct (cache_lookup _ _ _ _); [by left|].
  destruct (compute_file_hash fs p) as [h|]; [|by right].
  destruct (truthy (Some h)); by right.
Qed.

Lemma hash_fold_computed fs l : ∀ st d,
  ∃ tr, computed (foldl (hash_step fs) (st, d) l).1 = computed st ++ tr ∧
        Forall (λ e, e.1 ∈ l) tr.
Proof.
  induction l as [|p l IH]; intros st d; simpl.
  - exists []. by rewrite app_nil_r.
  - assert (∃ d', hash_step fs (st, d) p = ((get_file_hash fs p st).2, d'))
      as [d' ->].
    { destruct (hash_step_cases fs (st, d) p) as [[_ (h & ->)]|[_ ->]]; eauto. }
    destruct (IH (get_file_hash fs p st).2 d') as (tr & -> & Htr).
    assert (Forall (λ e : path * option string, e.1 ∈ p :: l) tr) as Htr'.
    { eapply Forall_impl; [done|]. intros e ?. by right. }
    destruct (get_file_hash_computed fs p st) as [->| ->].
    + eauto.
    + exists ((p, (get_file_hash fs p st).1) :: tr). split.
      * by rewrite <-app_assoc.
      * constructor; [by left|done].
Qed.

(** A file whose digest computation failed is not among the files that were
    given a digest, when the loop visits it only once. *)
Lemma failed_hash_not_candidate fs p l : ∀ st d,
  NoDup l →
  (p, None) ∈ computed (foldl (hash_step fs) (st, d) l).1 →
  (p, None) ∉ computed st →
  p ∉ hashed_candidates fs st l.
Proof.
  induction l as [|q l IH]; intros st d Hnd Hin Hout; simpl.
  { apply not_elem_of_nil. }
  apply NoDup_cons in Hnd as [Hq Hnd]. simpl in Hin.
  assert (∃ d', hash_step fs (st, d) q = ((get_file_hash fs q st).2, d'))
    as [d' Hstep].
  { destruct (hash_step_cases fs (st, d) q) as [[_ (h & ->)]|[_ ->]]; eauto. }
  rewrite Hstep in Hin. rewrite elem_of_app. intros [Hp|Hp].
  - destruct (truthy (get_file_hash fs q st).1) eqn:Ht;
      [|by apply elem_of_nil in Hp].
    apply list_elem_of_singleton in Hp as ->.
    destruct (hash_fold_computed fs l (get_file_hash fs q st).2 d')
      as (tr & Etr & Htr).
    rewrite Etr in Hin. apply elem_of_app in Hin as [Hin|Hin].
    + destruct (get_file_hash_computed fs q st) as [E|E]; rewrite E in Hin.
      * done.
      * apply elem_of_app in Hin as [?|Hin]; [done|].
        apply list_elem_of_singleton in Hin. injection Hin as Hnone.
        by rewrite <-Hnone in Ht.
    + rewrite Forall_forall in Htr. by apply Htr in Hin.
  - assert (p ≠ q) as Hpq.
    { intros ->. apply Hq.
      eapply elem_of_sublist; [done|apply hashed_candidates_sublist]. }
    revert Hp. apply (IH _ d'); [done|done|].
    destruct (get_file_hash_computed fs q st) as [->| ->]; [done|].
    rewrite elem_of_app, list_elem_of_singleton. intros [?|[=]]; done.
Qed.

(** *** The traversal *)

Lemma size_is_inj fs s s' p : size_is fs s p → size_is fs s' p → s = s'.
Proof. unfold size_is. congruence. Qed.

Lemma scan_step_cases fs acc p :
  (∃ f, fs !! p = Some f ∧
        scan_step fs acc p
        = (<[p := st_size f]> acc.1, setdefault_append (st_size f) p acc.2))
  ∨ (fs !! p = None ∧ scan_step fs acc p = acc).
Proof. unfold scan_step. destruct (fs !! p); eauto. Qed.

Lemma scan_fold_concat fs l : ∀ acc,
  concat (foldl (scan_step fs) acc l).2.*2
  ≡ₚ concat acc.2.*2 ++ filter (λ p, is_Some (fs !! p)) l.
Proof.
  induction l as [|p l IH]; intros acc; simpl.
  - by rewrite app_nil_r.
  - rewrite IH. destruct (scan_step_cases fs acc p) as [(f & Hf & ->)|[Hf ->]].
    + simpl. rewrite setdefault_append_concat, filter_cons_True by by rewrite Hf.
      by rewrite <-app_assoc.
    + rewrite filter_cons_False; [done|]. rewrite Hf. by intros [].
Qed.

Lemma scan_fold_sizes fs p f l : ∀ acc,
  fs !! p = Some f →
  p ∈ l ∨ acc.1 !! p = Some (st_size f) →
  (foldl (scan_step fs) acc l).1 !! p = Some (st_size f).
Proof.
  induction l as [|q l IH]; intros acc Hf Hp; simpl.
  - destruct Hp as [Hp|Hp]; [by apply elem_of_nil in Hp|done].
  - apply IH; [done|].
    destruct (scan_step_cases fs acc q) as [(fq & Hfq & ->)|[Hfq ->]]; simpl.
    + destruct (decide (q = p)) as [->|Hne].
      * right. rewrite lookup_insert_eq. congruence.
      * rewrite lookup_insert_ne by done.
        destruct Hp as [[?|?]%elem_of_cons|?]; [congruence|by left|by right].
    + destruct Hp as [[->|?]%elem_of_cons|?]; [congruence|by left|by right].
Qed.

Lemma size_is_filter_snoc fs k k' v pre :
  size_is fs k v →
  filter (size_is fs k') (pre ++ [v])
  = filter (size_is fs k') pre ++ (if decide (k' = k) then [v] else []).
Proof.
  intros Hv. rewrite filter_app. f_equal. case_decide as Hk.
  - subst. by rewrite filter_cons_True.
  - rewrite filter_cons_False; [done|]. intros Hv'. apply Hk.
    by eapply size_is_inj.
Qed.

Lemma setdefault_append_keys {V} (k : N) (v : V) (d : list (N * list V)) :
  (setdefault_append k v d).*1
  = if decide (k ∈ d.*1) then d.*1 else d.*1 ++ [k].
Proof.
  induction d as [|[k' l] d IH]; [done|].
  destruct (decide (k ∈ ((k', l) :: d).*1)) as [Hin|Hnin]; csimpl.
  - destruct (decide (k = k')) as [->|Hne]; [done|]. csimpl. rewrite IH.
    rewrite decide_True; [done|]. by apply elem_of_cons in Hin as [?|?].
  - apply not_elem_of_cons in Hnin as [Hne Hnin].
    rewrite decide_False by done. csimpl. by rewrite IH, decide_False.
Qed.

Lemma setdefault_append_buckets fs k v pre d :
  size_is fs k v →
  NoDup d.*1 →
  (k ∉ d.*1 → filter (size_is fs k) pre = []) →
  Forall (λ kl, kl.2 = filter (size_is fs kl.1) pre) d →
  Forall (λ kl, kl.2 = filter (size_is fs kl.1) (pre ++ [v]))
         (setdefault_append k v d).
Proof.
  intros Hv. induction d as [|[k' l] d IH]; simpl; intros Hnd Hfresh Hd.
  - apply Forall_singleton. simpl.
    rewrite (size_is_filter_snoc fs k k v pre Hv), decide_True by done.
    rewrite Hfresh; [done|]. apply not_elem_of_nil.
  - apply NoDup_cons in Hnd as [Hk' Hnd]. apply Forall_cons in Hd as [Hl Hd].
    simpl in Hl. destruct (decide (k = k')) as [->|Hne].
    + constructor; simpl.
      * rewrite (size_is_filter_snoc fs k' k' v pre Hv), decide_True by done.
        by rewrite Hl.
      * apply Forall_forall. intros kl Hkl. rewrite Forall_forall in Hd.
        rewrite (size_is_filter_snoc fs k' _ v pre Hv), decide_False.
        -- rewrite app_nil_r. by apply Hd.
        -- intros E. apply Hk'. rewrite <-E. by apply list_elem_of_fmap_2.
    + constructor; simpl.
      * rewrite (size_is_filter_snoc fs k k' v pre Hv), decide_False by done.
        by rewrite app_nil_r.
      * apply IH; [done| |done]. intros Hk. apply Hfresh.
        by intros [?|?]%elem_of_cons.
Qed.

Lemma buckets_of_snoc fs pre acc p :
  buckets_of fs pre acc.2 →
  buckets_of fs (pre ++ [p]) (scan_step fs acc p).2.
Proof.
  intros (Hnd & Hd & Hkeys).
  destruct (scan_step_cases fs acc p) as [(f & Hf & ->)|[Hf ->]]; simpl.
  - assert (size_is fs (st_size f) p) as Hp by (unfold size_is; by rewrite Hf).
    split_and!.
    + rewrite setdefault_append_keys. case_decide; [done|].
      apply NoDup_app. split_and!; [done| |apply NoDup_singleton].
      intros x Hx ->%list_elem_of_singleton. done.
    + apply setdefault_append_buckets; try done.
      intros Hk. destruct (filter _ pre) as [|q l'] eqn:E; [done|].
      assert (q ∈ filter (size_is fs (st_size f)) pre) as Hq
        by (rewrite E; by left).
      apply list_elem_of_filter in Hq as [Hs Hq]. destruct Hk.
      by eapply Hkeys.
    + intros q s [Hq| ->%list_elem_of_singleton]%elem_of_app Hs.
      * rewrite setdefault_append_keys. case_decide; [by eapply Hkeys|].
        apply elem_of_app. left. by eapply Hkeys.
      * rewrite (size_is_inj _ _ _ _ Hs Hp), setdefault_append_keys.
        case_decide; [done|]. apply elem_of_app. right. by left.
  - split_and!; [done| |].
    + eapply Forall_impl; [done|]. intros kl ->. rewrite filter_app.
      rewrite filter_cons_False; [by rewrite app_nil_r|].
      unfold size_is. by rewrite Hf.
    + intros q s [Hq| ->%list_elem_of_singleton]%elem_of_app Hs.
      * by eapply Hkeys.
      * unfold size_is in Hs. by rewrite Hf in Hs.
Qed.

Lemma scan_fold_buckets fs l : ∀ acc pre,
  buckets_of fs pre acc.2 →
  buckets_of fs (pre ++ l) (foldl (scan_step fs) acc l).2.
Proof.
  induction l as [|p l IH]; intros acc pre Hb; simpl.
  - by rewrite app_nil_r.
  - rewrite (cons_middle p pre l), app_assoc. by apply IH, buckets_of_snoc.
Qed.

Lemma scan_files_buckets fs scan : buckets_of fs scan (scan_files fs scan).2.
Proof.
  apply (scan_fold_buckets fs scan (∅, []) []). split_and!.
  - constructor.
  - constructor.
  - intros q s Hq. by apply elem_of_nil in Hq.
Qed.

(** *** The files that are hashed *)

Lemma elem_of_concat {A} (x : A) (ls : list (list A)) :
  x ∈ concat ls ↔ ∃ xs, x ∈ xs ∧ xs ∈ ls.
Proof.
  induction ls as [|xs0 ls IH]; simpl.
  - split; [by intros ?%elem_of_nil|]. by intros (? & _ & ?%elem_of_nil).
  - rewrite elem_of_app, IH. split.
    + intros [?|(xs & ? & ?)]; [exists xs0|exists xs]; split; try done.
      * by left.
      * by right.
    + intros (xs & Hx & [->|?]%elem_of_cons); eauto.
Qed.

Lemma filter_none {A} (P : A → Prop) `{∀ x, Decision (P x)} (xs : list A) :
  (∀ x, x ∈ xs → ¬ P x) → filter P xs = [].
Proof.
  induction xs as [|x xs IH]; intros Hno; [done|].
  rewrite filter_cons_False by (apply Hno; by left).
  apply IH. intros y Hy. apply Hno. by right.
Qed.

Lemma size_is_filter_other fs scan s k :
  s ≠ k → filter (size_is fs s) (filter (size_is fs k) scan) = [].
Proof.
  intros Hne. apply filter_none. intros q [Hk _]%list_elem_of_filter Hs.
  destruct Hne. by eapply size_is_inj.
Qed.

Lemma files_to_check_elem d p :
  p ∈ files_to_check d → ∃ kl, kl ∈ d ∧ p ∈ kl.2 ∧ 1 < length kl.2.
Proof.
  unfold files_to_check, potential_dups.
  intros (fl & Hp & Hfl)%elem_of_concat.
  apply list_elem_of_filter in Hfl as [Hlen (kl & -> & Hkl)%list_elem_of_fmap].
  eauto.
Qed.

Lemma files_to_check_sublist d : files_to_check d `sublist_of` concat d.*2.
Proof.
  unfold files_to_check, potential_dups.
  induction d.*2 as [|fl fls IH]; [done|].
  destruct (decide (1 < length fl)).
  - rewrite filter_cons_True by done. simpl. by apply sublist_app.
  - rewrite filter_cons_False by done. simpl. by apply sublist_inserts_l.
Qed.

Lemma files_to_check_NoDup fs scan :
  NoDup scan → NoDup (files_to_check (scan_files fs scan).2).
Proof.
  intros Hnd. eapply sublist_NoDup; [|apply files_to_check_sublist].
  unfold scan_files. rewrite scan_fold_concat. simpl. by apply NoDup_filter.
Qed.

Lemma files_to_check_cons k fl (d : list (N * list path)) :
  files_to_check ((k, fl) :: d)
  = (if decide (1 < length fl) then fl else []) ++ files_to_check d.
Proof.
  unfold files_to_check, potential_dups. csimpl. case_decide.
  - by rewrite filter_cons_True.
  - by rewrite filter_cons_False.
Qed.

(** The files of one size among the files to hash are in traversal order. *)
Lemma files_to_check_of_absent_size fs scan s d :
  Forall (λ kl, kl.2 = filter (size_is fs kl.1) scan) d →
  s ∉ d.*1 →
  filter (size_is fs s) (files_to_check d) = [].
Proof.
  induction d as [|[k fl] d IH]; [done|]. csimpl.
  intros [Hfl Hd]%Forall_cons [Hne Hs]%not_elem_of_cons. simpl in Hfl.
  rewrite files_to_check_cons, filter_app, IH, app_nil_r by done.
  case_decide; [|done]. rewrite Hfl. by apply size_is_filter_other.
Qed.

Lemma files_to_check_of_size fs scan s d :
  buckets_of fs scan d →
  filter (size_is fs s) (files_to_check d) `sublist_of` scan.
Proof.
  intros (Hnd & Hd & _). revert Hnd Hd.
  induction d as [|[k fl] d IH]; [intros; apply sublist_nil_l|].
  csimpl. intros [Hk Hnd]%NoDup_cons [Hfl Hd]%Forall_cons. simpl in Hfl.
  rewrite files_to_check_cons, filter_app.
  destruct (decide (s = k)) as [->|Hne].
  - rewrite (files_to_check_of_absent_size fs scan k d Hd Hk), app_nil_r.
    etrans; [apply sublist_filter|]. case_decide; [|apply sublist_nil_l].
    rewrite Hfl. apply sublist_filter.
  - assert (filter (size_is fs s) (if decide (1 < length fl) then fl else []) = [])
      as ->; [|by apply IH].
    case_decide; [|done]. rewrite Hfl. by apply size_is_filter_other.
Qed.

(** [file_sizes] has a key for every file to hash, so that the lookups of
    [mk_entry] never fall back on the default. *)
Lemma file_sizes_defined fs scan p :
  p ∈ files_to_check (scan_files fs scan).2 →
  ∃ f, fs !! p = Some f ∧ (scan_files fs scan).1 !! p = Some (st_size f).
Proof.
  intros Hp. pose proof Hp as ([k fl] & Hkl & Hin & _)%files_to_check_elem.
  destruct (scan_files_buckets fs scan) as (_ & Hd & _).
  rewrite Forall_forall in Hd. specialize (Hd _ Hkl). simpl in *.
  rewrite Hd in Hin. apply list_elem_of_filter in Hin as [Hs Hscan].
  unfold size_is in Hs. destruct (fs !! p) as [f|] eqn:Hf; [|done].
  exists f. split; [done|]. apply scan_fold_sizes; [done|by left].
Qed.

Lemma files_to_check_scanned fs scan p :
  p ∈ files_to_check (scan_files fs scan).2 → p ∈ scan.
Proof.
  intros Hp. eapply elem_of_sublist in Hp; [|apply files_to_check_sublist].
  unfold scan_files in Hp. rewrite scan_fold_concat in Hp. simpl in Hp.
  by apply list_elem_of_filter in Hp as [_ ?].
Qed.

Lemma filter_sublist_mono {A} (P : A → Prop) `{∀ x, Decision (P x)}
    (xs ys : list A) :
  xs `sublist_of` ys → filter P xs `sublist_of` filter P ys.
Proof.
  induction 1 as [|x xs ys Hs IH|x xs ys Hs IH]; [done| |].
  - destruct (decide (P x)).
    + rewrite !filter_cons_True by done. by constructor.
    + by rewrite !filter_cons_False by done.
  - destruct (decide (P x)).
    + rewrite (filter_cons_True P x ys) by done. by constructor.
    + by rewrite (filter_cons_False P x ys) by done.
Qed.

(** *** The result of [find_duplicates] *)

(** The unique files are entries of scanned paths, every duplicate group comes
    from a list of files to hash, and the paths of both results are exactly
    the files that were given a digest. *)
Lemma find_duplicates_spec fs scan cache0 :
  let sizes := (scan_files fs scan).1 in
  let to_check := files_to_check (scan_files fs scan).2 in
  let r := (find_duplicates fs scan cache0).1 in
  Forall (λ g, ∃ fl, fl `sublist_of` to_check ∧ resolved_group fs sizes fl g) r.1 ∧
  reported_paths r ≡ₚ hashed_candidates fs (HState cache0 []) to_check.
Proof.
  intros sizes to_check r. subst r. unfold find_duplicates. simpl.
  fold sizes to_check.
  destruct (resolve_lists_spec fs sizes
              (hash_files fs (HState cache0 []) to_check).2.*2 ([], []))
    as (gs & us & -> & Hgs & Hp). simpl. split.
  - eapply Forall_impl; [done|]. intros g (fl & Hfl & Hg).
    exists fl. split; [|done]. by eapply hash_files_sublist.
  - unfold reported_paths. simpl. rewrite e_path_mk_entry, Hp.
    unfold hash_files. by rewrite hash_fold_concat.
Qed.

Lemma resolved_group_contents fs sizes fl g :
  resolved_group fs sizes fl g →
  ∃ d, ∀ e, e ∈ g → read_bytes fs (e_path e) = Some d.
Proof.
  intros (r & l & -> & Hne & _ & Hid). rewrite Forall_forall in Hid.
  destruct l as [|q l]; [done|].
  destruct (proj1 (files_are_identical_true fs r q)) as (d & Hr & Hq).
  { apply Hid. by left. }
  exists d. intros e (p0 & -> & Hp)%list_elem_of_fmap. simpl.
  apply elem_of_cons in Hp as [->|Hp]; [done|].
  destruct (proj1 (files_are_identical_true fs r p0) (Hid p0 Hp))
    as (d' & Hr' & Hp'). congruence.
Qed.

(** C1.  Any two files that [find_duplicates] puts into one duplicate group can
    both be read and have the same bytes, whatever the digest function and the
    contents of the cache. *)
Theorem duplicate_group_members_have_same_bytes fs scan cache0 g e1 e2 :
  g ∈ (find_duplicates fs scan cache0).1.1 → e1 ∈ g → e2 ∈ g →
  ∃ d, read_bytes fs (e_path e1) = Some d ∧ read_bytes fs (e_path e2) = Some d.
Proof.
  intros Hg H1 H2.
  destruct (find_duplicates_spec fs scan cache0) as [Hgs _].
  rewrite Forall_forall in Hgs. destruct (Hgs g Hg) as (fl & _ & Hres).
  destruct (resolved_group_contents _ _ _ _ Hres) as [d Hd]. eauto.
Qed.

(** C9.  When the traversal yields every path once, the paths of the duplicate
    groups and of the unique files are, up to their order, the files that were
    given a digest, and no path occurs twice among them. *)
Theorem resolver_partitions_hashed_files fs scan cache0 :
  NoDup scan →
  let r := (find_duplicates fs scan cache0).1 in
  let candidates :=
    hashed_candidates fs (HState cache0 []) (files_to_check (scan_files fs scan).2) in
  group_paths r.1 ++ (e_path <$> r.2) ≡ₚ candidates ∧
  NoDup (group_paths r.1 ++ (e_path <$> r.2)) ∧
  ∀ p, p ∈ candidates → p ∈ group_paths r.1 ++ (e_path <$> r.2).
Proof.
  intros Hnd r candidates.
  destruct (find_duplicates_spec fs scan cache0) as [_ Hp].
  fold r candidates in Hp. unfold reported_paths in Hp. split_and!.
  - done.
  - rewrite Hp. eapply sublist_NoDup; [|apply hashed_candidates_sublist].
    by apply files_to_check_NoDup.
  - intros p. by rewrite Hp.
Qed.

Lemma files_copied_reported (r : list (list entry) * list entry) p :
  p ∈ files_copied r → p ∈ reported_paths r.
Proof.
  unfold files_copied, reported_paths. rewrite !elem_of_app.
  intros [?|(e & -> & He)%list_elem_of_fmap]; [by right|]. left.
  apply list_elem_of_omap in He as (g & Hg & Hc).
  unfold group_paths. apply elem_of_concat. exists (e_path <$> g). split.
  - apply list_elem_of_fmap. exists e. split; [done|].
    destruct g; simplify_eq/=. by left.
  - apply list_elem_of_fmap. by exists g.
Qed.

(** C7, as the code has it.  When the traversal yields every path once, a file
    whose digest computation failed during the run is in no duplicate group,
    is not among the unique files and is not copied; nothing that
    [find_duplicates] returns names it. *)
Theorem unreadable_file_is_left_out fs scan cache0 p :
  NoDup scan →
  (p, None) ∈ computed (find_duplicates fs scan cache0).2 →
  let r := (find_duplicates fs scan cache0).1 in
  (p ∉ group_paths r.1) ∧ (p ∉ e_path <$> r.2) ∧ (p ∉ files_copied r).
Proof.
  intros Hnd Hfail r.
  destruct (find_duplicates_spec fs scan cache0) as [_ Hp]. fold r in Hp.
  assert (p ∉ reported_paths r) as Hout.
  { rewrite Hp. eapply failed_hash_not_candidate.
    - by apply files_to_check_NoDup.
    - apply Hfail.
    - simpl. apply not_elem_of_nil. }
  split_and!.
  - intros ?. apply Hout, elem_of_app. by left.
  - intros ?. apply Hout, elem_of_app. by right.
  - intros ?. by apply Hout, files_copied_reported.
Qed.

Lemma NoDup_other_member {A} `{EqDecision A} (xs : list A) x :
  NoDup xs → 1 < length xs → ∃ y, y ∈ xs ∧ y ≠ x.
Proof.
  destruct xs as [|a [|b xs]]; simpl; [lia..|]. intros Hnd _.
  apply NoDup_cons in Hnd as [Ha _]. apply not_elem_of_cons in Ha as [Hab _].
  destruct (decide (a = x)) as [->|?].
  - exists b. split; [by right; left|congruence].
  - exists a. split; [by left|done].
Qed.

Lemma size_unique_not_checked fs scan p f :
  NoDup scan → fs !! p = Some f →
  (∀ q, q ∈ scan → q ≠ p → ¬ size_is fs (st_size f) q) →
  p ∉ files_to_check (scan_files fs scan).2.
Proof.
  intros Hnd Hf Huniq ([k fl] & Hkl & Hp & Hlen)%files_to_check_elem.
  destruct (scan_files_buckets fs scan) as (_ & Hd & _).
  rewrite Forall_forall in Hd. specialize (Hd _ Hkl). simpl in *.
  destruct (NoDup_other_member fl p) as (q & Hq & Hne); [|done|].
  { rewrite Hd. by apply NoDup_filter. }
  rewrite Hd in Hp, Hq.
  apply list_elem_of_filter in Hp as [Hsp _].
  apply list_elem_of_filter in Hq as [Hsq Hqs].
  unfold size_is in Hsp. rewrite Hf in Hsp. simplify_eq/=.
  by eapply Huniq.
Qed.

(** C3, as the code has it.  A file whose size no other scanned file has is
    never hashed, and nothing that [find_duplicates] returns names it: it is
    in no duplicate group, it is not among the unique files, and it is not
    copied. *)
Theorem size_unique_file_is_left_out fs scan cache0 p f :
  NoDup scan → p ∈ scan → fs !! p = Some f →
  (∀ q, q ∈ scan → q ≠ p → ¬ size_is fs (st_size f) q) →
  let r := find_duplicates fs scan cache0 in
  (∀ h, (p, h) ∉ computed r.2) ∧
  (p ∉ group_paths r.1.1) ∧ (p ∉ e_path <$> r.1.2) ∧ (p ∉ files_copied r.1).
Proof.
  intros Hnd Hp Hf Huniq r.
  pose proof (size_unique_not_checked fs scan p f Hnd Hf Huniq) as Hout.
  destruct (find_duplicates_spec fs scan cache0) as [_ Hperm].
  assert (p ∉ reported_paths r.1) as Hrep.
  { subst r. rewrite Hperm. intros Hin. apply Hout.
    eapply elem_of_sublist; [done|apply hashed_candidates_sublist]. }
  split_and!.
  - intros h Hh. subst r. unfold find_duplicates, hash_files in Hh. simpl in Hh.
    destruct (hash_fold_computed fs (files_to_check (scan_files fs scan).2)
                (HState cache0 []) []) as (tr & Etr & Htr).
    rewrite Etr in Hh. simpl in Hh. rewrite Forall_forall in Htr.
    by apply Htr in Hh.
  - intros ?. apply Hrep, elem_of_app. by left.
  - intros ?. apply Hrep, elem_of_app. by right.
  - intros ?. by apply Hrep, files_copied_reported.
Qed.

(** *** The file kept from a duplicate group *)

Lemma scanned_before_asym (scan : list path) a b :
  NoDup scan → scanned_before scan a b → ¬ scanned_before scan b a.
Proof.
  unfold scanned_before. induction scan as [|x scan IH]; intros Hnd Hab Hba.
  { by apply sublist_nil_r in Hab. }
  apply NoDup_cons in Hnd as [Hx Hnd].
  apply sublist_cons_r in Hab as [Hab|(l1 & E1 & Hab)];
    apply sublist_cons_r in Hba as [Hba|(l2 & E2 & Hba)]; simplify_eq.
  - by apply IH.
  - apply Hx. eapply elem_of_sublist; [|exact Hab]. by right; left.
  - apply Hx. eapply elem_of_sublist; [|exact Hba]. by right; left.
  - apply Hx. eapply elem_of_sublist; [|exact Hba]. by left.
Qed.

(** C4, as the code has it.  In every duplicate group the file that is kept is
    the first entry; all members of the group have its size, so none is
    larger, and every other member was met before it in the traversal: among
    files of equal size the latest one is kept. *)
Theorem canonical_is_last_scanned fs scan cache0 g c :
  sizes_agree fs →
  g ∈ (find_duplicates fs scan cache0).1.1 → canonical g = Some c →
  ∃ rest, g = c :: rest ∧
    ∀ m, m ∈ rest →
      e_size m = e_size c ∧ scanned_before scan (e_path m) (e_path c).
Proof.
  intros Hagree Hg Hc.
  destruct (find_duplicates_spec fs scan cache0) as [Hgs _].
  rewrite Forall_forall in Hgs.
  destruct (Hgs g Hg) as (fl & Hfl & r & l & -> & Hne & Hsub & Hid).
  rewrite Forall_forall in Hid.
  unfold canonical in Hc. simpl in Hc. injection Hc as <-.
  exists (mk_entry (scan_files fs scan).1 <$> l). split; [done|].
  intros m (q & -> & Hq)%list_elem_of_fmap. simpl.
  destruct (proj1 (files_are_identical_true fs r q) (Hid q Hq)) as (d & Hr & Hd).
  unfold read_bytes in Hr, Hd.
  destruct (fs !! r) as [fr|] eqn:Hfr; [|done].
  destruct (fs !! q) as [fq|] eqn:Hfq; [|done]. simpl in Hr, Hd.
  pose proof (Hagree r fr Hfr) as Hsr.
  pose proof (Hagree q fq Hfq) as Hsq.
  unfold size_matches in Hsr, Hsq. rewrite Hr in Hsr. rewrite Hd in Hsq.
  assert ([q; r] `sublist_of` files_to_check (scan_files fs scan).2) as Hqr.
  { etrans; [|done]. etrans; [|done].
    apply list_elem_of_split in Hq as (l1 & l2 & ->).
    rewrite <-app_assoc. apply sublist_inserts_l. simpl.
    apply sublist_skip, sublist_inserts_l. done. }
  assert (q ∈ scan ∧ r ∈ scan) as [Hqs Hrs].
  { split; apply (files_to_check_scanned fs); (eapply elem_of_sublist; [|done]).
    - by left.
    - by right; left. }
  split.
  - rewrite (lookup_total_correct _ q (st_size fq)),
      (lookup_total_correct _ r (st_size fr)); [congruence|..];
      (apply scan_fold_sizes; [done|by left]).
  - unfold scanned_before.
    etrans; [|apply (files_to_check_of_size fs scan (st_size fr)),
               scan_files_buckets].
    apply (filter_sublist_mono (size_is fs (st_size fr))) in Hqr.
    rewrite filter_cons_True in Hqr by (unfold size_is; rewrite Hfq; simpl; congruence).
    rewrite filter_cons_True in Hqr by (unfold size_is; by rewrite Hfr).
    done.
Qed.

End Resolver.

(** *** Runs on the small tree *)

(** With an injective digest and with a digest that collides everywhere the
    result is the same: the three copies form one group, headed by the copy
    scanned last, and the fourth file of that size is unique.  The file of
    size 5 and the unreadable file are in neither list. *)
Example demo_run_plain :
  (find_duplicates plain_fs demo_scan ∅).1 = ([demo_group], [Entry "src/d.jpg" 3]).
Proof. vm_compute. reflexivity. Qed.

Example demo_run_colliding :
  (find_duplicates collide_fs demo_scan ∅).1 = ([demo_group], [Entry "src/d.jpg" 3]).
Proof. vm_compute. reflexivity. Qed.

Example demo_run_computed :
  computed (find_duplicates plain_fs demo_scan ∅).2
  = [("src/a.jpg", Some "#abc"); ("src/b.jpg", Some "#abc");
     ("src/c.jpg", Some "#abc"); ("src/d.jpg", Some "#xyz");
     ("src/u.bin", None)].
Proof. vm_compute. reflexivity. Qed.

Lemma duplicate_group_members_have_same_bytes_witness :
  ∃ d, read_bytes collide_fs "src/c.jpg" = Some d ∧
       read_bytes collide_fs "src/a.jpg" = Some d.
Proof.
  apply (duplicate_group_members_have_same_bytes collide_fs demo_scan ∅
           demo_group (Entry "src/c.jpg" 3) (Entry "src/a.jpg" 3));
    compute_done.
Defined.

Lemma resolver_partitions_hashed_files_witness :
  let r := (find_duplicates plain_fs demo_scan ∅).1 in
  let candidates :=
    hashed_candidates plain_fs (HState ∅ [])
      (files_to_check (scan_files plain_fs demo_scan).2) in
  group_paths r.1 ++ (e_path <$> r.2) ≡ₚ candidates ∧
  NoDup (group_paths r.1 ++ (e_path <$> r.2)) ∧
  ∀ p, p ∈ candidates → p ∈ group_paths r.1 ++ (e_path <$> r.2).
Proof.
  apply (resolver_partitions_hashed_files plain_fs demo_scan ∅). compute_done.
Defined.

(** C7 as the spec states it fails: the digest of [src/u.bin] could not be
    computed, and the run records the file nowhere in what it returns. *)
Lemma unreadable_file_is_not_recorded :
  ¬ ∀ p, (p, None) ∈ computed (find_duplicates plain_fs demo_scan ∅).2 →
         p ∈ reported_paths (find_duplicates plain_fs demo_scan ∅).1.
Proof.
  intros Hall.
  assert ("src/u.bin" ∉ reported_paths (find_duplicates plain_fs demo_scan ∅).1)
    as Hout by compute_done.
  apply Hout, Hall. compute_done.
Qed.

Lemma unreadable_file_is_left_out_witness :
  let r := (find_duplicates plain_fs demo_scan ∅).1 in
  ("src/u.bin" ∉ group_paths r.1) ∧ ("src/u.bin" ∉ e_path <$> r.2) ∧
  ("src/u.bin" ∉ files_copied r).
Proof.
  apply (unreadable_file_is_left_out plain_fs demo_scan ∅ "src/u.bin");
    compute_done.
Defined.

Lemma size_unique_file_is_left_out_witness :
  let r := find_duplicates plain_fs demo_scan ∅ in
  (∀ h, ("src/e.txt", h) ∉ computed r.2) ∧
  ("src/e.txt" ∉ group_paths r.1.1) ∧ ("src/e.txt" ∉ e_path <$> r.1.2) ∧
  ("src/e.txt" ∉ files_copied r.1).
Proof.
  apply (size_unique_file_is_left_out plain_fs demo_scan ∅ "src/e.txt"
           (plain_file 5 1700000000 (Some [x68; x65; x6c; x6c; x6f]))).
  - compute_done.
  - compute_done.
  - reflexivity.
  - apply (Forall_forall
             (λ q, q ≠ "src/e.txt" → ¬ size_is plain_fs 5 q) demo_scan).
    compute_done.
Defined.

(** The smallest tree on which C3 fails: a single file.  Nothing is returned
    and nothing is copied. *)
Example lone_file_is_dropped :
  let fs : gmap path (@file plain_platform) :=
    {[ "src/e.txt" := plain_file 5 1700000000 (Some [x68; x65; x6c; x6c; x6f]) ]} in
  (find_duplicates fs ["src/e.txt"] ∅).1 = ([], []) ∧
  files_copied (find_duplicates fs ["src/e.txt"] ∅).1 = [].
Proof. vm_compute. done. Qed.

(** C4 as the spec states it fails: the three copies have the same size, the
    copy scanned first is [src/a.jpg], and the copy that is kept is
    [src/c.jpg]. *)
Lemma canonical_is_not_first_scanned :
  ¬ ∀ g c m, g ∈ (find_duplicates plain_fs demo_scan ∅).1.1 →
      canonical g = Some c → m ∈ g → m ≠ c →
      (e_size m ≤ e_size c)%N ∧
      (e_size m = e_size c → scanned_before demo_scan (e_path c) (e_path m)).
Proof.
  intros Hall.
  destruct (Hall demo_group (Entry "src/c.jpg" 3) (Entry "src/a.jpg" 3))
    as [_ Hbefore]; [compute_done..|].
  apply (scanned_before_asym demo_scan "src/a.jpg" "src/c.jpg").
  - compute_done.
  - unfold scanned_before, demo_scan.
    apply sublist_skip, sublist_cons, sublist_skip, sublist_nil_l.
  - by apply Hbefore.
Qed.

Lemma canonical_is_last_scanned_witness :
  ∃ rest, demo_group = Entry "src/c.jpg" 3 :: rest ∧
    ∀ m, m ∈ rest →
      e_size m = e_size (Entry "src/c.jpg" 3) ∧
      scanned_before demo_scan (e_path m) (e_path (Entry "src/c.jpg" 3)).
Proof.
  apply (canonical_is_last_scanned plain_fs demo_scan ∅ demo_group
           (Entry "src/c.jpg" 3)); compute_done.
Defined.

(** ** The comparison of two trees *)

(** C2 fails on the code.  The inner loop of [find_unique_files] stops at the
    first file of B that matches a file of A, so only that file is marked as
    matched: the second copy in B, whose bytes are those of the picture in A,
    is returned as unique to B.  In the other direction the picture in A is
    found to be matched. *)
Theorem second_copy_in_b_is_reported_unique :
  read_bytes diff_fs "B/copy2.jpg" = read_bytes diff_fs "A/photo.jpg" ∧
  compare_files diff_fs "A/photo.jpg" "B/copy2.jpg" = true ∧
  "B/copy2.jpg" ∈ (find_unique_files diff_fs diff_walk_a diff_walk_b).2 ∧
  matched_files_b (diff_trees diff_fs diff_walk_a diff_walk_b) = {["B/copy1.jpg"]} ∧
  matched_files_a (diff_trees diff_fs diff_walk_a diff_walk_b) = {["A/photo.jpg"]} ∧
  (find_unique_files diff_fs diff_walk_a diff_walk_b).1 = ∅.
Proof. split_and!; compute_done. Qed.

(** ** The cache during a run and the report of [main] *)

Section RunAndReport.
Context `{Platform}.
Implicit Types (fs : filesystem) (sizes : gmap path N) (l : list path).

(** *** Sums *)

Lemma py_sum_from (xs : list Z) (a : Z) : foldl Z.add a xs = (a + py_sum xs)%Z.
Proof.
  unfold py_sum. revert a. induction xs as [|x xs IH]; intros a; simpl.
  - lia.
  - rewrite (IH (a + x)%Z), (IH (0 + x)%Z). lia.
Qed.

Lemma py_sum_cons x xs : py_sum (x :: xs) = (x + py_sum xs)%Z.
Proof. unfold py_sum at 1. simpl. rewrite py_sum_from. lia. Qed.

Lemma py_sum_app xs ys : py_sum (xs ++ ys) = (py_sum xs + py_sum ys)%Z.
Proof.
  induction xs as [|x xs IH]; simpl; [done|].
  rewrite !py_sum_cons, IH. lia.
Qed.

(** *** The entries of the result *)

(** The result of [find_duplicates] in full: the groups come from the lists
    of [hash_to_files], the unique files are entries of paths. *)
Lemma find_duplicates_entries fs scan cache0 :
  let sizes := (scan_files fs scan).1 in
  let to_check := files_to_check (scan_files fs scan).2 in
  let r := (find_duplicates fs scan cache0).1 in
  ∃ us, r.2 = (mk_entry sizes <$> us) ∧
    Forall (λ g, ∃ fl, fl `sublist_of` to_check ∧ resolved_group fs sizes fl g) r.1 ∧
    group_paths r.1 ++ us ≡ₚ hashed_candidates fs (HState cache0 []) to_check.
Proof.
  intros sizes to_check r. subst r. unfold find_duplicates. simpl.
  fold sizes to_check.
  destruct (resolve_lists_spec fs sizes
              (hash_files fs (HState cache0 []) to_check).2.*2 ([], []))
    as (gs & us & -> & Hgs & Hp). simpl. exists us. split_and!.
  - done.
  - eapply Forall_impl; [done|]. intros g (fl & Hfl & Hg).
    exists fl. split; [|done]. by eapply hash_files_sublist.
  - rewrite Hp. unfold hash_files. by rewrite hash_fold_concat.
Qed.

Lemma hashed_candidate_checked fs st l p :
  p ∈ hashed_candidates fs st l → p ∈ l.
Proof. intros Hp. eapply elem_of_sublist; [done|apply hashed_candidates_sublist]. Qed.

(** X1.  Every duplicate group that [find_duplicates] returns has at least two
    members, every entry it returns, in a group or among the unique files,
    names a scanned file that can be stat'ed, and the size of the entry is the
    stat size of that file. *)
Theorem reported_entries_are_scanned_files fs scan cache0 :
  let r := (find_duplicates fs scan cache0).1 in
  (∀ g, g ∈ r.1 → 2 ≤ length g) ∧
  ∀ e, e ∈ concat r.1 ++ r.2 →
    e_path e ∈ scan ∧ ∃ f, fs !! e_path e = Some f ∧ e_size e = st_size f.
Proof.
  intros r. destruct (find_duplicates_entries fs scan cache0)
    as (us & Hus & Hgs & Hperm). fold r in Hus, Hgs, Hperm.
  rewrite Forall_forall in Hgs.
  assert (∀ p, p ∈ files_to_check (scan_files fs scan).2 →
            let e := mk_entry (scan_files fs scan).1 p in
            e_path e ∈ scan ∧ ∃ f, fs !! e_path e = Some f ∧ e_size e = st_size f)
    as Hentry.
  { intros p Hp. simpl. split; [by eapply files_to_check_scanned|].
    destruct (file_sizes_defined fs scan p Hp) as (f & Hf & Hs).
    exists f. split; [done|]. by apply lookup_total_correct. }
  split.
  - intros g Hg. destruct (Hgs g Hg) as (fl & _ & q & l & -> & Hne & _).
    rewrite length_fmap. destruct l; simpl; [done|lia].
  - intros e [He|He]%elem_of_app.
    + apply elem_of_concat in He as (g & He & Hg).
      destruct (Hgs g Hg) as (fl & Hfl & q & l & -> & _ & Hsub & _).
      apply list_elem_of_fmap in He as (p & -> & Hp). apply Hentry.
      eapply elem_of_sublist; [|exact Hfl].
      eapply elem_of_sublist; [|exact Hsub].
      apply elem_of_cons in Hp as [->|Hp]; apply elem_of_app;
        [right; by left|by left].
    + rewrite Hus in He. apply list_elem_of_fmap in He as (p & -> & Hp).
      apply Hentry. eapply hashed_candidate_checked. rewrite <-Hperm.
      apply elem_of_app. by right.
Qed.

(** *** The summary *)

Lemma summarize_groups (gs : list (list entry)) :
  Forall (λ g, 2 ≤ length g) gs →
  ∃ firsts,
    mapM head gs = Some firsts ∧ omap canonical gs = firsts ∧
    length firsts = length gs ∧
    py_sum ((λ g, Z.of_nat (length g)) <$> gs)
      = (py_sum ((λ g, Z.of_nat (length g) - 1)%Z <$> gs) + Z.of_nat (length gs))%Z ∧
    (Z.of_nat (length gs) ≤ py_sum ((λ g, Z.of_nat (length g) - 1)%Z <$> gs))%Z ∧
    (py_sum (entry_size <$> firsts)
       + py_sum ((λ g, py_sum (entry_size <$> drop 1 g)) <$> gs))%Z
      = py_sum (entry_size <$> concat gs).
Proof.
  induction gs as [|g gs IH]; intros Hlen.
  { exists []. by split_and!. }
  apply Forall_cons in Hlen as [Hg Hlen].
  destruct (IH Hlen) as (firsts & Hm & Ho & Hl & Hs1 & Hs2 & Hs3).
  destruct g as [|e g]; [simpl in Hg; lia|].
  exists (e :: firsts). split_and!.
  - apply mapM_Some. constructor; [done|]. by apply mapM_Some.
  - csimpl. by rewrite Ho.
  - simpl. by rewrite Hl.
  - csimpl. rewrite !py_sum_cons, Hs1. lia.
  - csimpl. rewrite !py_sum_cons. simpl in Hg. lia.
  - csimpl. rewrite drop_0, !py_sum_cons, fmap_app, py_sum_app, <-Hs3. lia.
Qed.

(** X2.  On the result of [find_duplicates] the summary of [main] is defined
    (no group is empty), the number of files in groups is the number of
    redundant files plus the number of groups, every group has a redundant
    file, [total_files_to_copy] is the number of files that [main] copies, and
    the bytes to copy and the redundant bytes add up to the bytes of all
    reported entries. *)
Theorem summary_accounts_for_every_entry fs scan cache0 :
  let r := (find_duplicates fs scan cache0).1 in
  ∃ s, summarize r.1 r.2 = Some s ∧
    total_duplicate_groups s = Z.of_nat (length r.1) ∧
    total_duplicate_files s
      = (total_redundant_files s + total_duplicate_groups s)%Z ∧
    (total_duplicate_groups s ≤ total_redundant_files s)%Z ∧
    total_files_to_copy s = Z.of_nat (length (files_copied r)) ∧
    (total_size_to_copy_bytes s + total_redundant_size_bytes s)%Z
      = py_sum (entry_size <$> concat r.1 ++ r.2).
Proof.
  intros r. destruct (find_duplicates_entries fs scan cache0)
    as (us & _ & Hgs & _). fold r in Hgs.
  destruct (summarize_groups r.1) as (firsts & Hm & Ho & Hl & Hs1 & Hs2 & Hs3).
  { eapply Forall_impl; [done|]. intros g (fl & _ & q & l & -> & Hne & _).
    rewrite length_fmap. destruct l; simpl; [done|lia]. }
  unfold summarize. rewrite Hm. csimpl. eexists. split; [done|]. simpl.
  split_and!; try done.
  - unfold files_copied. rewrite length_app, !length_fmap, Ho, Hl. lia.
  - rewrite fmap_app, py_sum_app, <-Hs3. lia.
Qed.

(** *** The cache *)

Lemma get_file_hash_cache_mono fs p st :
  cache st ⊆ cache (get_file_hash fs p st).2.
Proof.
  unfold get_file_hash. destruct (fs !! p) as [f|]; [|done].
  destruct (cache_lookup _ _ _ _) eqn:Hc; [done|].
  destruct (compute_file_hash fs p) as [h|]; [|done].
  destruct (truthy (Some h)); [|done]. simpl.
  by apply insert_subseteq.
Qed.

(** What one call adds to the cache: nothing, or the digest of the file under
    the key of the file. *)
Lemma get_file_hash_cache_new fs p st k h :
  cache (get_file_hash fs p st).2 !! k = Some h →
  cache st !! k = Some h ∨
  ∃ f, fs !! p = Some f ∧ k = cache_key p (st_size f) (st_mtime f) ∧
       cache st !! k = None ∧ compute_file_hash fs p = Some h ∧ h ≠ "".
Proof.
  unfold get_file_hash. destruct (fs !! p) as [f|]; [|by left].
  destruct (cache_lookup _ _ _ _) eqn:Hc; [by left|].
  destruct (compute_file_hash fs p) as [h'|] eqn:Hh; [|by left].
  destruct (truthy (Some h')) eqn:Ht; [|by left]. simpl.
  unfold cache_store. intros Hk.
  apply lookup_insert_Some in Hk as [[<- <-]|[_ ?]]; [|by left].
  right. exists f. split_and!; try done.
  simpl in Ht. apply negb_true_iff, bool_decide_eq_false in Ht. done.
Qed.

Lemma hash_step_state fs acc p :
  (hash_step fs acc p).1 = (get_file_hash fs p acc.1).2.
Proof.
  by destruct (hash_step_cases fs acc p) as [[_ (h & ->)]|[_ ->]].
Qed.

Lemma hash_fold_cache_mono fs l : ∀ acc,
  cache acc.1 ⊆ cache (foldl (hash_step fs) acc l).1.
Proof.
  induction l as [|p l IH]; intros acc; simpl; [done|].
  etrans; [|apply IH]. rewrite hash_step_state.
  apply get_file_hash_cache_mono.
Qed.

Lemma hash_fold_cache_new fs l k h : ∀ acc,
  cache (foldl (hash_step fs) acc l).1 !! k = Some h →
  cache acc.1 !! k = Some h ∨
  ∃ p f, p ∈ l ∧ fs !! p = Some f ∧
         k = cache_key p (st_size f) (st_mtime f) ∧
         compute_file_hash fs p = Some h ∧ h ≠ "".
Proof.
  induction l as [|p l IH]; intros acc; simpl; [by left|].
  intros [Hk|(q & f & Hq & ? & ? & ? & ?)]%IH.
  - rewrite hash_step_state in Hk.
    apply get_file_hash_cache_new in Hk as [?|(f & ? & ? & _ & ? & ?)];
      [by left|]. right. exists p, f. split_and!; try done. by left.
  - right. exists q, f. split_and!; try done. by right.
Qed.

(** X3.  A run never removes or changes an entry of the cache it was given,
    and every entry it adds maps the key of a scanned file to the digest of
    the contents of that file. *)
Theorem cache_is_only_extended fs scan cache0 :
  let cache1 := cache (find_duplicates fs scan cache0).2 in
  cache0 ⊆ cache1 ∧
  ∀ k h, cache1 !! k = Some h → cache0 !! k = None →
    ∃ p f d, p ∈ scan ∧ fs !! p = Some f ∧
      k = cache_key p (st_size f) (st_mtime f) ∧
      contents f = Some d ∧ h = sha256_hex d.
Proof.
  intros cache1. subst cache1. unfold find_duplicates, hash_files. simpl. split.
  - apply (hash_fold_cache_mono fs _ (HState cache0 [], [])).
  - intros k h Hk Hnew.
    apply (hash_fold_cache_new fs _ k h (HState cache0 [], [])) in Hk
      as [Hk|(p & f & Hp & Hf & -> & Hh & _)]; simpl in *; [congruence|].
    unfold compute_file_hash, read_bytes in Hh. rewrite Hf in Hh. simpl in Hh.
    destruct (contents f) as [d|] eqn:Hd; [|done]. injection Hh as <-.
    exists p, f, d. split_and!; try done. by eapply files_to_check_scanned.
Qed.

(** *** Cache keys *)

Lemma string_app_assoc (a b c : string) : (a +:+ b) +:+ c = a +:+ (b +:+ c).
Proof.
  induction a as [|x a IH]; [done|].
  change (String x ((a +:+ b) +:+ c) = String x (a +:+ (b +:+ c))). by f_equal.
Qed.

Lemma colon_free_app_colon a b : ¬ colon_free (a +:+ ":" +:+ b).
Proof.
  induction a as [|x a IH].
  - change (¬ colon_free (String ":" b)). simpl. by intros [? _].
  - change (¬ colon_free (String x (a +:+ ":" +:+ b))). simpl. by intros [_ ?].
Qed.

(** A string is cut at its last colon in one way only. *)
Lemma colon_free_split_last a a' b b' :
  colon_free b → colon_free b' →
  a +:+ ":" +:+ b = a' +:+ ":" +:+ b' → a = a' ∧ b = b'.
Proof.
  intros Hb Hb'. revert a'.
  induction a as [|x a IH]; intros [|x' a'] E.
  - change (String ":" b = String ":" b') in E. by simplify_eq.
  - change (String ":" b = String x' (a' +:+ ":" +:+ b')) in E.
    injection E as _ E. rewrite E in Hb. by destruct (colon_free_app_colon a' b').
  - change (String x (a +:+ ":" +:+ b) = String ":" b') in E.
    injection E as _ E. rewrite <-E in Hb'. by destruct (colon_free_app_colon a b).
  - change (String x (a +:+ ":" +:+ b) = String x' (a' +:+ ":" +:+ b')) in E.
    injection E as -> E. by destruct (IH a' E) as [-> ->].
Qed.

Lemma cache_key_inj p p' size size' mt mt' :
  mtime_rendering_plain →
  cache_key p size mt = cache_key p' size' mt' →
  p = p' ∧ size = size' ∧ mt = mt'.
Proof.
  intros [Hfree Hinj] E.
  assert (∀ q s m, cache_key q s m
                   = (q +:+ ":" +:+ pretty s) +:+ ":" +:+ mtime_str m) as Hk.
  { intros. unfold cache_key. by rewrite !string_app_assoc. }
  rewrite !Hk in E.
  apply colon_free_split_last in E as [E Emt]; [|done..].
  apply colon_free_split_last in E as [-> Es]; [|apply pretty_N_colon_free..].
  split_and!; [done|by apply (inj pretty)|by apply Hinj].
Qed.

(** X4.  Two files that differ in path, size or modification time never share
    a cache key, colons in the path notwithstanding. *)
Theorem cache_keys_are_distinct p p' size size' mt mt' :
  mtime_rendering_plain →
  p ≠ p' ∨ size ≠ size' ∨ mt ≠ mt' →
  cache_key p size mt ≠ cache_key p' size' mt'.
Proof.
  intros Hplain Hne E. apply cache_key_inj in E as (-> & -> & ->); [|done].
  by destruct Hne as [?|[?|?]].
Qed.

(** *** A second run on the cache of the first *)

(** One step of the hashing loop on a cache [C] that holds what the step would
    store, and nothing for a file whose digest cannot be computed: the same
    file lands in [hash_to_files] under the same digest, the cache stays as
    it is, and a digest is computed only to fail again. *)
Lemma warm_step fs p acc acc2 (C : gmap string string) :
  cache (hash_step fs acc p).1 ⊆ C →
  (∀ f, fs !! p = Some f → falsy (compute_file_hash fs p) →
     cache acc.1 !! cache_key p (st_size f) (st_mtime f) = None →
     C !! cache_key p (st_size f) (st_mtime f) = None) →
  cache acc2.1 = C → acc2.2 = acc.2 →
  (hash_step fs acc2 p).2 = (hash_step fs acc p).2 ∧
  cache (hash_step fs acc2 p).1 = C ∧
  ∃ tr, computed (hash_step fs acc2 p).1 = computed acc2.1 ++ tr ∧
        Forall (λ e, falsy e.2) tr.
Proof.
  destruct acc as [st d], acc2 as [st2 d2]. simpl. intros Hsub Hmiss <- ->.
  unfold hash_step, get_file_hash, cache_lookup in *. simpl in *.
  destruct (fs !! p) as [f|] eqn:Hf; simpl in *.
  2:{ split_and!; try done. exists []. by rewrite app_nil_r. }
  specialize (Hmiss f eq_refl).
  destruct (cache st !! cache_key p (st_size f) (st_mtime f)) as [h|] eqn:Hc;
    simpl in *.
  { assert (cache st2 !! cache_key p (st_size f) (st_mtime f) = Some h) as ->.
    { eapply lookup_weaken; [done|].
      by destruct (negb (bool_decide (h = ""))). }
    simpl. destruct (negb (bool_decide (h = ""))); simpl; split_and!; try done;
      exists []; by rewrite app_nil_r. }
  destruct (compute_file_hash fs p) as [h|] eqn:Hh; simpl in *.
  - destruct (negb (bool_decide (h = ""))) eqn:Ht; simpl in *.
    + rewrite Ht in Hsub. simpl in Hsub.
      assert (cache st2 !! cache_key p (st_size f) (st_mtime f) = Some h) as ->.
      { eapply lookup_weaken; [|exact Hsub]. unfold cache_store.
        by rewrite lookup_insert_eq. }
      simpl. rewrite Ht. simpl. split_and!; try done.
      exists []. by rewrite app_nil_r.
    + rewrite (Hmiss Ht eq_refl). simpl. rewrite Ht. simpl.
      split_and!; try done. exists [(p, Some h)]. split; [done|].
      by apply Forall_singleton.
  - rewrite (Hmiss eq_refl eq_refl). simpl. split_and!; try done.
    exists [(p, None)]. split; [done|]. by apply Forall_singleton.
Qed.

Lemma warm_fold fs l : ∀ acc acc2 (C : gmap string string),
  cache (foldl (hash_step fs) acc l).1 ⊆ C →
  (∀ p f, p ∈ l → fs !! p = Some f → falsy (compute_file_hash fs p) →
     cache acc.1 !! cache_key p (st_size f) (st_mtime f) = None →
     C !! cache_key p (st_size f) (st_mtime f) = None) →
  cache acc2.1 = C → acc2.2 = acc.2 →
  (foldl (hash_step fs) acc2 l).2 = (foldl (hash_step fs) acc l).2 ∧
  cache (foldl (hash_step fs) acc2 l).1 = C ∧
  ∃ tr, computed (foldl (hash_step fs) acc2 l).1 = computed acc2.1 ++ tr ∧
        Forall (λ e, falsy e.2) tr.
Proof.
  induction l as [|p l IH]; intros acc acc2 C Hsub Hmiss Hc Hd; simpl in *.
  { split_and!; try done. exists []. by rewrite app_nil_r. }
  destruct (warm_step fs p acc acc2 C) as (Hd1 & Hc1 & tr1 & Htr1 & Hf1);
    try done.
  - etrans; [|done]. apply hash_fold_cache_mono.
  - intros f. apply Hmiss. by left.
  - destruct (IH (hash_step fs acc p) (hash_step fs acc2 p) C)
      as (Hd2 & Hc2 & tr2 & Htr2 & Hf2); try done.
    + intros q f Hq Hf Hfalsy Hnone. apply (Hmiss q f); try done; [by right|].
      eapply lookup_weaken_None; [done|]. rewrite hash_step_state.
      apply get_file_hash_cache_mono.
    + split_and!; try done. exists (tr1 ++ tr2). split.
      * by rewrite Htr2, Htr1, <-app_assoc.
      * by apply Forall_app.
Qed.

(** X5.  Running [find_duplicates] again on the cache that a first run left
    returns the same duplicate groups and unique files and leaves the cache
    as it is; the only digests computed in the second run are those that
    cannot be computed: every one of them fails or is empty again. *)
Theorem second_run_is_answered_by_the_cache fs scan cache0 :
  mtime_rendering_plain →
  let run1 := find_duplicates fs scan cache0 in
  let run2 := find_duplicates fs scan (cache run1.2) in
  run2.1 = run1.1 ∧ cache run2.2 = cache run1.2 ∧
  Forall (λ e, falsy e.2) (computed run2.2).
Proof.
  intros Hplain run1 run2. subst run1 run2.
  unfold find_duplicates, hash_files. simpl.
  set (l := files_to_check (scan_files fs scan).2).
  set (C := cache (foldl (hash_step fs) (HState cache0 [], []) l).1).
  destruct (warm_fold fs l (HState cache0 [], []) (HState C [], []) C)
    as (Hd & Hc & tr & Htr & Hfalsy); try done.
  - intros p f Hp Hf Hfail Hnone. simpl in Hnone.
    destruct (C !! cache_key p (st_size f) (st_mtime f)) as [h|] eqn:HC; [|done].
    apply (hash_fold_cache_new fs l _ h (HState cache0 [], [])) in HC
      as [HC|(q & fq & Hq & Hfq & Hk & Hh & Hne)]; [simpl in HC; congruence|].
    apply cache_key_inj in Hk as (-> & _ & _); [|done].
    unfold falsy in Hfail. rewrite Hh in Hfail. simpl in Hfail.
    by rewrite bool_decide_eq_false_2 in Hfail.
  - rewrite Hd. split_and!; [done|done|]. rewrite Htr. done.
Qed.

(** *** Files with the same bytes end in one group *)

Lemma alist_get_setdefault_eq {K} `{EqDecision K} (k : K) (v : path)
    (d : list (K * list path)) :
  alist_get k (setdefault_append k v d) = Some (default [] (alist_get k d) ++ [v]).
Proof.
  induction d as [|[k' fl] d IH]; simpl.
  - by rewrite decide_True.
  - destruct (decide (k = k')) as [->|Hne]; simpl.
    + by rewrite decide_True.
    + by rewrite decide_False.
Qed.

Lemma alist_get_setdefault_ne {K} `{EqDecision K} (k k' : K) (v : path)
    (d : list (K * list path)) :
  k' ≠ k → alist_get k' (setdefault_append k v d) = alist_get k' d.
Proof.
  intros Hne. induction d as [|[k0 fl] d IH]; simpl.
  - by rewrite decide_False.
  - destruct (decide (k = k0)) as [->|Hne0]; simpl.
    + by rewrite !decide_False.
    + destruct (decide (k' = k0)); [done|]. apply IH.
Qed.

Lemma alist_get_elem {K V} `{EqDecision K} (k : K) (d : list (K * V)) v :
  alist_get k d = Some v → v ∈ d.*2.
Proof.
  induction d as [|[k' v'] d IH]; simpl; [done|].
  destruct (decide (k = k')); [intros [= ->]; by left|].
  intros ?. right. by apply IH.
Qed.

Lemma setdefault_append_keeps {K} `{EqDecision K} (k k' : K) (v p : path)
    (d : list (K * list path)) fl :
  alist_get k' d = Some fl → p ∈ fl →
  ∃ fl', alist_get k' (setdefault_append k v d) = Some fl' ∧ p ∈ fl'.
Proof.
  intros Hget Hp. destruct (decide (k' = k)) as [->|Hne].
  - rewrite alist_get_setdefault_eq, Hget. simpl. eexists. split; [done|].
    apply elem_of_app. by left.
  - rewrite alist_get_setdefault_ne by done. eauto.
Qed.

Lemma hash_step_truthy fs acc p h :
  (get_file_hash fs p acc.1).1 = Some h → h ≠ "" →
  hash_step fs acc p
  = ((get_file_hash fs p acc.1).2, setdefault_append h p acc.2).
Proof.
  intros Hr Hne. unfold hash_step. rewrite Hr. simpl.
  by rewrite bool_decide_eq_false_2.
Qed.

Lemma hash_fold_keeps fs l h p : ∀ acc fl,
  alist_get h acc.2 = Some fl → p ∈ fl →
  ∃ fl', alist_get h (foldl (hash_step fs) acc l).2 = Some fl' ∧ p ∈ fl'.
Proof.
  induction l as [|q l IH]; intros acc fl Hget Hp; simpl; [eauto|].
  destruct (hash_step_cases fs acc q) as [[_ (h' & ->)]|[_ ->]].
  - destruct (setdefault_append_keeps h' h q p acc.2 fl Hget Hp)
      as (fl' & Hget' & Hp'). by eapply IH.
  - by eapply IH.
Qed.

(** With a sound cache a readable file is answered with its digest. *)
Lemma get_file_hash_sound fs p f d st :
  cache_sound fs (cache st) →
  fs !! p = Some f → contents f = Some d →
  (get_file_hash fs p st).1 = Some (sha256_hex d).
Proof.
  intros Hsound Hf Hd.
  assert (compute_file_hash fs p = Some (sha256_hex d)) as Hh.
  { unfold compute_file_hash, read_bytes. rewrite Hf. simpl. by rewrite Hd. }
  unfold get_file_hash. rewrite Hf.
  destruct (cache_lookup _ _ _ _) as [h|] eqn:Hc.
  - simpl. rewrite <-Hh. symmetry. by eapply Hsound.
  - rewrite Hh. by destruct (truthy _).
Qed.

Lemma get_file_hash_keeps_sound fs p st :
  mtime_rendering_plain →
  cache_sound fs (cache st) → cache_sound fs (cache (get_file_hash fs p st).2).
Proof.
  intros Hplain Hsound q fq h Hfq Hk.
  apply get_file_hash_cache_new in Hk as [Hk|(f & Hf & Hkey & _ & Hh & _)].
  - by eapply Hsound.
  - apply cache_key_inj in Hkey as (-> & _ & _); done.
Qed.

Lemma hash_fold_groups_by_digest fs l p f d : ∀ acc,
  mtime_rendering_plain → cache_sound fs (cache acc.1) →
  p ∈ l → fs !! p = Some f → contents f = Some d → sha256_hex d ≠ "" →
  ∃ fl, alist_get (sha256_hex d) (foldl (hash_step fs) acc l).2 = Some fl ∧
        p ∈ fl.
Proof.
  intros acc Hplain. revert acc.
  induction l as [|q l IH]; intros acc Hsound Hp Hf Hd Hne; simpl.
  { by apply elem_of_nil in Hp. }
  assert (cache_sound fs (cache (hash_step fs acc q).1)) as Hsound'.
  { rewrite hash_step_state. by apply get_file_hash_keeps_sound. }
  destruct (decide (p ∈ l)) as [Hl|Hl]; [by apply IH|].
  apply elem_of_cons in Hp as [->|?]; [|done].
  rewrite (hash_step_truthy fs acc q (sha256_hex d));
    [|by eapply get_file_hash_sound|done].
  eapply hash_fold_keeps; simpl.
  - apply alist_get_setdefault_eq.
  - apply elem_of_app. right. by left.
Qed.

(** The loop over one list puts two different files of the list that
    compare identical into one group. *)
Lemma resolve_complete fs sizes fl : ∀ out x y,
  x ∈ fl → y ∈ fl → x ≠ y → files_are_identical fs x y = true →
  ∃ g, g ∈ (resolve fs sizes fl out).1 ∧
       x ∈ (e_path <$> g) ∧ y ∈ (e_path <$> g).
Proof.
  remember (length fl) as k eqn:Hk. revert fl Hk.
  induction (lt_wf k) as [k _ IH]. intros fl -> out x y Hx Hy Hxy Hid.
  destruct fl as [|r l _] using rev_ind; [by apply elem_of_nil in Hx|].
  apply files_are_identical_true in Hid as (d & Hdx & Hdy).
  rewrite resolve_snoc, compare_all_spec. simpl.
  set (same := filter (λ q, files_are_identical fs r q = true) l).
  set (rest := filter (λ q, files_are_identical fs r q ≠ true) l).
  destruct (read_bytes fs r) as [dr|] eqn:Hdr.
  - destruct (decide (dr = d)) as [->|Hne].
    + assert (∀ z, z ∈ l ++ [r] → read_bytes fs z = Some d → z ∈ r :: same)
        as Hin.
      { intros z [Hz| ->%list_elem_of_singleton]%elem_of_app Hdz; [|by left].
        right. apply list_elem_of_filter. split; [|done].
        apply files_are_identical_true. eauto. }
      pose proof (Hin x Hx Hdx) as Hx'. pose proof (Hin y Hy Hdy) as Hy'.
      assert (1 < length (mk_entry sizes <$> r :: same)) as Hlen.
      { rewrite length_fmap. destruct same as [|s0 same0]; simpl; [|lia].
        apply list_elem_of_singleton in Hx', Hy'. congruence. }
      edestruct (resolve_spec fs sizes) as (gs & us & -> & _). simpl.
      exists (mk_entry sizes <$> r :: same). split_and!.
      * unfold classify. rewrite bool_decide_eq_true_2 by done. simpl.
        rewrite !elem_of_app, list_elem_of_singleton. tauto.
      * by rewrite e_path_mk_entry.
      * by rewrite e_path_mk_entry.
    + assert (∀ z, z ∈ l ++ [r] → read_bytes fs z = Some d → z ∈ rest) as Hin.
      { intros z [Hz| ->%list_elem_of_singleton]%elem_of_app Hdz; [|congruence].
        apply list_elem_of_filter. split; [|done].
        intros (d' & ? & ?)%files_are_identical_true. congruence. }
      apply (IH (length rest)); try done; [|by apply Hin..|].
      * rewrite length_app. simpl.
        pose proof (sublist_length _ _ (sublist_filter
          (λ q, files_are_identical fs r q ≠ true) l)) as Hshort.
        fold rest in Hshort. lia.
      * apply files_are_identical_true. eauto.
  - assert (∀ z, z ∈ l ++ [r] → read_bytes fs z = Some d → z ∈ rest) as Hin.
    { intros z [Hz| ->%list_elem_of_singleton]%elem_of_app Hdz; [|congruence].
      apply list_elem_of_filter. split; [|done].
      intros (d' & ? & ?)%files_are_identical_true. congruence. }
    apply (IH (length rest)); try done; [|by apply Hin..|].
    + rewrite length_app. simpl.
      pose proof (sublist_length _ _ (sublist_filter
        (λ q, files_are_identical fs r q ≠ true) l)) as Hshort.
      fold rest in Hshort. lia.
    + apply files_are_identical_true. eauto.
Qed.

Lemma resolve_lists_keep fs sizes lists : ∀ out g,
  g ∈ out.1 → g ∈ (foldl (resolve_list fs sizes) out lists).1.
Proof.
  intros out g Hg.
  destruct (resolve_lists_spec fs sizes lists out) as (gs & us & -> & _).
  simpl. apply elem_of_app. by left.
Qed.

Lemma resolve_lists_complete fs sizes lists : ∀ out fl x y,
  fl ∈ lists → x ∈ fl → y ∈ fl → x ≠ y →
  files_are_identical fs x y = true →
  ∃ g, g ∈ (foldl (resolve_list fs sizes) out lists).1 ∧
       x ∈ (e_path <$> g) ∧ y ∈ (e_path <$> g).
Proof.
  induction lists as [|fl0 lists IH]; intros out fl x y Hfl Hx Hy Hxy Hid.
  { by apply elem_of_nil in Hfl. }
  simpl. apply elem_of_cons in Hfl as [->|Hfl]; [|by eapply IH].
  destruct (resolve_complete fs sizes fl0 out x y) as (g & Hg & Hgx & Hgy);
    try done.
  exists g. split; [|done]. apply resolve_lists_keep.
  unfold resolve_list. rewrite bool_decide_eq_true_2; [done|].
  destruct fl0 as [|a [|b fl0]]; simpl; [by apply elem_of_nil in Hx| |lia].
  apply list_elem_of_singleton in Hx, Hy. congruence.
Qed.

(** A file of a size that another scanned file has is hashed. *)
Lemma shared_size_is_checked fs scan p q s :
  p ∈ scan → q ∈ scan → p ≠ q → size_is fs s p → size_is fs s q →
  p ∈ files_to_check (scan_files fs scan).2.
Proof.
  intros Hp Hq Hpq Hsp Hsq.
  destruct (scan_files_buckets fs scan) as (_ & Hd & Hkeys).
  apply (Hkeys p s Hp) in Hsp as Hs.
  apply list_elem_of_fmap in Hs as ([k fl] & -> & Hkl).
  rewrite Forall_forall in Hd. pose proof (Hd _ Hkl) as Hfl. simpl in *.
  unfold files_to_check, potential_dups. apply elem_of_concat.
  exists fl. split.
  - rewrite Hfl. by apply list_elem_of_filter.
  - apply list_elem_of_filter. split.
    + assert (p ∈ fl ∧ q ∈ fl) as [Hpf Hqf]
        by (rewrite Hfl; split; by apply list_elem_of_filter).
      destruct fl as [|a [|b fl]]; simpl; [by apply elem_of_nil in Hpf| |lia].
      apply list_elem_of_singleton in Hpf, Hqf. congruence.
    + apply list_elem_of_fmap. by exists (k, fl).
Qed.

(** Two files of one size with the same bytes are in one list of
    [hash_to_files]. *)
Lemma same_bytes_same_list fs scan cache0 p q fp fq d :
  mtime_rendering_plain → cache_sound fs cache0 →
  p ∈ scan → q ∈ scan → p ≠ q →
  fs !! p = Some fp → fs !! q = Some fq → st_size fp = st_size fq →
  contents fp = Some d → contents fq = Some d → sha256_hex d ≠ "" →
  ∃ fl, fl ∈ (hash_files fs (HState cache0 [])
                (files_to_check (scan_files fs scan).2)).2.*2 ∧
        p ∈ fl ∧ q ∈ fl.
Proof.
  intros Hplain Hsound Hp Hq Hpq Hfp Hfq Hsize Hdp Hdq Hne.
  assert (size_is fs (st_size fp) p) as Hsp by (unfold size_is; by rewrite Hfp).
  assert (size_is fs (st_size fp) q) as Hsq
    by (unfold size_is; rewrite Hfq; simpl; congruence).
  pose proof (shared_size_is_checked fs scan p q _ Hp Hq Hpq Hsp Hsq) as Hcp.
  pose proof (shared_size_is_checked fs scan q p _ Hq Hp (not_eq_sym Hpq) Hsq Hsp)
    as Hcq.
  unfold hash_files.
  set (l := files_to_check (scan_files fs scan).2) in *.
  destruct (hash_fold_groups_by_digest fs l p fp d (HState cache0 [], []))
    as (fl & Hget & Hpfl); try done.
  destruct (hash_fold_groups_by_digest fs l q fq d (HState cache0 [], []))
    as (fl' & Hget' & Hqfl); try done.
  rewrite Hget in Hget'. injection Hget' as <-.
  exists fl. split; [by eapply alist_get_elem|done].
Qed.

(** X6.  With a sound cache there are no missed duplicates: two different
    scanned files of the same stat size whose contents are the same bytes are
    put into one duplicate group. *)
Theorem files_with_same_bytes_share_a_group fs scan cache0 p q fp fq d :
  mtime_rendering_plain → cache_sound fs cache0 →
  p ∈ scan → q ∈ scan → p ≠ q →
  fs !! p = Some fp → fs !! q = Some fq → st_size fp = st_size fq →
  contents fp = Some d → contents fq = Some d → sha256_hex d ≠ "" →
  ∃ g, g ∈ (find_duplicates fs scan cache0).1.1 ∧
       p ∈ (e_path <$> g) ∧ q ∈ (e_path <$> g).
Proof.
  intros Hplain Hsound Hp Hq Hpq Hfp Hfq Hsize Hdp Hdq Hne.
  destruct (same_bytes_same_list fs scan cache0 p q fp fq d)
    as (fl & Hfl & Hpfl & Hqfl); try done.
  unfold find_duplicates. simpl.
  eapply resolve_lists_complete; try done.
  apply files_are_identical_true. exists d. unfold read_bytes.
  rewrite Hfp, Hfq. simpl. done.
Qed.

Lemma NoDup_concat_same {A} (ls : list (list A)) (xs ys : list A) x :
  NoDup (concat ls) → xs ∈ ls → ys ∈ ls → x ∈ xs → x ∈ ys → xs = ys.
Proof.
  induction ls as [|zs ls IH]; simpl; intros Hnd Hxs Hys Hx Hy.
  { by apply elem_of_nil in Hxs. }
  apply NoDup_app in Hnd as (_ & Hdisj & Hnd).
  apply elem_of_cons in Hxs as [->|Hxs]; apply elem_of_cons in Hys as [->|Hys].
  - done.
  - destruct (Hdisj x Hx). apply elem_of_concat. eauto.
  - destruct (Hdisj x Hy). apply elem_of_concat. eauto.
  - by apply IH.
Qed.

(** X7.  With a sound cache, stat sizes that agree with the contents and a
    traversal that yields every path once, [main] never copies two files with
    the same bytes. *)
Theorem copied_files_differ_in_bytes fs scan cache0 p q d :
  mtime_rendering_plain → digest_never_empty →
  cache_sound fs cache0 → sizes_agree fs → NoDup scan →
  p ∈ files_copied (find_duplicates fs scan cache0).1 →
  q ∈ files_copied (find_duplicates fs scan cache0).1 →
  p ≠ q →
  read_bytes fs p = Some d → read_bytes fs q ≠ Some d.
Proof.
  intros Hplain Hdigest Hsound Hagree Hnd Hcp Hcq Hpq Hdp Hdq.
  set (r := (find_duplicates fs scan cache0).1) in *.
  destruct (find_duplicates_spec fs scan cache0) as [_ Hperm]. fold r in Hperm.
  assert (NoDup (reported_paths r)) as Hnd'.
  { rewrite Hperm. eapply sublist_NoDup; [|apply hashed_candidates_sublist].
    by apply files_to_check_NoDup. }
  assert (∀ z, z ∈ reported_paths r → z ∈ scan) as Hscan.
  { intros z Hz. rewrite Hperm in Hz. apply hashed_candidate_checked in Hz.
    by eapply files_to_check_scanned. }
  pose proof (Hscan p (files_copied_reported r p Hcp)) as Hps.
  pose proof (Hscan q (files_copied_reported r q Hcq)) as Hqs.
  unfold read_bytes in Hdp, Hdq.
  destruct (fs !! p) as [fp|] eqn:Hfp; [|done].
  destruct (fs !! q) as [fq|] eqn:Hfq; [|done]. simpl in Hdp, Hdq.
  pose proof (Hagree p fp Hfp) as Hsp. pose proof (Hagree q fq Hfq) as Hsq.
  unfold size_matches in Hsp, Hsq. rewrite Hdp in Hsp. rewrite Hdq in Hsq.
  destruct (same_bytes_same_list fs scan cache0 p q fp fq d)
    as (fl & Hfl & Hpfl & Hqfl); try done; [congruence|].
  destruct (resolve_lists_complete fs (scan_files fs scan).1 _ ([], [])
              fl p q Hfl Hpfl Hqfl Hpq) as (g & Hg & Hpg & Hqg).
  { apply files_are_identical_true. exists d. unfold read_bytes.
    rewrite Hfp, Hfq. simpl. done. }
  change (g ∈ r.1) in Hg.
  unfold reported_paths in Hnd'. apply NoDup_app in Hnd' as (Hgroups & Hdisj & _).
  assert (e_path <$> g ∈ (λ group : list entry, e_path <$> group) <$> r.1) as Hg'
    by (apply list_elem_of_fmap; by exists g).
  assert (∀ z, z ∈ files_copied r → z ∈ (e_path <$> g) →
            head (e_path <$> g) = Some z) as Hhead.
  { intros z Hz Hzg. unfold files_copied in Hz.
    apply elem_of_app in Hz as [Hz|Hz].
    - destruct (Hdisj z); [|done]. apply elem_of_concat. eauto.
    - apply list_elem_of_fmap in Hz as (e & -> & He).
      apply list_elem_of_omap in He as (g' & Hg'' & Hc).
      assert (e_path e ∈ (e_path <$> g')) as Heg'.
      { apply list_elem_of_fmap. exists e. split; [done|].
        destruct g'; simplify_eq/=. by left. }
      rewrite <-(NoDup_concat_same
                   ((λ group : list entry, e_path <$> group) <$> r.1)
                   (e_path <$> g') (e_path <$> g) (e_path e));
        try done.
      + destruct g'; simplify_eq/=. done.
      + apply list_elem_of_fmap. by exists g'. }
  pose proof (Hhead p Hcp Hpg) as Hhp. pose proof (Hhead q Hcq Hqg) as Hhq.
  congruence.
Qed.

End RunAndReport.

(** *** The platform of the concrete runs meets the assumptions *)

Lemma pretty_Z_colon_free (z : Z) : colon_free (pretty z).
Proof.
  destruct z as [|x|x]; unfold pretty, pretty_Z.
  - by simpl.
  - apply (pretty_N_colon_free (Npos x)).
  - change (colon_free (String "-" (pretty (Npos x)))). simpl. split; [done|].
    apply (pretty_N_colon_free (Npos x)).
Qed.

Lemma render_seconds_colon_free (z : Z) : colon_free (render_seconds z).
Proof.
  unfold render_seconds. pose proof (pretty_Z_colon_free z) as Hz.
  induction (pretty z) as [|x s IH]; [by simpl|].
  change (colon_free (String x (s +:+ ".0"))). simpl in *.
  destruct Hz. split; [done|]. by apply IH.
Qed.

Lemma plain_rendering : @mtime_rendering_plain plain_platform.
Proof. split; [exact render_seconds_colon_free|exact render_seconds_inj]. Qed.

Lemma plain_digest_never_empty : @digest_never_empty plain_platform.
Proof. intros d. done. Qed.

Lemma empty_cache_sound (fs : gmap path (@file plain_platform)) :
  cache_sound fs ∅.
Proof. intros p f h _ Hk. by rewrite lookup_empty in Hk. Qed.

Lemma cache_keys_are_distinct_witness :
  cache_key (H:=plain_platform) "a:1" 2 3%Z
  ≠ cache_key (H:=plain_platform) "a" 1 23%Z.
Proof.
  apply (cache_keys_are_distinct (H:=plain_platform) "a:1" "a" 2 1 3%Z 23%Z).
  - exact plain_rendering.
  - compute_done.
Defined.

Lemma second_run_is_answered_by_the_cache_witness :
  let run1 := find_duplicates plain_fs demo_scan ∅ in
  let run2 := find_duplicates plain_fs demo_scan (cache run1.2) in
  run2.1 = run1.1 ∧ cache run2.2 = cache run1.2 ∧
  Forall (λ e, falsy e.2) (computed run2.2).
Proof.
  apply (second_run_is_answered_by_the_cache plain_fs demo_scan ∅).
  exact plain_rendering.
Defined.

(** The second run computes one digest, that of the unreadable file. *)
Example demo_second_run :
  computed (find_duplicates plain_fs demo_scan
              (cache (find_duplicates plain_fs demo_scan ∅).2)).2
  = [("src/u.bin", None)].
Proof. vm_compute. reflexivity. Qed.

Lemma files_with_same_bytes_share_a_group_witness :
  ∃ g, g ∈ (find_duplicates plain_fs demo_scan ∅).1.1 ∧
       "src/a.jpg" ∈ (e_path <$> g) ∧ "src/b.jpg" ∈ (e_path <$> g).
Proof.
  apply (files_with_same_bytes_share_a_group plain_fs demo_scan ∅
           "src/a.jpg" "src/b.jpg"
           (plain_file 3 1700000000 (Some [x61; x62; x63]))
           (plain_file 3 1700000000 (Some [x61; x62; x63]))
           [x61; x62; x63]);
    first [exact plain_rendering | apply empty_cache_sound | compute_done].
Defined.

Lemma copied_files_differ_in_bytes_witness :
  read_bytes plain_fs "src/d.jpg" ≠ Some [x61; x62; x63].
Proof.
  apply (copied_files_differ_in_bytes plain_fs demo_scan ∅
           "src/c.jpg" "src/d.jpg" [x61; x62; x63]);
    first [exact plain_rendering | exact plain_digest_never_empty
          | apply empty_cache_sound | compute_done].
Defined.

(** ** The sort and the scan of [group_similar_images] *)

Section SortAndScan.

(** *** The sort *)

Lemma insert_by_hash_perm x l : insert_by_hash x l ≡ₚ x :: l.
Proof.
  induction l as [|y l IH]; simpl; [done|].
  case_bool_decide; [done|]. by rewrite IH, Permutation_swap.
Qed.

Lemma insert_by_hash_sorted x l :
  StronglySorted by_hash l → StronglySorted by_hash (insert_by_hash x l).
Proof.
  induction l as [|y l IH]; simpl; intros Hs.
  - repeat constructor.
  - apply StronglySorted_cons in Hs as [Hy Hs]. case_bool_decide as Hlt.
    + apply StronglySorted_cons. split.
      * constructor; [unfold by_hash; lia|].
        eapply Forall_impl; [done|]. unfold by_hash. intros z ?. lia.
      * by apply StronglySorted_cons.
    + apply StronglySorted_cons. split; [|by apply IH].
      rewrite insert_by_hash_perm. constructor; [unfold by_hash; lia|done].
Qed.

(** An image is inserted behind the images of its own fingerprint. *)
Lemma insert_by_hash_stable x l (k : Z) :
  StronglySorted by_hash l →
  filter (λ y : hashed_image, y.1 = k) (insert_by_hash x l)
  = filter (λ y : hashed_image, y.1 = k) l ++ (if decide (x.1 = k) then [x] else []).
Proof.
  induction l as [|y l IH]; simpl; intros Hs.
  - case_decide.
    + by rewrite filter_cons_True.
    + by rewrite filter_cons_False.
  - apply StronglySorted_cons in Hs as [Hy Hs]. case_bool_decide as Hlt.
    + case_decide as Hk.
      * rewrite filter_cons_True by done.
        rewrite (filter_none (λ y0 : hashed_image, y0.1 = k) (y :: l)); [done|].
        intros z [->|Hz]%elem_of_cons; [lia|].
        rewrite Forall_forall in Hy. specialize (Hy z Hz).
        unfold by_hash in Hy. lia.
      * rewrite filter_cons_False by done. by rewrite app_nil_r.
    + destruct (decide (y.1 = k)).
      * rewrite !(filter_cons_True _ y) by done. by rewrite IH.
      * rewrite !(filter_cons_False _ y) by done. by rewrite IH.
Qed.

Lemma sort_by_hash_snoc l x :
  sort_by_hash (l ++ [x]) = insert_by_hash x (sort_by_hash l).
Proof. unfold sort_by_hash. by rewrite foldl_snoc. Qed.

Lemma sort_by_hash_sorted l : StronglySorted by_hash (sort_by_hash l).
Proof.
  induction l as [|x l IH] using rev_ind; [constructor|].
  rewrite sort_by_hash_snoc. by apply insert_by_hash_sorted.
Qed.

Lemma sort_by_hash_perm l : sort_by_hash l ≡ₚ l.
Proof.
  induction l as [|x l IH] using rev_ind; [done|].
  by rewrite sort_by_hash_snoc, insert_by_hash_perm, IH, Permutation_cons_append.
Qed.

(** X8.  The sort of [group_similar_images] puts the images in ascending
    order of their fingerprints, keeps every image, and keeps the images of
    one fingerprint in their input order. *)
Theorem sort_by_hash_is_a_stable_sort l :
  StronglySorted by_hash (sort_by_hash l) ∧
  sort_by_hash l ≡ₚ l ∧
  ∀ k : Z, filter (λ y : hashed_image, y.1 = k) (sort_by_hash l)
           = filter (λ y : hashed_image, y.1 = k) l.
Proof.
  split_and!; [apply sort_by_hash_sorted|apply sort_by_hash_perm|].
  intros k. induction l as [|x l IH] using rev_ind; [done|].
  rewrite sort_by_hash_snoc, insert_by_hash_stable by apply sort_by_hash_sorted.
  rewrite IH, filter_app. by f_equal.
Qed.

(** *** The scan *)

Lemma separated_snoc t gs g :
  separated t (gs ++ [g]) ↔
  separated t gs ∧ ∀ g0, last gs = Some g0 → apart t g0 g.
Proof.
  induction gs as [|g1 gs IH]; simpl.
  - split; [|done]. intros _. split; [done|]. by intros ? [=].
  - destruct gs as [|g2 gs]; simpl in *.
    + split.
      * intros [Ha _]. split; [done|]. by intros ? [= <-].
      * intros [_ Ha]. split; [|done]. by apply Ha.
    + rewrite IH. tauto.
Qed.

(** The state of the scan after the images [done]: the finished groups
    followed by the current group are the images read so far, cut where two
    neighbours are too far apart. *)
Lemma scan_groups_runs t sorted :
  let acc := scan_groups t sorted in
  (acc.2 = [] → acc.1 = []) ∧
  concat acc.1 ++ acc.2 = sorted ∧
  Forall (λ g, g ≠ []) acc.1 ∧
  separated t (acc.1 ++ [acc.2]).
Proof.
  unfold scan_groups. induction sorted as [|x sorted IH] using rev_ind.
  { simpl. by split_and!. }
  rewrite foldl_snoc. destruct IH as (Hnil & Hcat & Hne & Hsep).
  destruct (foldl _ _ sorted) as [groups current]; simpl in *.
  unfold group_step; simpl. destruct (last current) as [prev|] eqn:Hlast.
  - assert (current ≠ []) as Hcur by (by intros ->).
    case_bool_decide as Hw; simpl.
    + split_and!; try done.
      * by destruct current.
      * by rewrite app_assoc, Hcat.
      * apply separated_snoc in Hsep as [Hs Ha]. apply separated_snoc.
        split; [done|]. intros g0 Hg0 a b Hla Hhb. apply (Ha g0 Hg0 a b Hla).
        by destruct current.
    + split_and!; try done.
      * rewrite concat_app. simpl. by rewrite app_nil_r, Hcat.
      * apply Forall_app. split; [done|]. by apply Forall_singleton.
      * apply separated_snoc. split; [done|]. rewrite last_snoc.
        intros g0 [= <-] a b Hla [= <-]. rewrite Hlast in Hla.
        by injection Hla as <-.
  - apply last_None in Hlast as ->. rewrite (Hnil eq_refl) in *. simpl.
    split_and!; try done. by rewrite <-Hcat.
Qed.

(** X9.  The groups of [group_similar_images], one after the other, are the
    images in sorted order, so that every image is in exactly one group; no
    group is empty; inside a group neighbours are within the threshold, and
    between the last image of a group and the first image of the next group
    the distance exceeds the threshold. *)
Theorem groups_are_the_runs_of_the_sorted_list hashes t :
  let gs := group_similar_images hashes t in
  concat gs = sort_by_hash hashes ∧ concat gs ≡ₚ hashes ∧
  Forall (λ g, g ≠ [] ∧ chained t g) gs ∧ separated t gs.
Proof.
  intros gs.
  assert (concat gs = sort_by_hash hashes ∧ separated t gs) as [Hcat Hsep].
  { subst gs. unfold group_similar_images.
    destruct (scan_groups_runs t (sort_by_hash hashes)) as (Hnil & Hcat & _ & Hsep).
    destruct (scan_groups t (sort_by_hash hashes)) as [groups current].
    simpl in *. destruct current as [|y current].
    - rewrite (Hnil eq_refl) in *. by rewrite <-Hcat.
    - split; [|done]. rewrite concat_app. simpl. by rewrite app_nil_r. }
  split_and!; try done.
  - rewrite Hcat. apply sort_by_hash_perm.
  - apply Forall_forall. intros g Hg.
    apply group_similar_images_chained in Hg. tauto.
Qed.

Lemma chained_negative t g : (t < 0)%Z → chained t g → length g ≤ 1.
Proof.
  intros Ht. destruct g as [|x [|y g]]; simpl; [lia..|].
  unfold within. lia.
Qed.

(** X10.  With a negative threshold no two images are ever within the
    threshold: every group holds a single image. *)
Theorem negative_threshold_groups_nothing hashes t g :
  (t < 0)%Z → g ∈ group_similar_images hashes t → length g = 1.
Proof.
  intros Ht [Hc Hne]%group_similar_images_chained.
  apply (chained_negative t g Ht) in Hc. destruct g; simpl in *; [done|lia].
Qed.

(** *** Images with one fingerprint *)

Lemma within_same t (a : Z) : (0 ≤ t)%Z → within t a a.
Proof.
  intros Ht. unfold within, hamming_distance. by rewrite Z.lxor_nilpotent.
Qed.

Lemma chained_same_hash t (prev : hashed_image) seg :
  (0 ≤ t)%Z → Forall (λ x : hashed_image, x.1 = prev.1) seg →
  chained t (prev :: seg).
Proof.
  intros Ht. revert prev.
  induction seg as [|x seg IH]; intros prev Hseg; [done|].
  apply Forall_cons in Hseg as [Hx Hseg]. apply chained_cons. split.
  - apply IH. eapply Forall_impl; [done|]. simpl. congruence.
  - intros y [= <-]. rewrite Hx. by apply within_same.
Qed.

(** A stretch of images each within the threshold of the one before joins
    the current group. *)
Lemma scan_run t seg : ∀ acc prev,
  last acc.2 = Some prev → chained t (prev :: seg) →
  foldl (group_step t) acc seg = (acc.1, acc.2 ++ seg).
Proof.
  induction seg as [|x seg IH]; intros [groups current] prev Hlast Hc; simpl in *.
  { by rewrite app_nil_r. }
  destruct Hc as [Hw Hc]. unfold group_step at 2. simpl. rewrite Hlast.
  rewrite bool_decide_eq_true_2 by (by apply within_sym).
  rewrite (IH (groups, current ++ [x]) x); simpl.
  - by rewrite <-app_assoc.
  - by rewrite last_snoc.
  - done.
Qed.

Lemma group_step_last t acc x : last (group_step t acc x).2 = Some x.
Proof.
  unfold group_step. destruct (last acc.2); [case_bool_decide|]; simpl;
    by rewrite ?last_snoc.
Qed.

Lemma group_step_keeps t acc x g :
  g ∈ acc.1 → g ∈ (group_step t acc x).1.
Proof.
  intros Hg. unfold group_step. destruct (last acc.2); [case_bool_decide|];
    simpl; try done. apply elem_of_app. by left.
Qed.

Lemma scan_keeps t l : ∀ acc g,
  g ∈ acc.1 → g ∈ (foldl (group_step t) acc l).1.
Proof.
  induction l as [|x l IH]; intros acc g Hg; simpl; [done|].
  by apply IH, group_step_keeps.
Qed.

(** The images of the current group stay together to the end of the scan. *)
Lemma scan_current_kept t l : ∀ acc,
  acc.2 ≠ [] →
  ∃ g, (g ∈ (foldl (group_step t) acc l).1 ∨
        g = (foldl (group_step t) acc l).2) ∧
       g ≠ [] ∧ ∀ x, x ∈ acc.2 → x ∈ g.
Proof.
  induction l as [|x l IH]; intros [groups current] Hne; simpl in *.
  { exists current. by split_and!; [right|..]. }
  unfold group_step at 2 4. simpl.
  destruct (last current) as [prev|] eqn:Hlast.
  - case_bool_decide.
    + destruct (IH (groups, current ++ [x])) as (g & Hg & Hgne & Hsub).
      { simpl. by destruct current. }
      exists g. split_and!; try done. intros y Hy. apply Hsub. simpl.
      apply elem_of_app. by left.
    + exists current. split_and!; try done. left.
      apply scan_keeps. simpl. apply elem_of_app. right. by left.
  - by apply last_None in Hlast.
Qed.

Lemma same_hash_one_group t l1 u m v l3 :
  (0 ≤ t)%Z →
  StronglySorted by_hash (l1 ++ u :: m ++ v :: l3) → u.1 = v.1 →
  let acc := scan_groups t (l1 ++ u :: m ++ v :: l3) in
  ∃ g, (g ∈ acc.1 ∨ g = acc.2) ∧ g ≠ [] ∧ u ∈ g ∧ v ∈ g.
Proof.
  intros Ht Hs Huv. simpl. unfold scan_groups.
  rewrite foldl_app. simpl.
  change (m ++ v :: l3) with (m ++ [v] ++ l3).
  rewrite app_assoc, foldl_app.
  set (acc0 := foldl (group_step t) ([], []) l1).
  pose proof (group_step_last t acc0 u) as Hlast.
  assert (Forall (λ x : hashed_image, x.1 = u.1) (m ++ [v])) as Hsame.
  { apply StronglySorted_app_1_r, StronglySorted_cons in Hs as [Hu Hs].
    apply Forall_app. split; [|by apply Forall_singleton].
    apply Forall_forall. intros x Hx.
    rewrite Forall_forall in Hu.
    assert (by_hash u x) as Hux by (apply Hu, elem_of_app; by left).
    assert (by_hash x v) as Hxv.
    { eapply (StronglySorted_app_1_elem_of _ m (v :: l3)); [done|done|by left]. }
    unfold by_hash in *. lia. }
  rewrite (scan_run t (m ++ [v]) (group_step t acc0 u) u Hlast
             (chained_same_hash t u _ Ht Hsame)).
  destruct (scan_current_kept t l3
              ((group_step t acc0 u).1, (group_step t acc0 u).2 ++ m ++ [v]))
    as (g & Hg & Hgne & Hsub).
  { simpl. destruct (group_step t acc0 u).2; [done|done]. }
  exists g. split_and!; try done.
  - apply Hsub. simpl. apply elem_of_app. left.
    apply last_Some in Hlast as [l' ->]. apply elem_of_app. right. by left.
  - apply Hsub. simpl. rewrite !elem_of_app, list_elem_of_singleton. tauto.
Qed.

(** X11.  With a threshold that is not negative, two images with the same
    fingerprint are always in one group. *)
Theorem same_fingerprint_same_group hashes t (a b : hashed_image) :
  (0 ≤ t)%Z → a ∈ hashes → b ∈ hashes → a.1 = b.1 →
  ∃ g, g ∈ group_similar_images hashes t ∧ a ∈ g ∧ b ∈ g.
Proof.
  intros Ht Ha Hb Hab.
  assert (∀ g, (g ∈ (scan_groups t (sort_by_hash hashes)).1 ∨
                g = (scan_groups t (sort_by_hash hashes)).2) → g ≠ [] →
               g ∈ group_similar_images hashes t) as Hin.
  { intros g Hg Hne. unfold group_similar_images.
    destruct (scan_groups t (sort_by_hash hashes)).2 as [|y c].
    - by destruct Hg.
    - apply elem_of_app. destruct Hg as [?| ->]; [by left|right; by left]. }
  pose proof (sort_by_hash_sorted hashes) as Hs.
  rewrite <-(sort_by_hash_perm hashes) in Ha, Hb.
  apply list_elem_of_split in Ha as (l1 & l2 & Hl). rewrite Hl in Hb.
  apply elem_of_app in Hb as [Hb|[->|Hb]%elem_of_cons].
  - apply list_elem_of_split in Hb as (m1 & m2 & ->).
    rewrite <-app_assoc in Hl. simpl in Hl. rewrite Hl in Hs.
    destruct (same_hash_one_group t m1 b m2 a l2 Ht Hs (eq_sym Hab))
      as (g & Hg & Hne & ? & ?). rewrite <-Hl in Hg. eauto.
  - pose proof (scan_groups_runs t (sort_by_hash hashes)) as (_ & Hcat & _).
    assert (a ∈ concat (scan_groups t (sort_by_hash hashes)).1
                ++ (scan_groups t (sort_by_hash hashes)).2) as Hmem.
    { rewrite Hcat, Hl. apply elem_of_app. right. by left. }
    apply elem_of_app in Hmem as [(g & Hag & Hg)%elem_of_concat|Hmem].
    + exists g. split_and!; try done. apply Hin; [by left|].
      intros ->. by apply elem_of_nil in Hag.
    + eexists. split_and!; [apply Hin; [by right|]|done..].
      intros E. rewrite E in Hmem. by apply elem_of_nil in Hmem.
  - apply list_elem_of_split in Hb as (m1 & m2 & ->). rewrite Hl in Hs.
    destruct (same_hash_one_group t l1 a m1 b m2 Ht Hs Hab)
      as (g & Hg & Hne & ? & ?). rewrite <-Hl in Hg. eauto.
Qed.

End SortAndScan.

(** ** Which of several largest files is kept *)

Section FirstLargest.
Context `{Platform}.

(** The fold of [max] stops at the first element whose key is maximal. *)
Lemma max_fold_first {A} (rest : list (A * N)) : ∀ x : A * N,
  let best := foldl (λ best y : A * N,
                       if bool_decide (best.2 < y.2)%N then y else best) x rest in
  ∃ l1 l2, x :: rest = l1 ++ best :: l2 ∧
    Forall (λ y, (y.2 < best.2)%N) l1 ∧ Forall (λ y, (y.2 ≤ best.2)%N) l2.
Proof.
  induction rest as [|z rest IH]; intros x; simpl.
  { exists [], []. by split_and!. }
  case_bool_decide as Hlt.
  - destruct (IH z) as (l1 & l2 & E & H1 & H2). simpl in E.
    exists (x :: l1), l2. rewrite E. split_and!; try done.
    constructor; [|done].
    assert (z ∈ l1 ++ foldl (λ best y : A * N,
                       if bool_decide (best.2 < y.2)%N then y else best) z rest
                       :: l2) as Hz by (rewrite <-E; by left).
    rewrite Forall_forall in H1, H2.
    apply elem_of_app in Hz as [Hz|[Hz|Hz]%elem_of_cons].
    + specialize (H1 z Hz). lia.
    + rewrite <-Hz. done.
    + specialize (H2 z Hz). lia.
  - destruct (IH x) as (l1 & l2 & E & H1 & H2). simpl in E.
    destruct l1 as [|x' l1]; simpl in E; injection E as E1 E2.
    + exists [], (z :: l2). split_and!; [|done|].
      * simpl. by rewrite <-E1, E2.
      * constructor; [|done]. rewrite <-E1. lia.
    + subst x'. exists (x :: z :: l1), l2. split_and!; [|  |done].
      * simpl. do 2 f_equal. exact E2.
      * apply Forall_cons in H1 as [Hx H1]. repeat constructor; try done. lia.
Qed.

Lemma keyed_files (fs : filesystem) (files : list path) (keyed : list (path * N)) :
  mapM (λ p, f ← fs !! p; Some (p, st_size f)) files = Some keyed →
  keyed.*1 = files ∧
  Forall (λ pk, ∃ f, fs !! pk.1 = Some f ∧ pk.2 = st_size f) keyed.
Proof.
  intros Hk. apply mapM_Some in Hk.
  induction Hk as [|p pk files keyed Hp Hk [IH1 IH2]]; [done|].
  destruct (fs !! p) as [f|] eqn:Hf; [|done]. simpl in Hp. injection Hp as <-.
  csimpl. split; [by rewrite IH1|]. constructor; [|done]. simpl. eauto.
Qed.

(** X12.  The file that [copy_files] keeps from a group is the first file of
    the group, in the order of the group, whose size is maximal: the files
    before it are strictly smaller, the files after it are not larger.  The
    entry written for the group names that file as the largest and lists
    every other path of the group, never the kept one. *)
Theorem first_largest_file_is_kept (fs : filesystem) g c entry :
  copy_group fs g = Some (c, entry) →
  ∃ l1 l2 fc, g.*2 = l1 ++ c :: l2 ∧ fs !! c = Some fc ∧
    (∀ m, m ∈ l1 → ∃ fm, fs !! m = Some fm ∧ (st_size fm < st_size fc)%N) ∧
    (∀ m, m ∈ l2 → ∃ fm, fs !! m = Some fm ∧ (st_size fm ≤ st_size fc)%N) ∧
    ∀ largest similar, entry = Some (largest, similar) →
      largest = c ∧ (c ∉ similar) ∧ ∀ m, m ∈ g.*2 → m = c ∨ m ∈ similar.
Proof.
  unfold copy_group, largest_file. intros Hcopy.
  destruct (mapM _ g.*2) as [keyed|] eqn:Hk; [|done]. simpl in Hcopy.
  destruct (keyed_files fs _ _ Hk) as [Hfiles Hsizes].
  rewrite Forall_forall in Hsizes.
  destruct keyed as [|x rest]; [done|]. simpl in Hcopy.
  destruct (max_fold_first rest x) as (l1 & l2 & E & H1 & H2).
  set (best := foldl _ x rest) in *. injection Hcopy as <- <-.
  destruct (Hsizes best) as (fc & Hfc & Hsc).
  { rewrite E. apply elem_of_app. right. by left. }
  exists l1.*1, l2.*1, fc. rewrite <-Hfiles, E, fmap_app. csimpl.
  rewrite Forall_forall in H1, H2. split_and!; try done.
  - intros m (pk & -> & Hpk)%list_elem_of_fmap.
    destruct (Hsizes pk) as (fm & Hfm & Hsm).
    { rewrite E. apply elem_of_app. by left. }
    exists fm. split; [done|]. specialize (H1 pk Hpk). lia.
  - intros m (pk & -> & Hpk)%list_elem_of_fmap.
    destruct (Hsizes pk) as (fm & Hfm & Hsm).
    { rewrite E. apply elem_of_app. right. by right. }
    exists fm. split; [done|]. specialize (H2 pk Hpk). lia.
  - intros largest similar Hentry.
    destruct (filter _ _) as [|s0 sim] eqn:Hsim; [done|].
    injection Hentry as <- <-. rewrite <-Hsim. split_and!; [done| |].
    + rewrite list_elem_of_filter. tauto.
    + intros m Hm. destruct (decide (m = best.1)); [by left|right].
      apply list_elem_of_filter. split; [done|]. exact Hm.
Qed.

End FirstLargest.

Lemma first_largest_file_is_kept_witness :
  ∃ l1 l2 fc, demo_chain.*2 = l1 ++ "img/b.png" :: l2 ∧
    demo_image_fs !! "img/b.png" = Some fc ∧
    (∀ m, m ∈ l1 →
       ∃ fm, demo_image_fs !! m = Some fm ∧ (st_size fm < st_size fc)%N) ∧
    (∀ m, m ∈ l2 →
       ∃ fm, demo_image_fs !! m = Some fm ∧ (st_size fm ≤ st_size fc)%N) ∧
    ∀ largest similar,
      Some ("img/b.png", ["img/a.png"; "img/c.png"]) = Some (largest, similar) →
      largest = "img/b.png" ∧ ("img/b.png" ∉ similar) ∧
      ∀ m, m ∈ demo_chain.*2 → m = "img/b.png" ∨ m ∈ similar.
Proof.
  apply (first_largest_file_is_kept demo_image_fs demo_chain "img/b.png"
           (Some ("img/b.png", ["img/a.png"; "img/c.png"]))).
  reflexivity.
Defined.

Lemma negative_threshold_groups_nothing_witness :
  length [(0%Z, "img/a.png")] = 1.
Proof.
  apply (negative_threshold_groups_nothing demo_hashes (-1) [(0%Z, "img/a.png")]);
    compute_done.
Defined.

Lemma same_fingerprint_same_group_witness :
  ∃ g, g ∈ group_similar_images
             [(7%Z, "img/p.png"); (2%Z, "img/q.png"); (7%Z, "img/r.png")] 0 ∧
       (7%Z, "img/p.png") ∈ g ∧ (7%Z, "img/r.png") ∈ g.
Proof.
  apply (same_fingerprint_same_group
           [(7%Z, "img/p.png"); (2%Z, "img/q.png"); (7%Z, "img/r.png")] 0
           (7%Z, "img/p.png") (7%Z, "img/r.png")); compute_done.
Defined.

(** ** Reading in blocks and [compare_files] *)

Section Blocks.
Context `{Platform}.

Lemma blocks_step n r :
  blocks n r = if bool_decide (take n r = []) then []
               else take n r :: blocks n (drop n r).
Proof.
  rewrite blocks_equation_1 at 1. by destruct (take n r).
Qed.

Lemma take_nil_iff {A} n (r : list A) : 0 < n → take n r = [] ↔ r = [].
Proof.
  intros Hn. split; [|by intros ->; rewrite take_nil].
  destruct r, n; simpl; done || lia.
Qed.

Lemma blocks_nil n : blocks n [] = [].
Proof. by rewrite blocks_step, take_nil. Qed.

Lemma blocks_cons n r :
  0 < n → r ≠ [] → blocks n r = take n r :: blocks n (drop n r).
Proof.
  intros Hn Hr. rewrite blocks_step at 1.
  rewrite bool_decide_eq_false_2; [done|]. by rewrite take_nil_iff.
Qed.

Lemma drop_shorter {A} n (r : list A) :
  0 < n → r ≠ [] → length (drop n r) < length r.
Proof. intros Hn Hr. rewrite length_drop. destruct r; simpl; [done|lia]. Qed.

(** X13.  Reading a file in blocks of [n > 0] bytes until the first empty read
    yields blocks that are not empty and hold at most [n] bytes, and the blocks
    put together are the contents of the file: no byte is skipped, repeated or
    reordered on the way to the digest or the comparison. *)
Theorem blocks_cover_the_contents n r :
  0 < n →
  concat (blocks n r) = r ∧
  Forall (λ b, b ≠ [] ∧ length b ≤ n) (blocks n r).
Proof.
  intros Hn. remember (length r) as k eqn:Hk. revert r Hk.
  induction (lt_wf k) as [k _ IH]. intros r ->.
  destruct (decide (r = [])) as [->|Hr]; [by rewrite blocks_nil|].
  rewrite blocks_cons by done.
  destruct (IH (length (drop n r))) with (r := drop n r) as [Hcat Hall];
    [by apply drop_shorter|done|].
  split.
  - simpl. by rewrite Hcat, take_drop.
  - constructor; [|done]. split.
    + by rewrite take_nil_iff.
    + rewrite length_take. lia.
Qed.

(** The comparison of the paired blocks of two contents. *)
Lemma blocks_agree_same_length n d1 d2 :
  0 < n → length d1 = length d2 →
  forallb (λ bb : list byte * list byte, bool_decide (bb.1 = bb.2))
          (zip (blocks n d1) (blocks n d2)) = true ↔ d1 = d2.
Proof.
  intros Hn. remember (length d1) as k eqn:Hk. revert d1 d2 Hk.
  induction (lt_wf k) as [k _ IH]. intros d1 d2 -> Hlen.
  destruct (decide (d1 = [])) as [->|Hd1].
  { destruct d2; [|done]. by rewrite blocks_nil. }
  assert (d2 ≠ []) as Hd2 by (intros ->; by destruct d1).
  rewrite (blocks_cons n d1), (blocks_cons n d2) by done.
  cbn [zip_with forallb fst snd].
  rewrite andb_true_iff, bool_decide_eq_true.
  rewrite (IH (length (drop n d1))); [|by apply drop_shorter|done|].
  - split.
    + intros [Ht Hd]. by rewrite <-(take_drop n d1), <-(take_drop n d2), Ht, Hd.
    + by intros ->.
  - rewrite !length_drop. lia.
Qed.

Lemma blocks_agree_prefix n k : ∀ d1 rest,
  0 < n → length d1 = k * n →
  forallb (λ bb : list byte * list byte, bool_decide (bb.1 = bb.2))
          (zip (blocks n d1) (blocks n (d1 ++ rest))) = true.
Proof.
  induction k as [|k IH]; intros d1 rest Hn Hlen.
  { destruct d1; [|done]. by rewrite blocks_nil. }
  assert (d1 ≠ []) as Hd1 by (intros ->; simpl in Hlen; lia).
  assert (d1 ++ rest ≠ []) as Hd2 by (by destruct d1).
  rewrite (blocks_cons n d1), (blocks_cons n (d1 ++ rest)) by done.
  cbn [zip_with forallb fst snd].
  rewrite andb_true_iff, bool_decide_eq_true. split.
  - rewrite take_app_le by (simpl in Hlen; lia). done.
  - rewrite drop_app_le by (simpl in Hlen; lia). apply IH; [done|].
    rewrite length_drop. simpl in Hlen. lia.
Qed.

Lemma block_size_pos : 0 < 65536.
Proof. by apply Nat.ltb_lt. Qed.

(** X14.  For two readable files [compare_files] answers [True] when the
    contents are equal, and for contents of equal length only then.  Because
    [zip] stops with the shorter sequence of blocks, it also answers [True]
    when the first file is a prefix of the second that ends on a block
    boundary; in particular an empty file compares equal to every readable
    file. *)
Theorem compare_files_on_readable_files fs file1 file2 d1 d2 :
  read_bytes fs file1 = Some d1 → read_bytes fs file2 = Some d2 →
  (d1 = d2 → compare_files fs file1 file2 = true) ∧
  (length d1 = length d2 → compare_files fs file1 file2 = true → d1 = d2) ∧
  (∀ k rest, length d1 = k * 65536 → d2 = d1 ++ rest →
     compare_files fs file1 file2 = true) ∧
  (d1 = [] → compare_files fs file1 file2 = true).
Proof.
  intros H1 H2. unfold compare_files. rewrite H1, H2. split_and!.
  - intros ->. by apply blocks_agree_same_length; [apply block_size_pos|..].
  - intros Hlen. by apply blocks_agree_same_length; [apply block_size_pos|].
  - intros k rest Hk ->. eapply blocks_agree_prefix; [apply block_size_pos|done].
  - intros ->. by rewrite blocks_nil.
Qed.

Lemma compare_files_unreadable fs file1 file2 :
  read_bytes fs file1 = None ∨ read_bytes fs file2 = None →
  compare_files fs file1 file2 = false.
Proof.
  unfold compare_files. intros [-> | ->]; [done|].
  by destruct (read_bytes fs file1).
Qed.

End Blocks.

(** ** The two indexes of [find_unique_files] *)

Section Indexes.
Context `{Platform}.

Lemma foldl_invariant {S X} (I : S → Prop) (f : S → X → S) (xs : list X) s :
  I s → (∀ s x, x ∈ xs → I s → I (f s x)) → I (foldl f s xs).
Proof.
  revert s. induction xs as [|x xs IH]; intros s Hs Hstep; simpl; [done|].
  apply IH.
  - apply Hstep; [left|done].
  - intros s' y Hy. apply Hstep. by right.
Qed.

Lemma foldl_reaches {S X} (Q : S → Prop) (f : S → X → S) (xs : list X) s x :
  x ∈ xs → (∀ s, Q (f s x)) → (∀ s y, Q s → Q (f s y)) → Q (foldl f s xs).
Proof.
  intros Hx Hhit Hkeep. revert s.
  induction xs as [|y xs IH]; intros s; [by apply elem_of_nil in Hx|].
  simpl. apply elem_of_cons in Hx as [<-|Hx]; [|by apply IH].
  apply foldl_invariant; [apply Hhit|]. intros s' z _. apply Hkeep.
Qed.

Lemma bucket_snoc {A} (l : list A) x : bucket (l ++ [x]) = Some (l ++ [x]).
Proof. by destruct l. Qed.

Lemma bucket_total {K} `{Countable K} {A} (m : gmap K (list A)) k l :
  m !! k = bucket l → m !!! k = l.
Proof.
  intros Hm. unfold lookup_total, map_lookup_total. rewrite Hm.
  by destruct l.
Qed.

Lemma bucket_dom {K} `{Countable K} {A} (m : gmap K (list A)) k l :
  m !! k = bucket l → k ∈ dom m ↔ l ≠ [].
Proof.
  intros Hm. rewrite elem_of_dom, Hm. destruct l; simpl.
  - split; [by intros [? ?]|done].
  - split; [done|by eexists].
Qed.

(** Appending each item under its key, the items without a key being
    skipped, leaves under every key the items of that key in their order. *)
Lemma group_by_lookup {K} `{Countable K} (key : path → option K)
    (step : gmap K (list path) → path → gmap K (list path))
    (xs : list path) (k : K) :
  (∀ m p, step m p = match key p with
                     | Some k' => <[k' := m !!! k' ++ [p]]> m
                     | None => m
                     end) →
  foldl step ∅ xs !! k = bucket (filter (λ p, key p = Some k) xs).
Proof.
  intros Hstep. induction xs as [|p xs IH] using rev_ind; [done|].
  rewrite foldl_app, filter_app. simpl. rewrite Hstep.
  destruct (key p) as [k'|] eqn:Hk.
  - destruct (decide (k' = k)) as [->|Hne].
    + rewrite lookup_insert_eq, (bucket_total _ _ _ IH).
      rewrite filter_cons_True by done. by rewrite filter_nil, bucket_snoc.
    + rewrite lookup_insert_ne by done.
      rewrite filter_cons_False by congruence.
      by rewrite filter_nil, app_nil_r.
  - rewrite filter_cons_False by congruence.
    by rewrite filter_nil, app_nil_r.
Qed.

Lemma get_files_with_size_lookup fs walk s :
  get_files_with_size fs walk !! s = bucket (filter (size_is fs s) walk).
Proof.
  unfold get_files_with_size.
  rewrite (group_by_lookup (λ p, st_size <$> fs !! p)).
  - done.
  - intros m p. unfold index_step. by destruct (fs !! p).
Qed.

Lemma hash_key_spec fs p h :
  match compute_hash fs p with
  | Some h' => if truthy (Some h') then Some h' else None
  | None => None
  end = Some h ↔ digest_is fs h p.
Proof.
  unfold digest_is. destruct (compute_hash fs p) as [h'|]; simpl.
  - destruct (bool_decide_reflect (h' = "")) as [->|Hne]; simpl.
    + split; [done|]. by intros [[= <-] ?].
    + split; [by intros [= <-]|]. by intros [[= <-] ?].
  - split; [done|]. by intros [? ?].
Qed.

Lemma hash_index_lookup fs files h :
  hash_index fs files !! h = bucket (filter (digest_is fs h) files).
Proof.
  unfold hash_index.
  rewrite (group_by_lookup (λ p, match compute_hash fs p with
                                 | Some h' => if truthy (Some h') then Some h'
                                              else None
                                 | None => None
                                 end)).
  - f_equal. apply list_filter_iff. intros p. apply hash_key_spec.
  - intros m p. unfold hash_index_step.
    destruct (compute_hash fs p); [|done]. by destruct (truthy _).
Qed.

Lemma files_of_size fs walk s p :
  p ∈ get_files_with_size fs walk !!! s ↔ p ∈ walk ∧ size_is fs s p.
Proof.
  rewrite (bucket_total _ _ _ (get_files_with_size_lookup fs walk s)).
  rewrite list_elem_of_filter. apply and_comm.
Qed.

Lemma size_is_indexed fs walk s :
  s ∈ dom (get_files_with_size fs walk) ↔ ∃ p, p ∈ walk ∧ size_is fs s p.
Proof.
  rewrite (bucket_dom _ _ _ (get_files_with_size_lookup fs walk s)).
  split.
  - intros Hne. destruct (filter _ walk) as [|p l] eqn:E; [done|].
    exists p. apply and_comm. eapply list_elem_of_filter. rewrite E. left.
  - intros (p & Hp & Hs) E.
    assert (p ∈ filter (size_is fs s) walk) as Hin
      by (by apply list_elem_of_filter).
    rewrite E in Hin. by apply elem_of_nil in Hin.
Qed.

Lemma files_of_digest fs files h p :
  p ∈ hash_index fs files !!! h ↔ p ∈ files ∧ digest_is fs h p.
Proof.
  rewrite (bucket_total _ _ _ (hash_index_lookup fs files h)).
  rewrite list_elem_of_filter. apply and_comm.
Qed.

Lemma digest_is_indexed fs files h :
  h ∈ dom (hash_index fs files) ↔ ∃ p, p ∈ files ∧ digest_is fs h p.
Proof.
  rewrite (bucket_dom _ _ _ (hash_index_lookup fs files h)).
  split.
  - intros Hne. destruct (filter _ files) as [|p l] eqn:E; [done|].
    exists p. apply and_comm. eapply list_elem_of_filter. rewrite E. left.
  - intros (p & Hp & Hs) E.
    assert (p ∈ filter (digest_is fs h) files) as Hin
      by (by apply list_elem_of_filter).
    rewrite E in Hin. by apply elem_of_nil in Hin.
Qed.

End Indexes.

(** ** The loops of [find_unique_files] *)

Section DiffTrees.
Context `{Platform}.
Variable fs : filesystem.
Variables walk_a walk_b : list path.

Lemma digest_is_inj h h' p : digest_is fs h p → digest_is fs h' p → h = h'.
Proof. intros [? _] [? _]. congruence. Qed.

Lemma counterpart_at s h a b :
  size_is fs s a → digest_is fs h a → counterpart fs a b →
  size_is fs s b ∧ digest_is fs h b.
Proof.
  intros Hs Hh (s' & h' & Hs' & Hsb & Hh' & Hhb).
  by rewrite (size_is_inj _ _ _ _ Hs Hs'), (digest_is_inj _ _ _ Hh Hh').
Qed.

(** *** What the sets hold *)

Lemma inv_match_file_a lb s a sz h :
  (∀ b, b ∈ lb ↔ b ∈ walk_b ∧ size_is fs sz b ∧ digest_is fs h b) →
  a ∈ walk_a → size_is fs sz a → digest_is fs h a →
  diff_inv fs walk_a walk_b s →
  diff_inv fs walk_a walk_b (match_file_a fs lb s a).
Proof.
  intros Hlb Ha Hs Hh (Hua & Hub & Hma & Hmb). unfold match_file_a.
  destruct (list_find _ lb) as [[i b]|] eqn:E.
  - apply list_find_Some in E as (Hi & Hcmp & _).
    apply list_elem_of_lookup_2 in Hi. apply Hlb in Hi as (HbB & Hsb & Hhb).
    assert (counterpart fs a b) as Hc by (by exists sz, h).
    split_and!; simpl; [done|done|..].
    + intros a' [->%elem_of_singleton|?]%elem_of_union; [|by apply Hma].
      split; [done|]. by exists b.
    + intros b' [->%elem_of_singleton|?]%elem_of_union; [|by apply Hmb].
      split; [done|]. by exists a.
  - apply list_find_None in E.
    split_and!; simpl; [|done..].
    intros a' [->%elem_of_singleton|?]%elem_of_union; [|by apply Hua].
    split_and!; [done| |left; by exists h].
    intros (b & HbB & Hc & Hcmp).
    destruct (counterpart_at _ _ _ _ Hs Hh Hc) as [Hsb Hhb].
    assert (b ∈ lb) as Hin by (by apply Hlb).
    rewrite Forall_forall in E. by apply (E b Hin).
Qed.

Lemma inv_check_file_b s b :
  b ∈ walk_b → hashed_or_alone fs walk_a b →
  diff_inv fs walk_a walk_b s → diff_inv fs walk_a walk_b (check_file_b s b).
Proof.
  intros Hb Hh (Hua & Hub & Hma & Hmb). unfold check_file_b.
  destruct (decide _); [done|]. split_and!; simpl; [done| |done..].
  intros b' [->%elem_of_singleton|?]%elem_of_union; [done|by apply Hub].
Qed.

Lemma inv_update_unique_a s files :
  (∀ a, a ∈ files → a ∈ walk_a ∧ ¬ matches_in_b fs walk_b a ∧
                    hashed_or_alone fs walk_b a) →
  diff_inv fs walk_a walk_b s →
  diff_inv fs walk_a walk_b (update_unique_a s files).
Proof.
  intros Hf (Hua & Hub & Hma & Hmb). split_and!; simpl; [|done..].
  intros a [?%elem_of_list_to_set|?]%elem_of_union; [by apply Hf|by apply Hua].
Qed.

Lemma inv_update_unique_b s files :
  (∀ b, b ∈ files → b ∈ walk_b ∧ hashed_or_alone fs walk_a b) →
  diff_inv fs walk_a walk_b s →
  diff_inv fs walk_a walk_b (update_unique_b s files).
Proof.
  intros Hf (Hua & Hub & Hma & Hmb). split_and!; simpl; [done| |done..].
  intros b [?%elem_of_list_to_set|?]%elem_of_union; [by apply Hf|by apply Hub].
Qed.

Lemma hashed_files_of_size walk sz h p :
  p ∈ hash_index fs (get_files_with_size fs walk !!! sz) !!! h ↔
  p ∈ walk ∧ size_is fs sz p ∧ digest_is fs h p.
Proof. rewrite files_of_digest, files_of_size. tauto. Qed.

Lemma inv_process_common_size s sz :
  diff_inv fs walk_a walk_b s →
  diff_inv fs walk_a walk_b
    (process_common_size fs (get_files_with_size fs walk_a)
                         (get_files_with_size fs walk_b) s sz).
Proof.
  intros Hs. unfold process_common_size. cbv zeta.
  apply foldl_invariant; [apply foldl_invariant; [apply foldl_invariant|]|].
  - done.
  - intros s' h _ Hs'. unfold process_common_hash. cbv zeta.
    apply foldl_invariant; [apply foldl_invariant; [done|]|].
    + intros s'' a Ha Hs''. apply hashed_files_of_size in Ha as (? & ? & ?).
      eapply inv_match_file_a; [intros b; apply hashed_files_of_size|done..].
    + intros s'' b Hb Hs''. apply hashed_files_of_size in Hb as (? & ? & ?).
      apply inv_check_file_b; [done|left; by exists h|done].
  - intros s' h Hh Hs'.
    apply elem_of_elements, elem_of_difference in Hh as [Hha Hnc].
    apply inv_update_unique_a; [|done].
    intros a (HaA & Hsa & Hda)%hashed_files_of_size.
    split_and!; [done| |left; by exists h].
    intros (b & HbB & Hc & _).
    destruct (counterpart_at _ _ _ _ Hsa Hda Hc) as [Hsb Hdb].
    apply Hnc, elem_of_intersection. split; [done|].
    apply digest_is_indexed. exists b. split; [|done]. by apply files_of_size.
  - intros s' h Hh Hs'. apply inv_update_unique_b; [|done].
    intros b (? & ? & ?)%hashed_files_of_size.
    split; [done|left; by exists h].
Qed.

Lemma inv_diff_trees :
  diff_inv fs walk_a walk_b (diff_trees fs walk_a walk_b).
Proof.
  unfold diff_trees. cbv zeta.
  apply foldl_invariant; [apply foldl_invariant; [apply foldl_invariant|]|].
  - split_and!; simpl; intros x Hx; by apply elem_of_empty in Hx.
  - intros s sz _ Hs. by apply inv_process_common_size.
  - intros s sz Hsz Hs.
    apply elem_of_elements, elem_of_difference in Hsz as [HA Hnc].
    apply inv_update_unique_a; [|done]. intros a [HaA Hsa]%files_of_size.
    assert (∀ y, y ∈ walk_b → ¬ size_is fs sz y) as Halone.
    { intros y Hy Hsy. apply Hnc, elem_of_intersection. split; [done|].
      apply size_is_indexed. by exists y. }
    split_and!; [done| |right; by exists sz].
    intros (b & HbB & (s' & h' & Hs1 & Hs2 & _) & _).
    rewrite <-(size_is_inj _ _ _ _ Hsa Hs1) in Hs2. by apply (Halone b).
  - intros s sz Hsz Hs.
    apply elem_of_elements, elem_of_difference in Hsz as [HB Hnc].
    apply inv_update_unique_b; [|done]. intros b [HbB Hsb]%files_of_size.
    split; [done|]. right. exists sz. split; [done|].
    intros y Hy Hsy. apply Hnc, elem_of_intersection. split; [|done].
    apply size_is_indexed. by exists y.
Qed.

(** *** The sets only grow *)

Lemma diff_le_refl s : diff_le s s.
Proof. by unfold diff_le. Qed.

Lemma diff_le_trans s1 s2 s3 : diff_le s1 s2 → diff_le s2 s3 → diff_le s1 s3.
Proof.
  intros (? & ? & ? & ?) (? & ? & ? & ?).
  unfold diff_le. split_and!; by etrans.
Qed.

Lemma match_file_a_le lb s a : diff_le s (match_file_a fs lb s a).
Proof.
  unfold match_file_a, diff_le.
  destruct (list_find _ _) as [[? ?]|]; simpl; split_and!;
    done || apply union_subseteq_r.
Qed.

Lemma check_file_b_le s b : diff_le s (check_file_b s b).
Proof.
  unfold check_file_b, diff_le.
  destruct (decide _); simpl; split_and!; done || apply union_subseteq_r.
Qed.

Lemma update_unique_a_le s files : diff_le s (update_unique_a s files).
Proof. unfold diff_le; simpl; split_and!; done || apply union_subseteq_r. Qed.

Lemma update_unique_b_le s files : diff_le s (update_unique_b s files).
Proof. unfold diff_le; simpl; split_and!; done || apply union_subseteq_r. Qed.

Lemma foldl_le {X} (f : diff_state → X → diff_state) xs s :
  (∀ s x, diff_le s (f s x)) → diff_le s (foldl f s xs).
Proof.
  intros Hf. apply (foldl_invariant (diff_le s)); [apply diff_le_refl|].
  intros s' x _ Hs'. eapply diff_le_trans; [done|apply Hf].
Qed.

Lemma process_common_hash_le ha hb s h :
  diff_le s (process_common_hash ha hb fs s h).
Proof.
  unfold process_common_hash. cbv zeta.
  eapply diff_le_trans; [|apply foldl_le; intros; apply check_file_b_le].
  apply foldl_le. intros. apply match_file_a_le.
Qed.

Lemma process_common_size_le fa fb s sz :
  diff_le s (process_common_size fs fa fb s sz).
Proof.
  unfold process_common_size. cbv zeta.
  eapply diff_le_trans; [|apply foldl_le; intros; apply update_unique_b_le].
  eapply diff_le_trans; [|apply foldl_le; intros; apply update_unique_a_le].
  apply foldl_le. intros. apply process_common_hash_le.
Qed.

(** *** Every file of a common size with a digest is put in a set *)

Lemma settled_a_le s s' a :
  diff_le s s' → a ∈ unique_to_a s ∨ a ∈ matched_files_a s →
  a ∈ unique_to_a s' ∨ a ∈ matched_files_a s'.
Proof. intros (Hu & _ & Hm & _) [?|?]; [left; by apply Hu|right; by apply Hm]. Qed.

Lemma settled_b_le s s' b :
  diff_le s s' → b ∈ unique_to_b s ∨ b ∈ matched_files_b s →
  b ∈ unique_to_b s' ∨ b ∈ matched_files_b s'.
Proof. intros (_ & Hu & _ & Hm) [?|?]; [left; by apply Hu|right; by apply Hm]. Qed.

Lemma match_file_a_settles lb s a :
  a ∈ unique_to_a (match_file_a fs lb s a) ∨
  a ∈ matched_files_a (match_file_a fs lb s a).
Proof.
  unfold match_file_a. destruct (list_find _ _) as [[? ?]|]; simpl;
    [right|left]; apply elem_of_union; left; by apply elem_of_singleton.
Qed.

Lemma check_file_b_settles s b :
  b ∈ unique_to_b (check_file_b s b) ∨ b ∈ matched_files_b (check_file_b s b).
Proof.
  unfold check_file_b. destruct (decide _); [by right|left]. simpl.
  apply elem_of_union; left; by apply elem_of_singleton.
Qed.

Lemma common_size_settles_a s sz h a :
  a ∈ walk_a → size_is fs sz a → digest_is fs h a →
  let s' := process_common_size fs (get_files_with_size fs walk_a)
                                (get_files_with_size fs walk_b) s sz in
  a ∈ unique_to_a s' ∨ a ∈ matched_files_a s'.
Proof.
  intros Ha Hs Hh. unfold process_common_size. cbv zeta.
  set (ha := hash_index fs (get_files_with_size fs walk_a !!! sz)).
  set (hb := hash_index fs (get_files_with_size fs walk_b !!! sz)).
  assert (a ∈ ha !!! h) as Hin by (by apply hashed_files_of_size).
  assert (h ∈ dom ha) as Hdom.
  { apply digest_is_indexed. exists a. split; [by apply files_of_size|done]. }
  eapply settled_a_le; [apply foldl_le; intros; apply update_unique_b_le|].
  destruct (decide (h ∈ dom hb)) as [Hhb|Hhb].
  - eapply settled_a_le; [apply foldl_le; intros; apply update_unique_a_le|].
    apply (foldl_reaches
             (λ s, a ∈ unique_to_a s ∨ a ∈ matched_files_a s) _ _ _ h).
    + by apply elem_of_elements, elem_of_intersection.
    + intros s0. unfold process_common_hash. cbv zeta.
      eapply settled_a_le; [apply foldl_le; intros; apply check_file_b_le|].
      apply (foldl_reaches
               (λ s, a ∈ unique_to_a s ∨ a ∈ matched_files_a s) _ _ _ a);
        [done|intros; apply match_file_a_settles|].
      intros s1 y. apply settled_a_le, match_file_a_le.
    + intros s0 y. apply settled_a_le, process_common_hash_le.
  - apply (foldl_reaches
             (λ s, a ∈ unique_to_a s ∨ a ∈ matched_files_a s) _ _ _ h).
    + apply elem_of_elements, elem_of_difference. split; [done|].
      rewrite elem_of_intersection. tauto.
    + intros s0. left. simpl. apply elem_of_union. left.
      by apply elem_of_list_to_set.
    + intros s0 y. apply settled_a_le, update_unique_a_le.
Qed.

Lemma common_size_settles_b s sz h b :
  b ∈ walk_b → size_is fs sz b → digest_is fs h b →
  let s' := process_common_size fs (get_files_with_size fs walk_a)
                                (get_files_with_size fs walk_b) s sz in
  b ∈ unique_to_b s' ∨ b ∈ matched_files_b s'.
Proof.
  intros Hb Hs Hh. unfold process_common_size. cbv zeta.
  set (ha := hash_index fs (get_files_with_size fs walk_a !!! sz)).
  set (hb := hash_index fs (get_files_with_size fs walk_b !!! sz)).
  assert (b ∈ hb !!! h) as Hin by (by apply hashed_files_of_size).
  assert (h ∈ dom hb) as Hdom.
  { apply digest_is_indexed. exists b. split; [by apply files_of_size|done]. }
  destruct (decide (h ∈ dom ha)) as [Hha|Hha].
  - eapply settled_b_le; [apply foldl_le; intros; apply update_unique_b_le|].
    eapply settled_b_le; [apply foldl_le; intros; apply update_unique_a_le|].
    apply (foldl_reaches
             (λ s, b ∈ unique_to_b s ∨ b ∈ matched_files_b s) _ _ _ h).
    + by apply elem_of_elements, elem_of_intersection.
    + intros s0. unfold process_common_hash. cbv zeta.
      apply (foldl_reaches
               (λ s, b ∈ unique_to_b s ∨ b ∈ matched_files_b s) _ _ _ b);
        [done|intros; apply check_file_b_settles|].
      intros s1 y. apply settled_b_le, check_file_b_le.
    + intros s0 y. apply settled_b_le, process_common_hash_le.
  - apply (foldl_reaches
             (λ s, b ∈ unique_to_b s ∨ b ∈ matched_files_b s) _ _ _ h).
    + apply elem_of_elements, elem_of_difference. split; [done|].
      rewrite elem_of_intersection. tauto.
    + intros s0. left. simpl. apply elem_of_union. left.
      by apply elem_of_list_to_set.
    + intros s0 y. apply settled_b_le, update_unique_b_le.
Qed.

Lemma common_size_elem sz a b :
  a ∈ walk_a → size_is fs sz a → b ∈ walk_b → size_is fs sz b →
  sz ∈ elements (dom (get_files_with_size fs walk_a) ∩
                 dom (get_files_with_size fs walk_b)).
Proof.
  intros. apply elem_of_elements, elem_of_intersection.
  split; apply size_is_indexed; by eexists.
Qed.

Lemma diff_settles_a sz h a b :
  a ∈ walk_a → size_is fs sz a → digest_is fs h a →
  b ∈ walk_b → size_is fs sz b →
  let s := diff_trees fs walk_a walk_b in
  a ∈ unique_to_a s ∨ a ∈ matched_files_a s.
Proof.
  intros Ha Hsa Hh Hb Hsb. unfold diff_trees. cbv zeta.
  eapply settled_a_le; [apply foldl_le; intros; apply update_unique_b_le|].
  eapply settled_a_le; [apply foldl_le; intros; apply update_unique_a_le|].
  apply (foldl_reaches
           (λ s, a ∈ unique_to_a s ∨ a ∈ matched_files_a s) _ _ _ sz).
  - by eapply common_size_elem.
  - intros s0. by eapply common_size_settles_a.
  - intros s0 y. apply settled_a_le, process_common_size_le.
Qed.

Lemma diff_settles_b sz h a b :
  b ∈ walk_b → size_is fs sz b → digest_is fs h b →
  a ∈ walk_a → size_is fs sz a →
  let s := diff_trees fs walk_a walk_b in
  b ∈ unique_to_b s ∨ b ∈ matched_files_b s.
Proof.
  intros Hb Hsb Hh Ha Hsa. unfold diff_trees. cbv zeta.
  eapply settled_b_le; [apply foldl_le; intros; apply update_unique_b_le|].
  eapply settled_b_le; [apply foldl_le; intros; apply update_unique_a_le|].
  apply (foldl_reaches
           (λ s, b ∈ unique_to_b s ∨ b ∈ matched_files_b s) _ _ _ sz).
  - by eapply common_size_elem.
  - intros s0. by eapply common_size_settles_b.
  - intros s0 y. apply settled_b_le, process_common_size_le.
Qed.

Lemma diff_alone_a sz a :
  a ∈ walk_a → size_is fs sz a → (∀ b, b ∈ walk_b → ¬ size_is fs sz b) →
  a ∈ unique_to_a (diff_trees fs walk_a walk_b).
Proof.
  intros Ha Hsa Halone. unfold diff_trees. cbv zeta.
  eapply (foldl_le (λ s size, update_unique_b s _)); [intros; apply update_unique_b_le|].
  apply (foldl_reaches (λ s, a ∈ unique_to_a s) _ _ _ sz).
  - apply elem_of_elements, elem_of_difference. split.
    + apply size_is_indexed. by exists a.
    + intros [_ (b & Hb & Hsb)%size_is_indexed]%elem_of_intersection.
      by apply (Halone b).
  - intros s0. simpl. apply elem_of_union. left.
    by apply elem_of_list_to_set, files_of_size.
  - intros s0 y Hs0. by apply (update_unique_a_le s0).
Qed.

Lemma diff_alone_b sz b :
  b ∈ walk_b → size_is fs sz b → (∀ a, a ∈ walk_a → ¬ size_is fs sz a) →
  b ∈ unique_to_b (diff_trees fs walk_a walk_b).
Proof.
  intros Hb Hsb Halone. unfold diff_trees. cbv zeta.
  apply (foldl_reaches (λ s, b ∈ unique_to_b s) _ _ _ sz).
  - apply elem_of_elements, elem_of_difference. split.
    + apply size_is_indexed. by exists b.
    + intros [(a & Ha & Hsa)%size_is_indexed _]%elem_of_intersection.
      by apply (Halone a).
  - intros s0. simpl. apply elem_of_union. left.
    by apply elem_of_list_to_set, files_of_size.
  - intros s0 y Hs0. by apply (update_unique_b_le s0).
Qed.

End DiffTrees.

(** ** What [find_unique_files] reports *)

Section DiffReport.
Context `{Platform}.
Variable fs : filesystem.
Variables walk_a walk_b : list path.

Lemma readable_file p d :
  read_bytes fs p = Some d → ∃ f, fs !! p = Some f ∧ contents f = Some d.
Proof.
  unfold read_bytes. destruct (fs !! p) as [f|]; [|done].
  intros Hd. by exists f.
Qed.

Lemma readable_size p d :
  sizes_agree fs → read_bytes fs p = Some d →
  size_is fs (N.of_nat (length d)) p.
Proof.
  intros Hag (f & Hf & Hd)%readable_file. unfold size_is. rewrite Hf. simpl.
  specialize (Hag p f Hf). unfold size_matches in Hag. rewrite Hd in Hag.
  by rewrite Hag.
Qed.

Lemma readable_digest p d :
  digest_never_empty → read_bytes fs p = Some d →
  digest_is fs (sha256_hex d) p.
Proof.
  intros Hne Hd. split; [|apply Hne]. unfold compute_hash. by rewrite Hd.
Qed.

Lemma digest_is_readable h p :
  digest_is fs h p → ∃ d, read_bytes fs p = Some d.
Proof.
  intros [Hh _]. unfold compute_hash in Hh.
  destruct (read_bytes fs p) as [d|]; [by exists d|done].
Qed.

Lemma hashed_or_alone_exists others x :
  hashed_or_alone fs others x → is_Some (fs !! x).
Proof.
  intros [[h (d & (f & Hf & _)%readable_file)%digest_is_readable]
         |(s & Hs & _)].
  - by exists f.
  - unfold size_is in Hs. by destruct (fs !! x).
Qed.

Lemma same_bytes_match a b d :
  sizes_agree fs → digest_never_empty →
  read_bytes fs a = Some d → read_bytes fs b = Some d →
  counterpart fs a b ∧ compare_files fs a b = true.
Proof.
  intros Hag Hne Ha Hb. split.
  - exists (N.of_nat (length d)), (sha256_hex d).
    split_and!; by (apply readable_size || apply readable_digest).
  - unfold compare_files. rewrite Ha, Hb.
    by apply blocks_agree_same_length; [apply block_size_pos|..].
Qed.

Lemma match_same_bytes a b :
  sizes_agree fs → counterpart fs a b → compare_files fs a b = true →
  ∃ d, read_bytes fs a = Some d ∧ read_bytes fs b = Some d.
Proof.
  intros Hag (s & h & Hsa & Hsb & Hda & Hdb) Hcmp.
  destruct (digest_is_readable _ _ Hda) as [d1 H1].
  destruct (digest_is_readable _ _ Hdb) as [d2 H2].
  pose proof (size_is_inj _ _ _ _ Hsa (readable_size _ _ Hag H1)) as E1.
  pose proof (size_is_inj _ _ _ _ Hsb (readable_size _ _ Hag H2)) as E2.
  assert (length d1 = length d2) as Hlen by (apply Nat2N.inj; congruence).
  unfold compare_files in Hcmp. rewrite H1, H2 in Hcmp.
  apply blocks_agree_same_length in Hcmp; [|apply block_size_pos|done].
  exists d1. by subst.
Qed.

Lemma size_in_walk_dec sz (walk : list path) :
  (∃ p, p ∈ walk ∧ size_is fs sz p) ∨ (∀ p, p ∈ walk → ¬ size_is fs sz p).
Proof.
  destruct (decide (sz ∈ dom (get_files_with_size fs walk))) as [Hin|Hout].
  - left. by apply size_is_indexed.
  - right. intros p Hp Hs. apply Hout, size_is_indexed. by exists p.
Qed.

(** X15.  A readable file of tree A is in the first list that
    [find_unique_files] returns exactly when no file of tree B has its bytes.
    Stat sizes are the lengths of the contents and no digest is the empty
    string. *)
Theorem unique_to_a_is_exact a d :
  sizes_agree fs → digest_never_empty →
  a ∈ walk_a → read_bytes fs a = Some d →
  a ∈ (find_unique_files fs walk_a walk_b).1 ↔
  ∀ b, b ∈ walk_b → read_bytes fs b ≠ Some d.
Proof.
  intros Hag Hne Ha Hd. unfold find_unique_files. cbv zeta. simpl.
  destruct inv_diff_trees with (fs := fs) (walk_a := walk_a) (walk_b := walk_b)
    as (Hua & _ & Hma & _).
  split.
  - intros Hin b Hb Hbd. destruct (Hua a Hin) as (_ & Hno & _).
    apply Hno. exists b. split; [done|]. by eapply same_bytes_match.
  - intros Hnone.
    destruct (size_in_walk_dec (N.of_nat (length d)) walk_b)
      as [(b & Hb & Hsb)|Halone].
    + destruct (diff_settles_a fs walk_a walk_b (N.of_nat (length d))
                  (sha256_hex d) a b) as [Hu|Hm];
        [done|by apply readable_size|by apply readable_digest|done..|].
      destruct (Hma a Hm) as (_ & b' & Hb' & Hc & Hcmp).
      destruct (match_same_bytes a b' Hag Hc Hcmp) as (d' & Had & Hbd).
      rewrite Hd in Had. injection Had as <-. by destruct (Hnone b' Hb').
    + eapply diff_alone_a; [done|by apply readable_size|done].
Qed.

(** X16.  A readable file of tree B that is missing from the second list that
    [find_unique_files] returns has a file with its bytes in tree A. *)
Theorem file_of_b_left_out_has_a_copy_in_a b d :
  sizes_agree fs → digest_never_empty →
  b ∈ walk_b → read_bytes fs b = Some d →
  b ∉ (find_unique_files fs walk_a walk_b).2 →
  ∃ a, a ∈ walk_a ∧ read_bytes fs a = Some d.
Proof.
  intros Hag Hne Hb Hd. unfold find_unique_files. cbv zeta. simpl. intros Hout.
  destruct inv_diff_trees with (fs := fs) (walk_a := walk_a) (walk_b := walk_b)
    as (_ & _ & _ & Hmb).
  destruct (size_in_walk_dec (N.of_nat (length d)) walk_a)
    as [(a & Ha & Hsa)|Halone].
  - destruct (diff_settles_b fs walk_a walk_b (N.of_nat (length d))
                (sha256_hex d) a b) as [Hu|Hm];
      [done|by apply readable_size|by apply readable_digest|done..|].
    destruct (Hmb b Hm) as (_ & a' & Ha' & Hc & Hcmp).
    destruct (match_same_bytes a' b Hag Hc Hcmp) as (d' & Had & Hbd).
    rewrite Hd in Hbd. injection Hbd as <-. by exists a'.
  - destruct Hout. eapply diff_alone_b; [done|by apply readable_size|done].
Qed.

(** X17.  A file that can be stat'ed but not read, and whose size also occurs
    in the other tree, is in neither list of its tree: an unreadable file of
    A is not reported unique to A, and an unreadable file of B is not
    reported unique to B. *)
Theorem unreadable_file_of_common_size_is_not_reported x sz :
  read_bytes fs x = None → size_is fs sz x →
  ((∃ b, b ∈ walk_b ∧ size_is fs sz b) →
     x ∉ (find_unique_files fs walk_a walk_b).1) ∧
  ((∃ a, a ∈ walk_a ∧ size_is fs sz a) →
     x ∉ (find_unique_files fs walk_a walk_b).2).
Proof.
  intros Hread Hsz. unfold find_unique_files. cbv zeta. simpl.
  destruct inv_diff_trees with (fs := fs) (walk_a := walk_a) (walk_b := walk_b)
    as (Hua & Hub & _ & _).
  assert (∀ others, (∃ y, y ∈ others ∧ size_is fs sz y) →
                    ¬ hashed_or_alone fs others x) as Hno.
  { intros others (y & Hy & Hsy) [[h (d & Hd)%digest_is_readable]
                                 |(s & Hs & Halone)].
    - congruence.
    - rewrite (size_is_inj _ _ _ _ Hs Hsz) in Halone. by apply (Halone y). }
  split; intros Hcommon Hin.
  - destruct (Hua x Hin) as (_ & _ & Hh). by apply (Hno walk_b).
  - destruct (Hub x Hin) as (_ & Hh). by apply (Hno walk_a).
Qed.

(** X18.  A file whose size occurs nowhere in the other tree is reported
    unique to its tree, whether it can be read or not. *)
Theorem file_of_a_size_met_in_one_tree_is_unique x sz :
  size_is fs sz x →
  (x ∈ walk_a → (∀ b, b ∈ walk_b → ¬ size_is fs sz b) →
     x ∈ (find_unique_files fs walk_a walk_b).1) ∧
  (x ∈ walk_b → (∀ a, a ∈ walk_a → ¬ size_is fs sz a) →
     x ∈ (find_unique_files fs walk_a walk_b).2).
Proof.
  intros Hsz. unfold find_unique_files. cbv zeta. simpl. split.
  - intros Hx Halone. by eapply diff_alone_a.
  - intros Hx Halone. by eapply diff_alone_b.
Qed.

(** X19.  Each list that [find_unique_files] returns holds only files of its
    own walk that could be stat'ed, and no file of [unique_to_a] is in
    [matched_files_a]. *)
Theorem unique_lists_stay_in_their_tree :
  let s := diff_trees fs walk_a walk_b in
  (∀ a, a ∈ (find_unique_files fs walk_a walk_b).1 →
        a ∈ walk_a ∧ is_Some (fs !! a) ∧ a ∉ matched_files_a s) ∧
  (∀ b, b ∈ (find_unique_files fs walk_a walk_b).2 →
        b ∈ walk_b ∧ is_Some (fs !! b)).
Proof.
  unfold find_unique_files. cbv zeta. simpl.
  destruct inv_diff_trees with (fs := fs) (walk_a := walk_a) (walk_b := walk_b)
    as (Hua & Hub & Hma & _).
  split.
  - intros a Hin. destruct (Hua a Hin) as (Ha & Hno & Hh).
    split_and!; [done|by eapply hashed_or_alone_exists|].
    intros Hm. by destruct (Hma a Hm) as [_ ?].
  - intros b Hin. destruct (Hub b Hin) as (Hb & Hh).
    split; [done|by eapply hashed_or_alone_exists].
Qed.

End DiffReport.

Lemma blocks_cover_the_contents_witness :
  concat (blocks 2 [x61; x62; x63]) = [x61; x62; x63] ∧
  Forall (λ b, b ≠ [] ∧ length b ≤ 2) (blocks 2 [x61; x62; x63]).
Proof. apply (blocks_cover_the_contents 2 [x61; x62; x63]). lia. Defined.

Lemma compare_files_on_readable_files_witness :
  ([x61; x62; x63] = [x61; x62; x63] →
     compare_files mixed_fs "A/one.txt" "B/one.txt" = true) ∧
  (length [x61; x62; x63] = length [x61; x62; x63] →
     compare_files mixed_fs "A/one.txt" "B/one.txt" = true →
     [x61; x62; x63] = [x61; x62; x63]) ∧
  (∀ k rest, length [x61; x62; x63] = k * 65536 →
     [x61; x62; x63] = [x61; x62; x63] ++ rest →
     compare_files mixed_fs "A/one.txt" "B/one.txt" = true) ∧
  ([x61; x62; x63] = [] →
     compare_files mixed_fs "A/one.txt" "B/one.txt" = true).
Proof.
  apply (compare_files_on_readable_files mixed_fs "A/one.txt" "B/one.txt"
           [x61; x62; x63] [x61; x62; x63]); reflexivity.
Defined.

Example demo_find_unique_files :
  find_unique_files mixed_fs mixed_walk_a mixed_walk_b =
    ({["A/two.txt"]}, {["B/long.txt"]}).
Proof. by vm_compute. Qed.

Lemma unique_to_a_is_exact_witness :
  "A/two.txt" ∈ (find_unique_files mixed_fs mixed_walk_a mixed_walk_b).1 ↔
  ∀ b, b ∈ mixed_walk_b → read_bytes mixed_fs b ≠ Some [x78; x79; x7a].
Proof.
  apply (unique_to_a_is_exact mixed_fs mixed_walk_a mixed_walk_b "A/two.txt"
           [x78; x79; x7a]);
    first [exact plain_digest_never_empty | compute_done].
Defined.

Lemma file_of_b_left_out_has_a_copy_in_a_witness :
  ∃ a, a ∈ mixed_walk_a ∧ read_bytes mixed_fs a = Some [x61; x62; x63].
Proof.
  apply (file_of_b_left_out_has_a_copy_in_a mixed_fs mixed_walk_a mixed_walk_b
           "B/one.txt" [x61; x62; x63]);
    first [exact plain_digest_never_empty | compute_done].
Defined.

Lemma unreadable_file_of_common_size_is_not_reported_witness :
  "B/locked.txt" ∉ (find_unique_files mixed_fs mixed_walk_a mixed_walk_b).2.
Proof.
  refine (proj2 (unreadable_file_of_common_size_is_not_reported mixed_fs
                   mixed_walk_a mixed_walk_b "B/locked.txt" 3 _ _) _).
  - reflexivity.
  - compute_done.
  - exists "A/one.txt". split; compute_done.
Defined.

Lemma file_of_a_size_met_in_one_tree_is_unique_witness :
  "B/long.txt" ∈ (find_unique_files mixed_fs mixed_walk_a mixed_walk_b).2.
Proof.
  refine (proj2 (file_of_a_size_met_in_one_tree_is_unique mixed_fs
                   mixed_walk_a mixed_walk_b "B/long.txt" 4 _) _ _).
  - compute_done.
  - compute_done.
  - apply Forall_forall. compute_done.
Defined.

(** X20.  The dictionary of [get_files_with_size] holds under each size the
    files of the walk that have this size, in the order of the walk and as
    often as the walk names them; files that cannot be stat'ed are under no
    size, and no size is kept with an empty list. *)
Theorem index_by_size_is_exact `{Platform} (fs : filesystem)
    (walk : list path) (s : N) :
  get_files_with_size fs walk !!! s = filter (size_is fs s) walk ∧
  (s ∈ dom (get_files_with_size fs walk) ↔ ∃ p, p ∈ walk ∧ size_is fs s p) ∧
  (∀ p, fs !! p = None → ∀ s', p ∉ get_files_with_size fs walk !!! s') ∧
  get_files_with_size fs walk !! s ≠ Some [].
Proof.
  pose proof (get_files_with_size_lookup fs walk) as Hlook.
  split_and!.
  - by apply bucket_total.
  - apply size_is_indexed.
  - intros p Hp s' [_ Hs]%files_of_size. unfold size_is in Hs.
    by rewrite Hp in Hs.
  - rewrite Hlook. by destruct (filter _ walk).
Qed.
